(** * Process scheduling simulation (Project1/main.go)

    A shallow embedding of the four schedulers of [main.go]
    ([FCFSSchedule], [SJFPrioritySchedule], [SJFSchedule], [RRSchedule])
    and the properties of them that the specification states.

    Conventions of the embedding.
    - Go's [int64], and [int] on a 64-bit target, are integers of [Z] whose
      arithmetic wraps: every [+], [-], [++] and [--] of the source goes
      through [Int.add] / [Int.sub].
    - [float64] is the kernel's binary64 ([PrimFloat]), so a division by
      zero yields an infinity or a NaN exactly as it does in Go.
    - A slice is a list; the caller's [processes] slice is threaded through
      every scheduler as the field [procs] of its state, because the
      callee shares the backing array with the caller.
    - A [for ... range] loop is a [fold_left] over the indices (over the
      elements where the loop only reads them); a [for cond] loop is
      [while] with a fuel argument.
    - The writer [w] and the three output helpers only render the values a
      scheduler hands them: a scheduler's result is the [Report] of those
      values, together with the final contents of the caller's slice. *)

From Stdlib Require Import ZArith List Lia Bool Permutation Sorted.
From Stdlib Require Floats.
From Stdlib Require String Ascii.
Import ListNotations.
Open Scope Z_scope.

(** ** Machine integers *)

Module Int.

Definition min_int : Z := - 2 ^ 63.
Definition max_int : Z := 2 ^ 63 - 1.

Definition in_range (z : Z) : Prop := min_int <= z <= max_int.

(** Two's complement wrap-around of a 64-bit signed integer. *)
Definition wrap (z : Z) : Z := (z + 2 ^ 63) mod 2 ^ 64 - 2 ^ 63.

Definition add (a b : Z) : Z := wrap (a + b).
Definition sub (a b : Z) : Z := wrap (a - b).

End Int.

(** ** float64 *)

Module F64.

Import Floats.

Definition zero : float := PrimFloat.zero.

(** [float64(x)] for an integer [x]: round to nearest, ties to even. *)
Definition of_int (z : Z) : float :=
  SF2Prim (binary_normalize prec emax z 0 false).

(** [int64(f)]: truncation toward zero.  Outside the range of [int64]
    (and for NaN) the Go specification leaves the result to the
    implementation; amd64 yields the least [int64]. *)
Definition to_int (f : float) : Z :=
  match Prim2SF f with
  | S754_zero _ => 0
  | S754_finite s m e =>
      let mag := Z.shiftl (Z.pos m) e in
      let v := if s then - mag else mag in
      if (Int.min_int <=? v) && (v <=? Int.max_int) then v else Int.min_int
  | S754_infinity _ => Int.min_int
  | S754_nan => Int.min_int
  end.

Definition add (x y : float) : float := PrimFloat.add x y.
Definition div (x y : float) : float := PrimFloat.div x y.
Definition is_nan (x : float) : bool := PrimFloat.is_nan x.
Definition eqb (x y : float) : bool := PrimFloat.eqb x y.

End F64.

Definition float64 : Set := PrimFloat.float.

(** ** Data model (main.go, lines 58-70) *)

Record Process : Type := mkProcess {
  ProcessID : Z;
  ArrivalTime : Z;
  BurstDuration : Z;
  Priority : Z
}.

Record TimeSlice : Type := mkTimeSlice {
  PID : Z;
  Start : Z;
  Stop : Z
}.

(** A row of the schedule table.  The source stores the seven cells as
    the decimal renderings ([fmt.Sprint]) of these integers. *)
Record Row : Type := mkRow {
  rowID : Z;
  rowPriority : Z;
  rowBurst : Z;
  rowArrival : Z;
  rowWait : Z;
  rowTurnaround : Z;
  rowExit : Z
}.

(** What a scheduler passes to [outputGantt] and [outputSchedule]: the
    timeline, the rows ([None] is a row never filled in, [nil] in Go), and
    the three footer values in the order of [outputSchedule]'s parameters
    [wait], [turnaround], [throughput]. *)
Record Report : Type := mkReport {
  repGantt : list TimeSlice;
  repRows : list (option Row);
  repWait : float64;
  repTurnaround : float64;
  repThroughput : float64
}.

Definition noProcess : Process := mkProcess 0 0 0 0.
Definition noSlice : TimeSlice := mkTimeSlice 0 0 0.

(** Slice indexing.  Every index below is produced by a [range] loop over
    a slice of the same length, or guarded by a test against [-1], so the
    default is never returned on a path where Go would not panic. *)
Definition proc (ps : list Process) (i : nat) : Process := nth i ps noProcess.
Definition elem (l : list Z) (i : nat) : Z := nth i l 0.

Fixpoint set_nth {A : Type} (l : list A) (i : nat) (x : A) : list A :=
  match l, i with
  | [], _ => []
  | _ :: t, O => x :: t
  | h :: t, S i' => h :: set_nth t i' x
  end.

(** [for cond { body }], with fuel: [None] when the fuel runs out while
    the condition still holds. *)
Fixpoint while {S : Type} (cond : S -> bool) (body : S -> S)
  (fuel : nat) (s : S) : option S :=
  match fuel with
  | O => if cond s then None else Some s
  | Datatypes.S f => if cond s then while cond body f (body s) else Some s
  end.

(** The sum of the slice durations of a timeline, and of the bursts. *)
Definition duration (s : TimeSlice) : Z := Stop s - Start s.
Definition total_duration (g : list TimeSlice) : Z :=
  fold_right Z.add 0 (map duration g).
Definition sumZ (l : list Z) : Z := fold_right Z.add 0 l.
Definition total_burst (ps : list Process) : Z :=
  sumZ (map BurstDuration ps).

(** ** First-come, first-served (main.go, lines 78-128) *)

Module FCFS.

Record State : Type := mkState {
  procs : list Process;
  serviceTime : Z;
  totalWait : float64;
  totalTurnaround : float64;
  lastCompletion : float64;
  waitingTime : Z;
  schedule : list (option Row);
  gantt : list TimeSlice
}.

Definition init (processes : list Process) : State :=
  mkState processes 0 F64.zero F64.zero F64.zero 0
    (repeat None (length processes)) [].

(** One iteration of the loop at lines 88-118. *)
Definition body (st : State) (i : nat) : State :=
  let p := proc (procs st) i in
  let waitingTime :=
    if 0 <? ArrivalTime p
    then Int.sub (serviceTime st) (ArrivalTime p)
    else waitingTime st in
  let totalWait := F64.add (totalWait st) (F64.of_int waitingTime) in
  let start := Int.add waitingTime (ArrivalTime p) in
  let turnaround := Int.add (BurstDuration p) waitingTime in
  let totalTurnaround :=
    F64.add (totalTurnaround st) (F64.of_int turnaround) in
  let completion :=
    Int.add (Int.add (BurstDuration p) (ArrivalTime p)) waitingTime in
  let lastCompletion := F64.of_int completion in
  let row :=
    mkRow (ProcessID p) (Priority p) (BurstDuration p) (ArrivalTime p)
      waitingTime turnaround completion in
  let serviceTime := Int.add (serviceTime st) (BurstDuration p) in
  mkState (procs st) serviceTime totalWait totalTurnaround lastCompletion
    waitingTime (set_nth (schedule st) i (Some row))
    (gantt st ++ [mkTimeSlice (ProcessID p) start serviceTime]).

Definition loop (processes : list Process) : State :=
  fold_left body (seq 0 (length processes)) (init processes).

(** Lines 120-127. *)
Definition report (st : State) : Report :=
  let count := F64.of_int (Z.of_nat (length (procs st))) in
  let aveWait := F64.div (totalWait st) count in
  let aveTurnaround := F64.div (totalTurnaround st) count in
  let aveThroughput := F64.div count (lastCompletion st) in
  mkReport (gantt st) (schedule st) aveWait aveTurnaround aveThroughput.

End FCFS.

(** The caller's slice and the report when the loop is left: the report
    holds what the call then hands to its output helpers (lines
    125-127), of which [outputGantt] can panic. *)
Definition FCFSSchedule (processes : list Process)
  : list Process * Report :=
  let st := FCFS.loop processes in (FCFS.procs st, FCFS.report st).


(** ** The state of the two preemptive simulations

    [SJFSchedule] and [SJFPrioritySchedule] declare the same variables. *)

Record Sim : Type := mkSim {
  procs : list Process;
  timestep : Z;
  totalBurstTime : Z;
  processBurstLeft : list Z;
  lastGantIndex : Z;
  lastGantStartTime : Z;
  gantt : list TimeSlice;
  schedule : list (option Row);
  totalWait : float64;
  totalTurnaround : float64;
  lastCompletion : float64
}.

(** The constant the source initialises its running minima with (lines
    150, 151 and 252, each commented [INT_MAX]). *)
Definition INT_MAX : Z := 100000000.

(** Lines 141-147 and 243-249: the private copy of the bursts and their
    sum. *)
Definition sim_init (processes : list Process) : Sim :=
  mkSim processes 0
    (fold_left (fun acc p => Int.add acc (BurstDuration p)) processes 0)
    (map BurstDuration processes)
    (-1) 0 [] (repeat None (length processes))
    F64.zero F64.zero F64.zero.

Definition running (st : Sim) : bool := timestep st <? totalBurstTime st.

(** Lines 192-203 and 275-286: close the open slice when the selection
    changes or on the last timestep, and open the next one. *)
Definition gantt_step (st : Sim) (leastJobIndex : Z) : Sim :=
  if negb (lastGantIndex st =? leastJobIndex)
     || (timestep st =? Int.sub (totalBurstTime st) 1)
  then
    mkSim (procs st) (timestep st) (totalBurstTime st) (processBurstLeft st)
      leastJobIndex (timestep st)
      (if negb (lastGantIndex st =? -1)
       then gantt st ++
            [mkTimeSlice
               (ProcessID (proc (procs st) (Z.to_nat (lastGantIndex st))))
               (lastGantStartTime st) (timestep st)]
       else gantt st)
      (schedule st) (totalWait st) (totalTurnaround st) (lastCompletion st)
  else st.

(** Lines 187-190 and 288-291, followed by the loop's [timestep++]. *)
Definition idle_step (st : Sim) : Sim :=
  mkSim (procs st) (Int.add (timestep st) 1) (Int.add (totalBurstTime st) 1)
    (processBurstLeft st) (lastGantIndex st) (lastGantStartTime st)
    (gantt st) (schedule st)
    (totalWait st) (totalTurnaround st) (lastCompletion st).

(** Lines 205-223 and 293-311, followed by the loop's [timestep++]. *)
Definition run_step (st : Sim) (leastJobIndex : Z) : Sim :=
  let i := Z.to_nat leastJobIndex in
  let p := proc (procs st) i in
  let burstLeft :=
    set_nth (processBurstLeft st) i
      (Int.sub (elem (processBurstLeft st) i) 1) in
  if elem burstLeft i =? 0 then
    let exit := Int.add (timestep st) 1 in
    let turnaround := Int.sub exit (ArrivalTime p) in
    let wait := Int.sub (Int.sub exit (ArrivalTime p)) (BurstDuration p) in
    let waitTime := F64.of_int wait in
    mkSim (procs st) (Int.add (timestep st) 1) (totalBurstTime st) burstLeft
      (lastGantIndex st) (lastGantStartTime st) (gantt st)
      (set_nth (schedule st) i
         (Some (mkRow (ProcessID p) (Priority p) (BurstDuration p)
                  (ArrivalTime p) wait turnaround exit)))
      (F64.add (totalWait st) waitTime)
      (F64.add (totalTurnaround st) (F64.of_int turnaround))
      (F64.of_int
         (Int.add (Int.add (BurstDuration p) (ArrivalTime p))
            (F64.to_int waitTime)))
  else
    mkSim (procs st) (Int.add (timestep st) 1) (totalBurstTime st) burstLeft
      (lastGantIndex st) (lastGantStartTime st) (gantt st) (schedule st)
      (totalWait st) (totalTurnaround st) (lastCompletion st).

(** Lines 226-229 and 314-317: the footer values are
    [totalWait/count], [totalTurnaround/count] and [lastCompletion/count]. *)
Definition sim_report (st : Sim) : Report :=
  let count := F64.of_int (Z.of_nat (length (procs st))) in
  mkReport (gantt st) (schedule st)
    (F64.div (totalWait st) count)
    (F64.div (totalTurnaround st) count)
    (F64.div (lastCompletion st) count).

(** ** Shortest job first (main.go, lines 232-318) *)

Module SJF.

(** One iteration of the scan at lines 255-273; the accumulator is
    [(leastJobIndex, leastJobBurstTime)]. *)
Definition scan (ps : list Process) (burstLeft : list Z) (t : Z)
  (acc : Z * Z) (i : nat) : Z * Z :=
  if elem burstLeft i <=? 0 then acc
  else if t <? ArrivalTime (proc ps i) then acc
  else if snd acc <=? elem burstLeft i then acc
  else (Z.of_nat i, elem burstLeft i).

Definition select (st : Sim) : Z * Z :=
  fold_left (scan (procs st) (processBurstLeft st) (timestep st))
    (seq 0 (length (procs st))) (-1, INT_MAX).

(** The body of the loop at lines 250-312. *)
Definition body (st : Sim) : Sim :=
  let leastJobIndex := fst (select st) in
  let st1 := gantt_step st leastJobIndex in
  if leastJobIndex =? -1 then idle_step st1 else run_step st1 leastJobIndex.

Definition loop (fuel : nat) (processes : list Process) : option Sim :=
  while running body fuel (sim_init processes).

End SJF.

(** The caller's slice and the report when the loop is left, if the
    fuel sufficed: the report holds what the call then hands to its
    output helpers (lines 314-317), of which [outputGantt] can panic. *)
Definition SJFSchedule (fuel : nat) (processes : list Process)
  : option (list Process * Report) :=
  option_map (fun st => (procs st, sim_report st)) (SJF.loop fuel processes).

(** ** Priority, then shortest job (main.go, lines 130-230) *)

Module Prio.

(** One iteration of the scan at lines 154-185; the accumulator is
    [(leastJobIndex, leastJobBurstTime, leastJobPriority)]. *)
Definition scan (ps : list Process) (burstLeft : list Z) (t : Z)
  (acc : Z * Z * Z) (i : nat) : Z * Z * Z :=
  let '(leastJobIndex, leastJobBurstTime, leastJobPriority) := acc in
  if elem burstLeft i <=? 0 then acc
  else if t <? ArrivalTime (proc ps i) then acc
  else if leastJobPriority <? Priority (proc ps i) then acc
  else if Priority (proc ps i) <? leastJobPriority then
    (Z.of_nat i, BurstDuration (proc ps i), Priority (proc ps i))
  else if leastJobBurstTime <=? elem burstLeft i then acc
  else (Z.of_nat i, elem burstLeft i, Priority (proc ps i)).

Definition select (st : Sim) : Z * Z * Z :=
  fold_left (scan (procs st) (processBurstLeft st) (timestep st))
    (seq 0 (length (procs st))) (-1, INT_MAX, INT_MAX).

(** The body of the loop at lines 148-224: here the idle test comes
    before the timeline is touched. *)
Definition body (st : Sim) : Sim :=
  let leastJobIndex := fst (fst (select st)) in
  if leastJobIndex =? -1 then idle_step st
  else run_step (gantt_step st leastJobIndex) leastJobIndex.

Definition loop (fuel : nat) (processes : list Process) : option Sim :=
  while running body fuel (sim_init processes).

End Prio.

(** The caller's slice and the report when the loop is left, if the
    fuel sufficed: the report holds what the call then hands to its
    output helpers (lines 226-229), of which [outputGantt] can panic. *)
Definition SJFPrioritySchedule (fuel : nat) (processes : list Process)
  : option (list Process * Report) :=
  option_map (fun st => (procs st, sim_report st)) (Prio.loop fuel processes).

(** ** Round robin (main.go, lines 320-390) *)

Module RR.

Record State : Type := mkState {
  procs : list Process;
  timestep : Z;
  totalBurstTime : Z;
  processBurstInit : list Z;
  ranProcess : bool;
  schedule : list (option Row);
  gantt : list TimeSlice
}.

(** Line 335: [processes[i], processes[j] = processes[j], processes[i]];
    both right-hand sides are read before either element is written. *)
Definition swap (ps : list Process) (i j : nat) : list Process :=
  set_nth (set_nth ps i (proc ps j)) j (proc ps i).

(** Lines 333-337, one value of [j]. *)
Definition sort_inner (i : nat) (ps : list Process) (j : nat)
  : list Process :=
  if ArrivalTime (proc ps j) <? ArrivalTime (proc ps i)
  then swap ps i j else ps.

(** Lines 332-338, one value of [i]. *)
Definition sort_outer (ps : list Process) (i : nat) : list Process :=
  fold_left (sort_inner i) (seq i (length ps - i)) ps.

Definition sort (ps : list Process) : list Process :=
  fold_left sort_outer (seq 0 (length ps)) ps.

(** Lines 340-343, on the reordered slice. *)
Definition init (sorted : list Process) : State :=
  mkState sorted 0
    (fold_left (fun acc p => Int.add acc (BurstDuration p)) sorted 0)
    (map BurstDuration sorted) false
    (repeat None (length sorted)) [].

Definition set_burst (p : Process) (b : Z) : Process :=
  mkProcess (ProcessID p) (ArrivalTime p) b (Priority p).

(** Lines 347-376, one value of [i]. *)
Definition pass (st : State) (i : nat) : State :=
  let p := proc (procs st) i in
  if timestep st <? ArrivalTime p then st
  else if BurstDuration p <=? 0 then st
  else
    let t := Int.add (timestep st) 1 in
    let b := elem (processBurstInit st) i in
    let exit := Int.add t 1 in
    mkState
      (set_nth (procs st) i (set_burst p (Int.sub (BurstDuration p) 1)))
      t (totalBurstTime st) (processBurstInit st) true
      (set_nth (schedule st) i
         (Some (mkRow (ProcessID p) (Priority p) b (ArrivalTime p)
                  (Int.sub (Int.sub exit (ArrivalTime p)) b)
                  (Int.sub exit (ArrivalTime p)) exit)))
      (gantt st ++ [mkTimeSlice (ProcessID p) (Int.sub t 1) t]).

(** The body of the loop at lines 345-384 (the [print] of line 378
    writes the timestep to standard error and is left out). *)
Definition body (st : State) : State :=
  let st0 :=
    mkState (procs st) (timestep st) (totalBurstTime st)
      (processBurstInit st) false (schedule st) (gantt st) in
  let st1 := fold_left pass (seq 0 (length (procs st0))) st0 in
  if ranProcess st1 then st1
  else
    mkState (procs st1) (Int.add (timestep st1) 1)
      (Int.add (totalBurstTime st1) 1) (processBurstInit st1)
      (ranProcess st1) (schedule st1) (gantt st1).

Definition running (st : State) : bool := timestep st <? totalBurstTime st.

Definition loop (fuel : nat) (processes : list Process) : option State :=
  while running body fuel (init (sort processes)).

(** Lines 386-388. *)
Definition report (st : State) : Report :=
  mkReport (gantt st) (schedule st)
    (F64.of_int 0) (F64.of_int 0) (F64.of_int 0).

End RR.

(** The caller's slice and the report when the loops are left, if the
    fuel sufficed: the report holds what the call then hands to its
    output helpers (lines 386-388), of which [outputGantt] can panic. *)
Definition RRSchedule (fuel : nat) (processes : list Process)
  : option (list Process * Report) :=
  option_map (fun st => (RR.procs st, RR.report st)) (RR.loop fuel processes).

(** ** Properties of inputs and of simulation states *)

Definition max_arrival (ps : list Process) : Z :=
  fold_right Z.max 0 (map ArrivalTime ps).

(** The data model's ranges: arrival times are not negative and bursts
    are positive. *)
Definition well_formed (ps : list Process) : Prop :=
  Forall (fun p => 0 <= ArrivalTime p /\ 0 < BurstDuration p) ps.

(** The last timestep a simulation of [ps] can reach is representable. *)
Definition fits (ps : list Process) : Prop :=
  total_burst ps + max_arrival ps <= Int.max_int.

Definition short_bursts (ps : list Process) : Prop :=
  Forall (fun p => BurstDuration p < INT_MAX) ps.

Definition low_priorities (ps : list Process) : Prop :=
  Forall (fun p => Priority p < INT_MAX) ps.

(** Process [i] has arrived by [t] and has work left. *)
Definition eligible (ps : list Process) (burstLeft : list Z) (t : Z)
  (i : nat) : Prop :=
  (i < length ps)%nat /\ 0 < elem burstLeft i /\ ArrivalTime (proc ps i) <= t.

(** What holds of the state at the head of every iteration of a
    preemptive simulation of [ps]. *)
Record sim_inv (ps : list Process) (st : Sim) : Prop := mk_sim_inv {
  inv_procs : procs st = ps;
  inv_length : length (processBurstLeft st) = length ps;
  inv_left : forall i, (i < length ps)%nat ->
    0 <= elem (processBurstLeft st) i <= BurstDuration (proc ps i);
  inv_progress : forall i, (i < length ps)%nat ->
    BurstDuration (proc ps i) - elem (processBurstLeft st) i
    <= Z.max 0 (timestep st - ArrivalTime (proc ps i));
  inv_time : 0 <= timestep st;
  inv_total : totalBurstTime st = timestep st + sumZ (processBurstLeft st);
  inv_grown : total_burst ps <= totalBurstTime st;
  inv_bound : totalBurstTime st <= total_burst ps + max_arrival ps
}.

(** One iteration, seen on the four variables that drive the loop: an
    idle tick extends the bound, a tick that runs process [i] takes one
    unit off its remaining burst. *)
Inductive tick (ps : list Process) (st st' : Sim) : Prop :=
| tick_idle :
    (forall i, ~ eligible ps (processBurstLeft st) (timestep st) i) ->
    procs st' = procs st ->
    timestep st' = timestep st + 1 ->
    totalBurstTime st' = totalBurstTime st + 1 ->
    processBurstLeft st' = processBurstLeft st ->
    tick ps st st'
| tick_run (i : nat) :
    eligible ps (processBurstLeft st) (timestep st) i ->
    procs st' = procs st ->
    timestep st' = timestep st + 1 ->
    totalBurstTime st' = totalBurstTime st ->
    processBurstLeft st' =
      set_nth (processBurstLeft st) i (elem (processBurstLeft st) i - 1) ->
    tick ps st st'.

(** The loop ends with the timestep on the bound, and the bound is the
    original total burst plus an idle extension. *)
Definition ends_exhausted (ps : list Process) (st : Sim) : Prop :=
  timestep st = totalBurstTime st /\ total_burst ps <= totalBurstTime st.

(** The measure that every iteration of a preemptive simulation
    decreases: the work left, plus the time until the last arrival. *)
Definition fuel_left (ps : list Process) (st : Sim) : Z :=
  sumZ (processBurstLeft st) + Z.max 0 (max_arrival ps - timestep st).

(** The first [k] scanned candidates of [SJFSchedule]'s selection leave
    the accumulator either untouched, or on the first candidate of least
    remaining burst. *)
Definition sjf_selected (ps : list Process) (burstLeft : list Z) (t : Z)
  (k : nat) (acc : Z * Z) : Prop :=
  (fst acc = -1 /\ snd acc = INT_MAX /\
   forall i, (i < k)%nat -> eligible ps burstLeft t i ->
     INT_MAX <= elem burstLeft i)
  \/
  (exists j, (j < k)%nat /\ fst acc = Z.of_nat j /\
     snd acc = elem burstLeft j /\
     eligible ps burstLeft t j /\ elem burstLeft j < INT_MAX /\
     (forall i, (i < k)%nat -> eligible ps burstLeft t i ->
        elem burstLeft j <= elem burstLeft i) /\
     (forall i, (i < j)%nat -> eligible ps burstLeft t i ->
        elem burstLeft j < elem burstLeft i)).

(** The first [k] scanned candidates of [SJFPrioritySchedule]'s selection
    leave the accumulator untouched only if none of them is eligible. *)
Definition prio_selected (ps : list Process) (burstLeft : list Z) (t : Z)
  (k : nat) (acc : Z * Z * Z) : Prop :=
  (fst (fst acc) = -1 /\ snd acc = INT_MAX /\
   forall i, (i < k)%nat -> ~ eligible ps burstLeft t i)
  \/
  (exists j, (j < k)%nat /\ fst (fst acc) = Z.of_nat j /\
     eligible ps burstLeft t j).

(** The claim of termination: some number of iterations ends the loop of
    [SJFSchedule], with the bound exhausted. *)
Definition sjf_terminates_exhausted (ps : list Process) : Prop :=
  exists n st, SJF.loop n ps = Some st /\ ends_exhausted ps st.

(** Non-decreasing arrival times. *)
Definition arrival_le (p q : Process) : Prop :=
  ArrivalTime p <= ArrivalTime q.

(** What one run of the inner loop of the reordering (for the outer index
    [m], up to the inner index [J]) has made of [ps]. *)
Definition sort_inner_inv (m J : nat) (ps ps' : list Process) : Prop :=
  length ps' = length ps /\
  Permutation ps' ps /\
  (forall k, (k < m)%nat -> proc ps' k = proc ps k) /\
  (forall b, (m <= b < length ps)%nat ->
     exists c, (m <= c < length ps)%nat /\ proc ps' b = proc ps c) /\
  (forall b, (m <= b < J)%nat -> arrival_le (proc ps' m) (proc ps' b)).

(** The first [m] elements are in order and precede all later ones. *)
Definition sorted_prefix (m : nat) (ps : list Process) : Prop :=
  forall a b, (a < m)%nat -> (a < b < length ps)%nat ->
    arrival_le (proc ps a) (proc ps b).

(** What holds of the state of [RRSchedule] wherever its loops stand,
    [sorted] being the reordered slice the main loop started from: only
    the bursts have changed, and the bound is the timestep plus the work
    left. *)
Definition rr_inv (sorted : list Process) (st : RR.State) : Prop :=
  length (RR.procs st) = length sorted /\
  (forall i, (i < length sorted)%nat ->
     proc (RR.procs st) i =
       RR.set_burst (proc sorted i) (BurstDuration (proc (RR.procs st) i)) /\
     0 <= BurstDuration (proc (RR.procs st) i)
       <= BurstDuration (proc sorted i)) /\
  0 <= RR.timestep st /\
  RR.totalBurstTime st = RR.timestep st + total_burst (RR.procs st) /\
  RR.totalBurstTime st <= total_burst sorted + max_arrival sorted.

Definition rr_eligible (st : RR.State) (i : nat) : Prop :=
  ArrivalTime (proc (RR.procs st) i) <= RR.timestep st /\
  0 < BurstDuration (proc (RR.procs st) i).

Definition rr_fuel_left (sorted : list Process) (st : RR.State) : Z :=
  total_burst (RR.procs st)
  + Z.max 0 (max_arrival sorted - RR.timestep st).

(** The caller's slice once [RRSchedule] is done with it. *)
Definition spent (ps : list Process) : list Process :=
  map (fun p => RR.set_burst p 0) ps.

(** ** Statements about reports and timelines *)

(** No footer value of the report is a NaN. *)
Definition stats_defined (rep : Report) : bool :=
  negb (F64.is_nan (repWait rep))
  && negb (F64.is_nan (repTurnaround rep))
  && negb (F64.is_nan (repThroughput rep)).

(** Every footer value of the report is a NaN. *)
Definition stats_all_nan (rep : Report) : bool :=
  F64.is_nan (repWait rep)
  && F64.is_nan (repTurnaround rep)
  && F64.is_nan (repThroughput rep).

(** Every slice starts no earlier than its predecessor stops. *)
Fixpoint disjoint_slices (g : list TimeSlice) : bool :=
  match g with
  | s :: ((s' :: _) as rest) => (Stop s <=? Start s') && disjoint_slices rest
  | _ => true
  end.

(** Start times never decrease along the timeline. *)
Fixpoint starts_ordered (g : list TimeSlice) : bool :=
  match g with
  | s :: ((s' :: _) as rest) => (Start s <=? Start s') && starts_ordered rest
  | _ => true
  end.

(** Slices in order: none is empty and each stops no later than all
    its successors start. *)
Definition ordered_timeline (g : list TimeSlice) : Prop :=
  StronglySorted (fun s s' => Stop s <= Start s') g /\
  Forall (fun s => Start s < Stop s) g.

(** What holds of the timeline variables at the head of every iteration
    of a preemptive simulation. *)
Definition timeline_inv (st : Sim) : Prop :=
  ordered_timeline (gantt st) /\
  Forall (fun s => Stop s <= lastGantStartTime st) (gantt st) /\
  lastGantStartTime st <= timestep st /\
  (lastGantIndex st <> -1 -> lastGantStartTime st < timestep st) /\
  Int.min_int <= timestep st /\
  totalBurstTime st <= Int.max_int.

(** The row a preemptive simulation writes for process [p] that
    completes at time [exit]. *)
Definition row_of (p : Process) (exit : Z) : Row :=
  mkRow (ProcessID p) (Priority p) (BurstDuration p) (ArrivalTime p)
    (exit - ArrivalTime p - BurstDuration p) (exit - ArrivalTime p) exit.

(** What holds of the rows at the head of every iteration of a
    preemptive simulation: a row that is written is the row of its
    process, completed no earlier than arrival plus burst; a process
    without a row has work left. *)
Definition rows_inv (ps : list Process) (st : Sim) : Prop :=
  length (schedule st) = length ps /\
  forall i, (i < length ps)%nat ->
    match nth i (schedule st) None with
    | Some r =>
        exists exit, r = row_of (proc ps i) exit /\
          ArrivalTime (proc ps i) + BurstDuration (proc ps i) <= exit
            <= timestep st
    | None => 0 < elem (processBurstLeft st) i
    end.

(** Every process has its row, with a wait that is not negative and the
    data model's relations between wait, turnaround and completion. *)
Definition complete_rows (ps : list Process) (rows : list (option Row))
  : Prop :=
  length rows = length ps /\
  forall i, (i < length ps)%nat ->
    exists r, nth i rows None = Some r /\
      rowID r = ProcessID (proc ps i) /\
      rowBurst r = BurstDuration (proc ps i) /\
      rowArrival r = ArrivalTime (proc ps i) /\
      0 <= rowWait r /\
      rowTurnaround r = rowWait r + rowBurst r /\
      rowWait r = rowExit r - rowArrival r - rowBurst r /\
      rowTurnaround r = rowExit r - rowArrival r.

(** The relations that every row of [FCFSSchedule] satisfies, in the
    arithmetic of [int64]. *)
Definition fcfs_row (p : Process) (r : Row) : Prop :=
  rowBurst r = BurstDuration p /\
  rowArrival r = ArrivalTime p /\
  rowTurnaround r = Int.add (rowBurst r) (rowWait r) /\
  rowExit r = Int.add (Int.add (rowBurst r) (rowArrival r)) (rowWait r).

(** ** Inputs used in the statements below *)

(** Three processes arriving together (the specification's FCFS
    example). *)
Definition same_arrival : list Process :=
  [mkProcess 1 0 3 0; mkProcess 2 0 4 0; mkProcess 3 0 2 0].

(** The specification's SJF example. *)
Definition staggered : list Process :=
  [mkProcess 1 0 5 0; mkProcess 2 1 3 0; mkProcess 3 2 2 0].

(** A single process that arrives after time 0. *)
Definition late_arrival : list Process := [mkProcess 1 5 1 0].

(** Arrival times out of order, the last one 0. *)
Definition unordered : list Process :=
  [mkProcess 1 1 5 0; mkProcess 2 3 2 0; mkProcess 3 0 4 0].

(** Two processes of one priority; the second arrives while the first
    has 2 units left, and needs 4. *)
Definition same_priority : list Process :=
  [mkProcess 1 0 5 1; mkProcess 2 3 4 1].

(** A process whose burst equals the constant [INT_MAX]. *)
Definition long_burst : list Process := [mkProcess 1 0 INT_MAX 0].

(** A single process of burst 2. *)
Definition two_ticks : list Process := [mkProcess 1 0 2 0].

(** A gap with nothing to run between two processes. *)
Definition with_gap : list Process :=
  [mkProcess 1 0 1 0; mkProcess 2 5 2 0].

(** Two bursts whose sum exceeds the greatest [int]. *)
Definition overflowing : list Process :=
  [mkProcess 1 0 (2 ^ 62) 0; mkProcess 2 0 (2 ^ 62) 0].

(** ** Further statements about the selections *)

(** The first [k] scanned candidates of [SJFPrioritySchedule]'s selection
    leave the accumulator untouched, no candidate being eligible, or on
    an eligible candidate of the least priority value. *)
Definition prio_least (ps : list Process) (burstLeft : list Z) (t : Z)
  (k : nat) (acc : Z * Z * Z) : Prop :=
  (fst (fst acc) = -1 /\ snd acc = INT_MAX /\
   forall i, (i < k)%nat -> ~ eligible ps burstLeft t i)
  \/
  (exists j, (j < k)%nat /\ fst (fst acc) = Z.of_nat j /\
     eligible ps burstLeft t j /\ snd acc = Priority (proc ps j) /\
     forall i, (i < k)%nat -> eligible ps burstLeft t i ->
       Priority (proc ps j) <= Priority (proc ps i)).

(** Process [i] has not run: its remaining burst is whole and its row
    is not written. *)
Definition untouched (ps : list Process) (i : nat) (st : Sim) : Prop :=
  elem (processBurstLeft st) i = BurstDuration (proc ps i) /\
  nth i (schedule st) None = None.

(** The first [k] scanned candidates of [SJFPrioritySchedule]'s selection
    leave the running least priority at or below its initial value, and
    it is the priority of the candidate selected. *)
Definition prio_bounded (ps : list Process) (k : nat) (acc : Z * Z * Z)
  : Prop :=
  snd acc <= INT_MAX /\
  (fst (fst acc) = -1 \/
   exists j, (j < k)%nat /\ fst (fst acc) = Z.of_nat j /\
     Priority (proc ps j) = snd acc).

(** A process of a priority value above the constant [INT_MAX], beside
    one of priority 1. *)
Definition high_priority : list Process :=
  [mkProcess 1 0 2 (INT_MAX + 1); mkProcess 2 0 1 1].

(** A burst of the constant [INT_MAX], beside one of 1. *)
Definition long_and_short : list Process :=
  [mkProcess 1 0 INT_MAX 0; mkProcess 2 0 1 0].

(** ** Further statements about timelines *)

(** The length so far of the slice that is open, if one is. *)
Definition open_slice (st : Sim) : Z :=
  if lastGantIndex st =? -1 then 0
  else timestep st - lastGantStartTime st.

(** What holds of the timeline of [SJFSchedule] at the head of every
    iteration: the closed slices and the open one account for the work
    done, and once the loop has stopped the open slice is the last
    timestep alone. *)
Definition charted (ps : list Process) (st : Sim) : Prop :=
  total_duration (gantt st) + open_slice st
    = total_burst ps - sumZ (processBurstLeft st) /\
  (running st = false -> open_slice st = 1).

(** Every slice starts where its predecessor stops. *)
Fixpoint contiguous (g : list TimeSlice) : Prop :=
  match g with
  | s :: ((s' :: _) as rest) => Stop s = Start s' /\ contiguous rest
  | _ => True
  end.

(** What holds of the timeline of [SJFPrioritySchedule] at the head of
    every iteration: the slices are contiguous, and once there is one a
    slice is open from the stop of the last. *)
Definition joined (st : Sim) : Prop :=
  contiguous (gantt st) /\
  (gantt st <> [] ->
   lastGantIndex st <> -1 /\
   Stop (last (gantt st) noSlice) = lastGantStartTime st).

(** ** Further statements about [FCFSSchedule] *)

(** The sum of the bursts of the processes before the [i]-th. *)
Definition burst_before (ps : list Process) (i : nat) : Z :=
  total_burst (firstn i ps).

(** Every process but the first has a positive arrival time. *)
Definition later_arrivals (ps : list Process) : Prop :=
  forall i, (0 < i < length ps)%nat -> 0 < ArrivalTime (proc ps i).

(** The row and the slice of the [i]-th process when the processes are
    served back to back in input order from time 0. *)
Definition back_to_back_row (ps : list Process) (i : nat) : Row :=
  let p := proc ps i in
  mkRow (ProcessID p) (Priority p) (BurstDuration p) (ArrivalTime p)
    (burst_before ps i - ArrivalTime p)
    (burst_before ps i - ArrivalTime p + BurstDuration p)
    (burst_before ps i + BurstDuration p).

Definition back_to_back_slice (ps : list Process) (i : nat) : TimeSlice :=
  mkTimeSlice (ProcessID (proc ps i)) (burst_before ps i)
    (burst_before ps (S i)).

(** ** Further statements about [RRSchedule] *)

(** The timestep after the last one a simulation of [ps] can reach is
    representable: [RRSchedule] records it as a completion time. *)
Definition fits_exit (ps : list Process) : Prop :=
  total_burst ps + max_arrival ps < Int.max_int.

(** A slice of one timestep, not before time 0 and over by [t]. *)
Definition unit_slice (t : Z) (s : TimeSlice) : Prop :=
  Stop s = Start s + 1 /\ 0 <= Start s /\ Stop s <= t.

(** What holds of the timeline and the rows of [RRSchedule] wherever its
    loops stand: the slices are single timesteps in order, one for each
    unit of work done; a row that is written records as its completion
    one more than the stop of a slice of its process, which is no
    earlier than the process's arrival plus the work it has done; and a
    process without a row has not run. *)
Definition rr_chart (sorted : list Process) (st : RR.State) : Prop :=
  RR.processBurstInit st = map BurstDuration sorted /\
  length (RR.schedule st) = length sorted /\
  Forall (unit_slice (RR.timestep st)) (RR.gantt st) /\
  StronglySorted (fun s s' => Stop s <= Start s') (RR.gantt st) /\
  Z.of_nat (length (RR.gantt st))
    = total_burst sorted - total_burst (RR.procs st) /\
  forall i, (i < length sorted)%nat ->
    match nth i (RR.schedule st) None with
    | Some r =>
        exists s, In s (RR.gantt st) /\
          PID s = ProcessID (proc sorted i) /\
          r = row_of (proc sorted i) (Stop s + 1) /\
          ArrivalTime (proc sorted i)
            + (BurstDuration (proc sorted i)
               - BurstDuration (proc (RR.procs st) i)) <= Stop s
    | None =>
        BurstDuration (proc (RR.procs st) i) = BurstDuration (proc sorted i)
    end.

(** The timeline of a finished round robin over [ps]. *)
Definition rr_timeline (ps : list Process) (g : list TimeSlice) : Prop :=
  Forall (fun s => Stop s = Start s + 1 /\ 0 <= Start s) g /\
  StronglySorted (fun s s' => Stop s <= Start s') g /\
  Z.of_nat (length g) = total_burst ps /\
  total_duration g = total_burst ps.

(** The rows of a finished round robin over the reordered slice
    [sorted], beside its timeline [g]: every process has its row, whose
    completion is one more than the stop of a slice of that process. *)
Definition rr_rows (sorted : list Process) (g : list TimeSlice)
  (rows : list (option Row)) : Prop :=
  length rows = length sorted /\
  forall i, (i < length sorted)%nat ->
    exists s r, In s g /\ PID s = ProcessID (proc sorted i) /\
      nth i rows None = Some r /\
      r = row_of (proc sorted i) (Stop s + 1) /\
      1 <= rowWait r.

(** ** The input and output helpers

    How a call ends: it returns, it panics (an index out of range, a
    negative repeat count), or it ends the program with a status. *)
Inductive Outcome (A : Type) : Type :=
| Done (a : A)
| Panics
| Exits (status : Z).

Arguments Done {A} a.
Arguments Panics {A}.
Arguments Exits {A} status.

Definition bind {A B : Type} (m : Outcome A) (f : A -> Outcome B)
  : Outcome B :=
  match m with
  | Done a => f a
  | Panics => Panics
  | Exits status => Exits status
  end.

Notation "x <- m ;; k" := (bind m (fun x => k))
  (at level 61, m at next level, right associativity).

(** *** Loading processes (main.go, lines 438-465) *)

Module Load.

Import String.

Section WithParseInt.

(** [strconv.ParseInt(s, 10, 64)]: the value, when the error is nil. *)
Variable ParseInt : string -> option Z.

(** [rows[i][k]]: an index past the end of the slice panics. *)
Definition field (row : list string) (k : nat) : Outcome string :=
  match nth_error row k with
  | Some s => Done s
  | None => Panics
  end.

(** Lines 457-465 (the error is also written to standard error). *)
Definition mustStrToInt (s : string) : Outcome Z :=
  match ParseInt s with
  | Some i => Done i
  | None => Exits 1
  end.

(** Lines 447-452, one value of [i]: the fields are read in the order
    ProcessID, BurstDuration, ArrivalTime, and Priority keeps the zero
    value of [make] unless the row has exactly four fields. *)
Definition loadRow (row : list string) : Outcome Process :=
  s0 <- field row 0 ;;
  id <- mustStrToInt s0 ;;
  s1 <- field row 1 ;;
  burst <- mustStrToInt s1 ;;
  s2 <- field row 2 ;;
  arrival <- mustStrToInt s2 ;;
  if (List.length row =? 4)%nat then
    s3 <- field row 3 ;;
    priority <- mustStrToInt s3 ;;
    Done (mkProcess id arrival burst priority)
  else Done (mkProcess id arrival burst 0).

(** Lines 445-453. *)
Fixpoint loadRows (rows : list (list string)) : Outcome (list Process) :=
  match rows with
  | [] => Done []
  | row :: rest =>
      p <- loadRow row ;;
      ps <- loadRows rest ;;
      Done (p :: ps)
  end.

(** Lines 438-455; [read] is what [csv.NewReader(r).ReadAll()] returned,
    an error being given by its message. *)
Definition loadProcesses (read : list (list string) + string)
  : Outcome (list Process + string) :=
  match read with
  | inr err => Done (inr (err ++ ": reading CSV")%string)
  | inl rows => ps <- loadRows rows ;; Done (inl ps)
  end.

(** The row has the three fields ProcessID, BurstDuration, ArrivalTime,
    in this order, which parse to those of [p]; the priority of [p] is
    the fourth field of a row of exactly four, and 0 otherwise. *)
Definition loads (row : list string) (p : Process) : Prop :=
  exists f0 f1 f2 rest,
    row = f0 :: f1 :: f2 :: rest /\
    ParseInt f0 = Some (ProcessID p) /\
    ParseInt f1 = Some (BurstDuration p) /\
    ParseInt f2 = Some (ArrivalTime p) /\
    match rest with
    | [f3] => ParseInt f3 = Some (Priority p)
    | _ => Priority p = 0
    end.

Definition too_short (row : list string) : Prop :=
  (List.length row < 3)%nat.

Definition unparsable (row : list string) : Prop :=
  List.Exists (fun f => ParseInt f = None) row.

End WithParseInt.

End Load.

(** *** The chart (main.go, lines 402-418) *)

Module Output.

Import String.

Definition newline : string := String (Ascii.ascii_of_nat 10) EmptyString.
Definition tab : string := String (Ascii.ascii_of_nat 9) EmptyString.

Fixpoint copies (n : nat) (s : string) : string :=
  match n with
  | O => EmptyString
  | S n' => (s ++ copies n' s)%string
  end.

(** Lines 403-404: what is written before the cells. *)
Definition header : string := ("Gantt schedule" ++ newline ++ "|")%string.

(** [strings.Repeat]: it panics when the count is negative. *)
Definition Repeat (s : string) (count : Z) : Outcome string :=
  if count <? 0 then Panics else Done (copies (Z.to_nat count) s).

Section WithSprint.

(** [fmt.Sprint] of an [int64]. *)
Variable Sprint : Z -> string.

(** Lines 406-408, one value of [i]: the text of one cell; the division
    of [int] truncates towards zero. *)
Definition cell (s : TimeSlice) : Outcome string :=
  let pid := Sprint (PID s) in
  padding <- Repeat " " (Z.quot (8 - Z.of_nat (String.length pid)) 2) ;;
  Done (padding ++ pid ++ padding ++ "|")%string.

(** Lines 405-409: what has been written to [w] when the loop is left,
    and how it is left. *)
Fixpoint cells (w : string) (g : list TimeSlice) : string * Outcome unit :=
  match g with
  | [] => (w, Done tt)
  | s :: rest =>
      match cell s with
      | Done c => cells (w ++ c) rest
      | Panics => (w, Panics)
      | Exits status => (w, Exits status)
      end
  end.

(** Lines 411-416: every start time, and the stop time of the last
    slice alone. *)
Fixpoint times (g : list TimeSlice) : string :=
  match g with
  | [] => EmptyString
  | s :: rest =>
      (Sprint (Start s) ++ tab
       ++ (match rest with [] => Sprint (Stop s) | _ => EmptyString end)
       ++ times rest)%string
  end.

(** Lines 402-418; [w] is what was written to the writer before the
    call. *)
Definition outputGantt (w : string) (g : list TimeSlice)
  : string * Outcome unit :=
  match cells (w ++ header)%string g with
  | (w', Done _) =>
      ((w' ++ newline ++ times g ++ newline ++ newline)%string, Done tt)
  | r => r
  end.

(** The identifier prints in ten bytes or more. *)
Definition wide (s : TimeSlice) : Prop :=
  (10 <= String.length (Sprint (PID s)))%nat.

End WithSprint.

(** The decimal digit of a number from 0 to 9, for the examples. *)
Definition digit (z : Z) : string :=
  String (Ascii.ascii_of_nat (48 + Z.to_nat z)) EmptyString.

End Output.

(** *** The end of a scheduler call (main.go, lines 125-127, 227-229,
    315-317 and 386-388)

    Every scheduler ends with [outputTitle], then [outputGantt] on the
    timeline, then [outputSchedule] on the rows and the footer values.
    [outputGantt] can panic, and [outputSchedule] is then not reached:
    [handed_over] is how the call goes on from a report up to the call
    of [outputSchedule], [w] being what is on the writer after
    [outputTitle]. *)
Definition handed_over (Sprint : Z -> String.string) (w : String.string)
  (rep : Report) : Outcome Report :=
  match snd (Output.outputGantt Sprint w (repGantt rep)) with
  | Done _ => Done rep
  | Panics => Panics
  | Exits status => Exits status
  end.

(** No identifier of [ps] prints in ten bytes or more. *)
Definition narrow_ids (Sprint : Z -> String.string) (ps : list Process)
  : Prop :=
  Forall (fun p => (String.length (Sprint (ProcessID p)) < 10)%nat) ps.

(** Every slice carries the identifier of a process of [ps]. *)
Definition known_pids (ps : list Process) (g : list TimeSlice) : Prop :=
  Forall (fun s => In (PID s) (map ProcessID ps)) g.

(** What holds of the timeline variables of a preemptive simulation of
    [ps] at the head of every iteration: the slices carry identifiers of
    [ps], and the open slice, if any, belongs to a process of [ps]. *)
Definition pids_inv (ps : list Process) (st : Sim) : Prop :=
  procs st = ps /\
  known_pids ps (gantt st) /\
  (lastGantIndex st = -1 \/
   exists j, (j < length ps)%nat /\ lastGantIndex st = Z.of_nat j).

(** The same for [RRSchedule], whose slice keeps its identifiers. *)
Definition rr_pids (sorted : list Process) (st : RR.State) : Prop :=
  map ProcessID (RR.procs st) = map ProcessID sorted /\
  known_pids sorted (RR.gantt st).

(** * Proofs *)

(** ** Machine integers and slices *)

Lemma wrap_id (z : Z) : Int.in_range z -> Int.wrap z = z.
Proof.
  unfold Int.in_range, Int.min_int, Int.max_int, Int.wrap. intros H.
  rewrite Z.mod_small; lia.
Qed.

(** Closes a goal that an integer is in range, or any linear goal
    about the bounds. *)
Ltac int_range :=
  unfold Int.in_range, Int.min_int, Int.max_int in *; lia.

Lemma add_id (a b : Z) : Int.in_range (a + b) -> Int.add a b = a + b.
Proof. apply wrap_id. Qed.

Lemma sub_id (a b : Z) : Int.in_range (a - b) -> Int.sub a b = a - b.
Proof. apply wrap_id. Qed.

Lemma length_set_nth {A : Type} (l : list A) (i : nat) (x : A) :
  length (set_nth l i x) = length l.
Proof.
  revert i. induction l as [|h t IH]; intros [|i]; simpl; auto.
Qed.

Lemma nth_set_nth_eq {A : Type} (l : list A) (i : nat) (x d : A) :
  (i < length l)%nat -> nth i (set_nth l i x) d = x.
Proof.
  revert i. induction l as [|h t IH]; intros [|i]; simpl; intros H;
    try lia; auto. apply IH. lia.
Qed.

Lemma nth_set_nth_neq {A : Type} (l : list A) (i j : nat) (x d : A) :
  i <> j -> nth j (set_nth l i x) d = nth j l d.
Proof.
  revert i j. induction l as [|h t IH]; intros [|i] [|j] H; simpl; auto.
  - contradiction.
Qed.

Lemma sumZ_set_nth (l : list Z) (i : nat) (x : Z) :
  (i < length l)%nat -> sumZ (set_nth l i x) = sumZ l - elem l i + x.
Proof.
  unfold elem, sumZ.
  revert i. induction l as [|h t IH]; intros [|i]; simpl; intros H; try lia.
  rewrite IH by lia. lia.
Qed.

(** ** Loops *)

Lemma while_iter {S : Type} (cond : S -> bool) (body : S -> S) (n : nat)
  (s : S) :
  (forall k, (k < n)%nat -> cond (Nat.iter k body s) = true) ->
  cond (Nat.iter n body s) = false ->
  while cond body n s = Some (Nat.iter n body s).
Proof.
  revert s. induction n as [|n IH]; intros s Hrun Hstop.
  - simpl in *. now rewrite Hstop.
  - cbn [while]. assert (H0 := Hrun 0%nat ltac:(lia)). simpl in H0. rewrite H0.
    rewrite Nat.iter_succ_r. apply IH.
    + intros k Hk. rewrite <- Nat.iter_succ_r. apply Hrun. lia.
    + rewrite <- Nat.iter_succ_r. exact Hstop.
Qed.

Lemma while_invariant {S : Type} (P : S -> Prop) (cond : S -> bool)
  (body : S -> S) :
  (forall s, P s -> cond s = true -> P (body s)) ->
  forall fuel s s', P s -> while cond body fuel s = Some s' ->
    P s' /\ cond s' = false.
Proof.
  intros Hstep fuel. induction fuel as [|f IH]; intros s s' Hs Hw; simpl in Hw.
  - destruct (cond s) eqn:E; [discriminate|]. injection Hw as <-. auto.
  - destruct (cond s) eqn:E.
    + apply (IH (body s)); auto.
    + injection Hw as <-. auto.
Qed.

(** The result of a loop does not depend on the fuel that sufficed. *)
Lemma while_unique {A : Type} (cond : A -> bool) (body : A -> A)
  (n m : nat) (s a b : A) :
  while cond body n s = Some a -> while cond body m s = Some b -> a = b.
Proof.
  revert m s. induction n as [|n IH]; intros [|m] s; simpl;
    destruct (cond s); try congruence. apply IH.
Qed.

(** ** Sums and maxima *)

Lemma sumZ_nonneg (l : list Z) :
  (forall i, (i < length l)%nat -> 0 <= elem l i) -> 0 <= sumZ l.
Proof.
  unfold elem, sumZ. induction l as [|h t IH]; simpl; intros H; [lia|].
  assert (0 <= h) by (apply (H 0%nat); lia).
  assert (0 <= fold_right Z.add 0 t)
    by (apply IH; intros i Hi; apply (H (S i)); lia).
  lia.
Qed.

Lemma sumZ_zero (l : list Z) :
  (forall i, (i < length l)%nat -> 0 <= elem l i) -> sumZ l <= 0 ->
  forall i, (i < length l)%nat -> elem l i = 0.
Proof.
  unfold elem, sumZ. induction l as [|h t IH]; simpl; intros H Hs i Hi; [lia|].
  assert (0 <= h) by (apply (H 0%nat); lia).
  assert (Ht : forall j, (j < length t)%nat -> 0 <= nth j t 0)
    by (intros j Hj; apply (H (S j)); lia).
  assert (0 <= fold_right Z.add 0 t) by (apply (sumZ_nonneg t); exact Ht).
  destruct i as [|i]; [lia|]. apply IH; auto; lia.
Qed.

Lemma sumZ_positive (l : list Z) :
  (forall i, (i < length l)%nat -> 0 <= elem l i) -> 0 < sumZ l ->
  exists i, (i < length l)%nat /\ 0 < elem l i.
Proof.
  unfold elem, sumZ. induction l as [|h t IH]; simpl; intros H Hs; [lia|].
  destruct (Z_lt_le_dec 0 h) as [Hh|Hh].
  - exists 0%nat. split; [lia|exact Hh].
  - assert (0 <= h) by (apply (H 0%nat); lia).
    destruct IH as [i [Hi Hp]].
    + intros j Hj. apply (H (S j)). lia.
    + lia.
    + exists (S i). split; [lia|exact Hp].
Qed.

Lemma max_arrival_nonneg (ps : list Process) : 0 <= max_arrival ps.
Proof. unfold max_arrival. induction ps; simpl; lia. Qed.

Lemma max_arrival_ge (ps : list Process) (i : nat) :
  (i < length ps)%nat -> ArrivalTime (proc ps i) <= max_arrival ps.
Proof.
  unfold max_arrival, proc. revert i.
  induction ps as [|p ps IH]; simpl; intros [|i] Hi; try lia.
  specialize (IH i ltac:(lia)). lia.
Qed.

Lemma total_burst_nonneg (ps : list Process) :
  well_formed ps -> 0 <= total_burst ps.
Proof.
  unfold well_formed, total_burst, sumZ.
  induction 1 as [|p ps [_ Hb] _ IH]; simpl; lia.
Qed.

Lemma well_formed_proc (ps : list Process) (i : nat) :
  well_formed ps -> (i < length ps)%nat ->
  0 <= ArrivalTime (proc ps i) /\ 0 < BurstDuration (proc ps i).
Proof.
  unfold well_formed, proc. intros H Hi.
  rewrite Forall_forall in H. apply H. now apply nth_In.
Qed.

Lemma elem_map_burst (ps : list Process) (i : nat) :
  (i < length ps)%nat ->
  elem (map BurstDuration ps) i = BurstDuration (proc ps i).
Proof.
  intros Hi. unfold elem, proc.
  change 0 with (BurstDuration noProcess). apply map_nth.
Qed.

(** The accumulation of [totalBurstTime] does not wrap on an input that
    fits. *)
Lemma fold_add_bursts (ps : list Process) (acc : Z) :
  well_formed ps -> 0 <= acc -> acc + total_burst ps <= Int.max_int ->
  fold_left (fun a p => Int.add a (BurstDuration p)) ps acc
  = acc + total_burst ps.
Proof.
  unfold total_burst, sumZ. intros Hwf. revert acc.
  induction Hwf as [|p ps [_ Hb] Hwf IH]; simpl; intros acc Ha Hs; [lia|].
  assert (0 <= fold_right Z.add 0 (map BurstDuration ps))
    by (apply (total_burst_nonneg ps Hwf)).
  rewrite add_id.
  - rewrite IH; lia.
  - int_range.
Qed.

Lemma elem_le_sumZ (l : list Z) (i : nat) :
  (forall j, (j < length l)%nat -> 0 <= elem l j) ->
  (i < length l)%nat -> elem l i <= sumZ l.
Proof.
  unfold elem, sumZ. revert i.
  induction l as [|h t IH]; simpl; intros i H Hi; [lia|].
  assert (0 <= h) by (apply (H 0%nat); lia).
  assert (Ht : forall j, (j < length t)%nat -> 0 <= nth j t 0)
    by (intros j Hj; apply (H (S j)); lia).
  assert (0 <= fold_right Z.add 0 t) by (apply (sumZ_nonneg t); exact Ht).
  destruct i as [|i]; [lia|]. specialize (IH i Ht ltac:(lia)). lia.
Qed.

Lemma sumZ_le_bursts (ps : list Process) (l : list Z) :
  length l = length ps ->
  (forall i, (i < length ps)%nat -> elem l i <= BurstDuration (proc ps i)) ->
  sumZ l <= total_burst ps.
Proof.
  unfold elem, proc, total_burst, sumZ. revert l.
  induction ps as [|p ps IH]; intros [|h t] Hlen H; simpl in *; try lia.
  assert (h <= BurstDuration p) by (apply (H 0%nat); lia).
  assert (fold_right Z.add 0 t <= fold_right Z.add 0 (map BurstDuration ps)).
  { apply IH; [lia|]. intros i Hi. apply (H (S i)). lia. }
  lia.
Qed.

(** ** One iteration of a preemptive simulation *)

Section Ticks.

Variable ps : list Process.
Hypothesis Hfits : fits ps.

Lemma inv_left_nonneg (st : Sim) :
  sim_inv ps st ->
  forall j, (j < length (processBurstLeft st))%nat ->
    0 <= elem (processBurstLeft st) j.
Proof.
  intros I j Hj. rewrite (inv_length _ _ I) in Hj.
  apply (inv_left _ _ I j Hj).
Qed.

Lemma inv_work_left (st : Sim) :
  sim_inv ps st -> running st = true -> 0 < sumZ (processBurstLeft st).
Proof.
  intros I Hrun. unfold running in Hrun. apply Z.ltb_lt in Hrun.
  rewrite (inv_total _ _ I) in Hrun. lia.
Qed.

Lemma inv_in_range (st : Sim) :
  sim_inv ps st ->
  0 <= timestep st /\ totalBurstTime st <= Int.max_int /\
  0 <= sumZ (processBurstLeft st) /\
  timestep st <= totalBurstTime st.
Proof.
  intros I.
  assert (H0 := sumZ_nonneg _ (inv_left_nonneg st I)).
  assert (H1 := inv_bound _ _ I). assert (H2 := inv_total _ _ I).
  assert (H3 := inv_time _ _ I). unfold fits in Hfits. lia.
Qed.

(** An idle tick leaves room under the bound: some unfinished process
    arrives later. *)
Lemma idle_room (st : Sim) :
  sim_inv ps st -> running st = true ->
  (forall i, ~ eligible ps (processBurstLeft st) (timestep st) i) ->
  timestep st < max_arrival ps /\
  totalBurstTime st + 1 <= total_burst ps + max_arrival ps.
Proof.
  intros I Hrun Hnone.
  destruct (sumZ_positive _ (inv_left_nonneg st I) (inv_work_left st I Hrun))
    as [i [Hi Hpos]].
  rewrite (inv_length _ _ I) in Hi.
  assert (Hlate : timestep st < ArrivalTime (proc ps i)).
  { destruct (Z_lt_le_dec (timestep st) (ArrivalTime (proc ps i))); auto.
    exfalso. apply (Hnone i). repeat split; auto. }
  assert (Hmax := max_arrival_ge ps i Hi).
  assert (Hsum : sumZ (processBurstLeft st) <= total_burst ps).
  { apply sumZ_le_bursts; [apply (inv_length _ _ I)|].
    intros j Hj. apply (inv_left _ _ I j Hj). }
  rewrite (inv_total _ _ I). lia.
Qed.

Lemma tick_inv (st st' : Sim) :
  sim_inv ps st -> running st = true -> tick ps st st' -> sim_inv ps st'.
Proof.
  intros I Hrun T. destruct (inv_in_range st I) as [Ht [Hmax [Hsum Hle]]].
  assert (Hlen := inv_length _ _ I). assert (Htotal := inv_total _ _ I).
  assert (Hgrown := inv_grown _ _ I). assert (Hbound := inv_bound _ _ I).
  destruct T as [Hnone Hp Htime Htot Hleft
                |i [Hi [Hpos Harr]] Hp Htime Htot Hleft].
  - destruct (idle_room st I Hrun Hnone) as [_ Hroom].
    constructor; rewrite ?Hp, ?Htime, ?Htot, ?Hleft;
      try solve [apply I | lia].
    intros j Hj. assert (Hj' := inv_progress _ _ I j Hj). lia.
  - assert (Hset : forall j, (j < length ps)%nat ->
              elem (set_nth (processBurstLeft st) i
                      (elem (processBurstLeft st) i - 1)) j
              = if Nat.eqb j i then elem (processBurstLeft st) i - 1
                else elem (processBurstLeft st) j).
    { intros j Hj. unfold elem. destruct (Nat.eqb_spec j i) as [->|Hne].
      - now rewrite nth_set_nth_eq by lia.
      - now rewrite nth_set_nth_neq by auto. }
    constructor; rewrite ?Hp, ?Htime, ?Htot, ?Hleft;
      try solve [apply I | lia].
    + now rewrite length_set_nth.
    + intros j Hj. assert (Hj' := inv_left _ _ I j Hj).
      rewrite (Hset j Hj). destruct (Nat.eqb_spec j i) as [->|Hne]; lia.
    + intros j Hj. assert (Hj' := inv_progress _ _ I j Hj).
      rewrite (Hset j Hj). destruct (Nat.eqb_spec j i) as [->|Hne]; lia.
    + rewrite sumZ_set_nth by lia. lia.
Qed.

Lemma tick_decreases (st st' : Sim) :
  sim_inv ps st -> running st = true -> tick ps st st' ->
  fuel_left ps st' < fuel_left ps st.
Proof.
  intros I Hrun T. unfold fuel_left.
  destruct T as [Hnone Hp Htime Htot Hleft
                |i [Hi [Hpos Harr]] Hp Htime Htot Hleft].
  - destruct (idle_room st I Hrun Hnone) as [Hlate _].
    rewrite Htime, Hleft. lia.
  - rewrite Htime, Hleft, sumZ_set_nth by (rewrite (inv_length _ _ I); lia).
    lia.
Qed.

Variable body : Sim -> Sim.
Hypothesis Hbody :
  forall st, sim_inv ps st -> running st = true -> tick ps st (body st).

Lemma ticks_terminate (m : nat) (st : Sim) :
  sim_inv ps st -> fuel_left ps st <= Z.of_nat m ->
  exists n,
    (forall k, (k < n)%nat -> running (Nat.iter k body st) = true) /\
    running (Nat.iter n body st) = false /\
    (forall k, (k <= n)%nat -> sim_inv ps (Nat.iter k body st)).
Proof.
  revert st. induction m as [|m IH]; intros st I Hm;
    destruct (running st) eqn:Hrun.
  - exfalso. assert (H := inv_work_left st I Hrun). unfold fuel_left in Hm. lia.
  - exists 0%nat. split; [intros k Hk; lia|]. split; [exact Hrun|].
    intros k Hk. replace k with 0%nat by lia. exact I.
  - assert (T := Hbody st I Hrun).
    destruct (IH (body st)) as [n [Hn1 [Hn2 Hn3]]].
    + apply (tick_inv st); auto.
    + assert (H := tick_decreases st (body st) I Hrun T). lia.
    + exists (S n). split; [|split].
      * intros [|k] Hk; [exact Hrun|]. rewrite Nat.iter_succ_r. apply Hn1. lia.
      * rewrite Nat.iter_succ_r. exact Hn2.
      * intros [|k] Hk; [exact I|]. rewrite Nat.iter_succ_r. apply Hn3. lia.
  - exists 0%nat. split; [intros k Hk; lia|]. split; [exact Hrun|].
    intros k Hk. replace k with 0%nat by lia. exact I.
Qed.

End Ticks.

(** ** The selection of [SJFSchedule] *)

Lemma sjf_scan_selected (ps : list Process) (burstLeft : list Z) (t : Z)
  (k : nat) (acc : Z * Z) :
  (k < length ps)%nat ->
  sjf_selected ps burstLeft t k acc ->
  sjf_selected ps burstLeft t (S k) (SJF.scan ps burstLeft t acc k).
Proof.
  intros Hk H. unfold SJF.scan.
  assert (Hnew : forall i, (i < S k)%nat -> i = k \/ (i < k)%nat) by lia.
  destruct (Z.leb_spec (elem burstLeft k) 0) as [Hz|Hz];
    [|destruct (Z.ltb_spec t (ArrivalTime (proc ps k))) as [Ha|Ha];
      [|destruct (Z.leb_spec (snd acc) (elem burstLeft k)) as [Hb|Hb]]].
  1, 2: destruct H as [[H1 [H2 H3]]|[j [Hj [H1 [H2 [H4 [H5 [H6 H7]]]]]]]];
    [left; repeat split; auto; intros i Hi He;
       destruct (Hnew i Hi) as [->|Hi']; auto;
       destruct He as [_ [? ?]]; lia
    |right; exists j; repeat (split; [solve [auto|lia]|]); split; auto;
       intros i Hi He; destruct (Hnew i Hi) as [->|Hi']; auto;
       destruct He as [_ [? ?]]; lia].
  - destruct H as [[H1 [H2 H3]]|[j [Hj [H1 [H2 [H4 [H5 [H6 H7]]]]]]]].
    + left. repeat split; auto. intros i Hi He.
      destruct (Hnew i Hi) as [->|Hi']; auto. lia.
    + right. exists j. repeat (split; [solve [auto|lia]|]). split; auto.
      intros i Hi He. destruct (Hnew i Hi) as [->|Hi']; auto. lia.
  - right. exists k. simpl.
    assert (He : eligible ps burstLeft t k) by (repeat split; auto; lia).
    destruct H as [[H1 [H2 H3]]|[j [Hj [H1 [H2 [H4 [H5 [H6 H7]]]]]]]].
    + repeat (split; [solve [auto|lia]|]). split.
      * intros i Hi He'. destruct (Hnew i Hi) as [->|Hi']; [lia|].
        specialize (H3 i Hi' He'). lia.
      * intros i Hi He'. specialize (H3 i Hi He'). lia.
    + repeat (split; [solve [auto|lia]|]). split.
      * intros i Hi He'. destruct (Hnew i Hi) as [->|Hi']; [lia|].
        specialize (H6 i Hi' He'). lia.
      * intros i Hi He'. specialize (H6 i Hi He'). lia.
Qed.

Lemma sjf_fold_selected (ps : list Process) (burstLeft : list Z) (t : Z)
  (k : nat) :
  (k <= length ps)%nat ->
  sjf_selected ps burstLeft t k
    (fold_left (SJF.scan ps burstLeft t) (seq 0 k) (-1, INT_MAX)).
Proof.
  induction k as [|k IH]; intros Hk.
  - left. simpl. repeat split; auto. intros i Hi. lia.
  - rewrite seq_S, fold_left_app. simpl.
    apply sjf_scan_selected; [lia|]. apply IH. lia.
Qed.

(** The process [SJFSchedule] selects, when it selects one, is eligible,
    has the least remaining burst of the eligible processes, and is the
    first such in scan order; it selects none only if every eligible
    process has a remaining burst of [INT_MAX] or more. *)
Lemma sjf_select_spec (st : Sim) :
  sjf_selected (procs st) (processBurstLeft st) (timestep st)
    (length (procs st)) (SJF.select st).
Proof. unfold SJF.select. apply sjf_fold_selected. lia. Qed.

(** ** The shared steps on the loop variables *)

Lemma gantt_step_core (st : Sim) (idx : Z) :
  procs (gantt_step st idx) = procs st /\
  timestep (gantt_step st idx) = timestep st /\
  totalBurstTime (gantt_step st idx) = totalBurstTime st /\
  processBurstLeft (gantt_step st idx) = processBurstLeft st.
Proof.
  unfold gantt_step.
  destruct (negb (lastGantIndex st =? idx)
            || (timestep st =? Int.sub (totalBurstTime st) 1)); simpl; auto.
Qed.

Lemma run_step_core (st : Sim) (idx : Z) :
  procs (run_step st idx) = procs st /\
  timestep (run_step st idx) = Int.add (timestep st) 1 /\
  totalBurstTime (run_step st idx) = totalBurstTime st /\
  processBurstLeft (run_step st idx) =
    set_nth (processBurstLeft st) (Z.to_nat idx)
      (Int.sub (elem (processBurstLeft st) (Z.to_nat idx)) 1).
Proof.
  unfold run_step.
  destruct (elem _ (Z.to_nat idx) =? 0); simpl; auto.
Qed.

Section Steps.

Variable ps : list Process.
Hypothesis Hfits : fits ps.

Lemma idle_step_tick (st st1 : Sim) :
  sim_inv ps st -> running st = true ->
  procs st1 = procs st -> timestep st1 = timestep st ->
  totalBurstTime st1 = totalBurstTime st ->
  processBurstLeft st1 = processBurstLeft st ->
  (forall i, ~ eligible ps (processBurstLeft st) (timestep st) i) ->
  tick ps st (idle_step st1).
Proof.
  intros I Hrun Hp Ht Htot Hl Hnone.
  destruct (inv_in_range ps Hfits st I) as [H0 [Hmax [Hsum Hle]]].
  destruct (idle_room ps st I Hrun Hnone) as [_ Hroom].
  unfold running in Hrun. apply Z.ltb_lt in Hrun.
  unfold fits in Hfits.
  apply tick_idle; auto; simpl; rewrite ?Ht, ?Htot; auto.
  - apply add_id. int_range.
  - apply add_id. int_range.
Qed.

Lemma run_step_tick (st st1 : Sim) (i : nat) :
  sim_inv ps st -> running st = true ->
  procs st1 = procs st -> timestep st1 = timestep st ->
  totalBurstTime st1 = totalBurstTime st ->
  processBurstLeft st1 = processBurstLeft st ->
  eligible ps (processBurstLeft st) (timestep st) i ->
  tick ps st (run_step st1 (Z.of_nat i)).
Proof.
  intros I Hrun Hp Ht Htot Hl He.
  destruct (inv_in_range ps Hfits st I) as [H0 [Hmax [Hsum Hle]]].
  unfold running in Hrun. apply Z.ltb_lt in Hrun.
  destruct (run_step_core st1 (Z.of_nat i)) as [Rp [Rt [Rtot Rl]]].
  rewrite Nat2Z.id in Rl.
  assert (Hi : (i < length (processBurstLeft st))%nat)
    by (rewrite (inv_length _ _ I); apply He).
  assert (Hb := elem_le_sumZ _ i (inv_left_nonneg ps st I) Hi).
  assert (Htotal := inv_total _ _ I).
  destruct He as [Hi' [Hpos Harr]].
  apply (tick_run ps st _ i); [repeat split; auto|congruence| | congruence|].
  - rewrite Rt, Ht. apply add_id.
    int_range.
  - rewrite Rl, Hl. f_equal. apply sub_id.
    int_range.
Qed.

(** *** [SJFSchedule] *)

Hypothesis Hshort : short_bursts ps.

Lemma short_bursts_proc (i : nat) :
  (i < length ps)%nat -> BurstDuration (proc ps i) < INT_MAX.
Proof.
  intros Hi. unfold short_bursts in Hshort. rewrite Forall_forall in Hshort.
  apply Hshort. now apply nth_In.
Qed.

Lemma sjf_body_cases (st : Sim) :
  sim_inv ps st ->
  (fst (SJF.select st) = -1 /\
   (forall i, ~ eligible ps (processBurstLeft st) (timestep st) i) /\
   SJF.body st = idle_step (gantt_step st (-1)))
  \/
  (exists j, fst (SJF.select st) = Z.of_nat j /\
     eligible ps (processBurstLeft st) (timestep st) j /\
     SJF.body st = run_step (gantt_step st (Z.of_nat j)) (Z.of_nat j)).
Proof.
  intros I. assert (S := sjf_select_spec st). unfold SJF.body.
  rewrite (inv_procs _ _ I) in S.
  destruct S as [[H1 [_ H3]]|[j [Hj [H1 [_ [He _]]]]]].
  - left. rewrite H1. simpl. repeat split; auto.
    intros i He. assert (Hi : (i < length ps)%nat) by apply He.
    specialize (H3 i Hi He).
    assert (Hb := inv_left _ _ I i Hi). assert (Hs := short_bursts_proc i Hi).
    lia.
  - right. exists j. rewrite H1. repeat split; try apply He.
    destruct (Z.eqb_spec (Z.of_nat j) (-1)); [lia|reflexivity].
Qed.

Lemma sjf_body_tick (st : Sim) :
  sim_inv ps st -> running st = true -> tick ps st (SJF.body st).
Proof.
  intros I Hrun.
  destruct (sjf_body_cases st I) as [[_ [Hnone ->]]|[j [_ [He ->]]]].
  - destruct (gantt_step_core st (-1)) as [Hp [Ht [Htot Hl]]].
    now apply idle_step_tick.
  - destruct (gantt_step_core st (Z.of_nat j)) as [Hp [Ht [Htot Hl]]].
    now apply run_step_tick.
Qed.

End Steps.

(** ** Running a preemptive simulation to its end *)

Lemma sim_init_inv (ps : list Process) :
  well_formed ps -> fits ps -> sim_inv ps (sim_init ps).
Proof.
  intros Hwf Hfits.
  assert (Hb := total_burst_nonneg ps Hwf).
  assert (Hm := max_arrival_nonneg ps).
  assert (Htot : totalBurstTime (sim_init ps) = total_burst ps).
  { simpl. rewrite fold_add_bursts; unfold fits in Hfits; auto; lia. }
  constructor; rewrite ?Htot; simpl; try lia.
  - reflexivity.
  - apply length_map.
  - intros i Hi. rewrite elem_map_burst by exact Hi.
    destruct (well_formed_proc ps i Hwf Hi). lia.
  - intros i Hi. rewrite elem_map_burst by exact Hi. lia.
  - reflexivity.
Qed.

Section Runs.

Variable ps : list Process.
Hypothesis Hwf : well_formed ps.
Hypothesis Hfits : fits ps.
Variable body : Sim -> Sim.
Hypothesis Hbody :
  forall st, sim_inv ps st -> running st = true -> tick ps st (body st).

Lemma timestep_iter (n : nat) (st : Sim) :
  (forall k, (k < n)%nat -> running (Nat.iter k body st) = true) ->
  (forall k, (k <= n)%nat -> sim_inv ps (Nat.iter k body st)) ->
  timestep (Nat.iter n body st) = timestep st + Z.of_nat n.
Proof.
  induction n as [|n IH]; intros Hrun Hinv; [simpl; lia|].
  assert (T := Hbody _ (Hinv n ltac:(lia)) (Hrun n ltac:(lia))).
  rewrite Nat.iter_succ.
  assert (Ht : timestep (body (Nat.iter n body st))
               = timestep (Nat.iter n body st) + 1)
    by (destruct T; assumption).
  rewrite Ht, IH; [lia| |]; intros k Hk; [apply Hrun|apply Hinv]; lia.
Qed.

(** The loop of a simulation whose body performs a [tick] ends, after
    as many iterations as the final timestep counts, with the bound
    exhausted and no work left. *)
Lemma simulation_ends :
  exists n,
    (forall k, (k < n)%nat ->
       running (Nat.iter k body (sim_init ps)) = true /\
       sim_inv ps (Nat.iter k body (sim_init ps))) /\
    let st := Nat.iter n body (sim_init ps) in
    while running body n (sim_init ps) = Some st /\
    ends_exhausted ps st /\
    timestep st = Z.of_nat n /\
    Z.of_nat n <= total_burst ps + max_arrival ps /\
    (forall i, (i < length ps)%nat -> elem (processBurstLeft st) i = 0).
Proof.
  assert (I0 := sim_init_inv ps Hwf Hfits).
  assert (Hm : 0 <= fuel_left ps (sim_init ps)).
  { unfold fuel_left.
    assert (H := sumZ_nonneg _ (inv_left_nonneg ps (sim_init ps) I0)). lia. }
  destruct (ticks_terminate ps Hfits body Hbody
              (Z.to_nat (fuel_left ps (sim_init ps))) (sim_init ps) I0)
    as [n [Hrun [Hstop Hinv]]]; [lia|].
  exists n. split; [intros k Hk; split; [apply Hrun|apply Hinv]; lia|].
  cbv zeta.
  assert (In := Hinv n (Nat.le_refl n)).
  assert (Ht := timestep_iter n (sim_init ps) Hrun Hinv). simpl in Ht.
  assert (Hsum := sumZ_nonneg _ (inv_left_nonneg ps _ In)).
  assert (Htotal := inv_total _ _ In).
  unfold running in Hstop. apply Z.ltb_ge in Hstop.
  split; [apply while_iter; auto; now apply Z.ltb_ge|].
  split; [split; [lia|apply (inv_grown _ _ In)]|].
  split; [exact Ht|].
  split; [assert (Hb := inv_bound _ _ In); lia|].
  intros i Hi. apply sumZ_zero.
  - apply (inv_left_nonneg ps _ In).
  - lia.
  - now rewrite (inv_length _ _ In).
Qed.

End Runs.

Lemma tick_idle_facts (ps : list Process) (st st' : Sim) :
  tick ps st st' ->
  (forall i, ~ eligible ps (processBurstLeft st) (timestep st) i) ->
  totalBurstTime st' = totalBurstTime st + 1 /\
  processBurstLeft st' = processBurstLeft st.
Proof.
  intros [Hnone Hp Htime Htot Hleft|i He Hp Htime Htot Hleft] H; auto.
  destruct (H i He).
Qed.

Lemma tick_run_facts (ps : list Process) (st st' : Sim) (j : nat) :
  sim_inv ps st -> tick ps st st' ->
  eligible ps (processBurstLeft st) (timestep st) j ->
  totalBurstTime st' = totalBurstTime st /\
  sumZ (processBurstLeft st') = sumZ (processBurstLeft st) - 1.
Proof.
  intros I [Hnone Hp Htime Htot Hleft|i He Hp Htime Htot Hleft] Hj.
  - destruct (Hnone j Hj).
  - split; [exact Htot|]. rewrite Hleft, sumZ_set_nth; [lia|].
    rewrite (inv_length _ _ I). apply He.
Qed.

(** ** The selection of [SJFPrioritySchedule] *)

Section Priorities.

Variable ps : list Process.
Hypothesis Hlow : low_priorities ps.

Lemma low_priorities_proc (i : nat) :
  (i < length ps)%nat -> Priority (proc ps i) < INT_MAX.
Proof.
  intros Hi. unfold low_priorities in Hlow. rewrite Forall_forall in Hlow.
  apply Hlow. now apply nth_In.
Qed.

Lemma prio_scan_selected (burstLeft : list Z) (t : Z) (k : nat)
  (acc : Z * Z * Z) :
  (k < length ps)%nat ->
  prio_selected ps burstLeft t k acc ->
  prio_selected ps burstLeft t (S k) (Prio.scan ps burstLeft t acc k).
Proof.
  intros Hk H. unfold Prio.scan. destruct acc as [[idx best] lp].
  assert (Hnew : forall i, (i < S k)%nat -> i = k \/ (i < k)%nat) by lia.
  assert (Hkeep : (exists j, (j < k)%nat /\ idx = Z.of_nat j /\
                     eligible ps burstLeft t j) ->
                  prio_selected ps burstLeft t (S k) (idx, best, lp)).
  { intros [j [Hj [H1 H2]]]. right. exists j. simpl. auto with arith. }
  assert (Hk' : eligible ps burstLeft t k ->
                forall b p, prio_selected ps burstLeft t (S k)
                              (Z.of_nat k, b, p)).
  { intros He b p. right. exists k. simpl. auto. }
  unfold prio_selected in H. simpl in H.
  destruct (Z.leb_spec (elem burstLeft k) 0) as [Hz|Hz];
    [|destruct (Z.ltb_spec t (ArrivalTime (proc ps k))) as [Ha|Ha]].
  1, 2: destruct H as [[H1 [H2 H3]]|H]; [|now apply Hkeep];
    left; simpl; repeat split; auto; intros i Hi He;
    destruct (Hnew i Hi) as [->|Hi']; [|now apply (H3 i)];
    destruct He as [_ [? ?]]; lia.
  assert (He : eligible ps burstLeft t k) by (repeat split; auto).
  destruct (Z.ltb_spec lp (Priority (proc ps k))) as [Hp|Hp].
  - destruct H as [[H1 [H2 H3]]|H]; [|now apply Hkeep].
    assert (Hl := low_priorities_proc k Hk). lia.
  - destruct (Z.ltb_spec (Priority (proc ps k)) lp) as [Hq|Hq];
      [now apply Hk'|].
    destruct (Z.leb_spec best (elem burstLeft k)) as [Hb|Hb];
      [|now apply Hk'].
    destruct H as [[H1 [H2 H3]]|H]; [|now apply Hkeep].
    assert (Hl := low_priorities_proc k Hk). lia.
Qed.

Lemma prio_select_spec (st : Sim) :
  procs st = ps ->
  prio_selected ps (processBurstLeft st) (timestep st) (length ps)
    (Prio.select st).
Proof.
  intros Hp. unfold Prio.select. rewrite Hp.
  assert (H : forall k, (k <= length ps)%nat ->
    prio_selected ps (processBurstLeft st) (timestep st) k
      (fold_left (Prio.scan ps (processBurstLeft st) (timestep st))
         (seq 0 k) (-1, INT_MAX, INT_MAX))).
  { induction k as [|k IH]; intros Hk.
    - left. simpl. repeat split; auto. intros i Hi. lia.
    - rewrite seq_S, fold_left_app. simpl.
      apply prio_scan_selected; [lia|]. apply IH. lia. }
  apply H. lia.
Qed.

Hypothesis Hfits : fits ps.

Lemma prio_body_cases (st : Sim) :
  sim_inv ps st ->
  (fst (fst (Prio.select st)) = -1 /\
   (forall i, ~ eligible ps (processBurstLeft st) (timestep st) i) /\
   Prio.body st = idle_step st)
  \/
  (exists j, fst (fst (Prio.select st)) = Z.of_nat j /\
     eligible ps (processBurstLeft st) (timestep st) j /\
     Prio.body st = run_step (gantt_step st (Z.of_nat j)) (Z.of_nat j)).
Proof.
  intros I. assert (S := prio_select_spec st (inv_procs _ _ I)).
  unfold Prio.body.
  destruct S as [[H1 [_ H3]]|[j [Hj [H1 He]]]].
  - left. rewrite H1. simpl. repeat split; auto.
    intros i He. apply (H3 i); auto. apply He.
  - right. exists j. rewrite H1. repeat split; try apply He.
    destruct (Z.eqb_spec (Z.of_nat j) (-1)); [lia|reflexivity].
Qed.

Lemma prio_body_tick (st : Sim) :
  sim_inv ps st -> running st = true -> tick ps st (Prio.body st).
Proof.
  intros I Hrun.
  destruct (prio_body_cases st I) as [[_ [Hnone ->]]|[j [_ [He ->]]]].
  - now apply idle_step_tick.
  - destruct (gantt_step_core st (Z.of_nat j)) as [Hp [Ht [Htot Hl]]].
    now apply run_step_tick.
Qed.

End Priorities.

(** ** The caller's slice is only read by the first three schedulers *)

Lemma fcfs_loop_procs (idxs : list nat) (st : FCFS.State) :
  FCFS.procs (fold_left FCFS.body idxs st) = FCFS.procs st.
Proof.
  revert st. induction idxs as [|i idxs IH]; intros st; simpl; auto.
  now rewrite IH.
Qed.

Lemma sjf_body_procs (st : Sim) : procs (SJF.body st) = procs st.
Proof.
  unfold SJF.body.
  destruct (gantt_step_core st (fst (SJF.select st))) as [Hp _].
  destruct (fst (SJF.select st) =? -1).
  - simpl. exact Hp.
  - destruct (run_step_core (gantt_step st (fst (SJF.select st)))
                (fst (SJF.select st))) as [Hr _].
    congruence.
Qed.

Lemma prio_body_procs (st : Sim) : procs (Prio.body st) = procs st.
Proof.
  unfold Prio.body. set (idx := fst (fst (Prio.select st))).
  destruct (gantt_step_core st idx) as [Hp _].
  destruct (idx =? -1).
  - reflexivity.
  - destruct (run_step_core (gantt_step st idx) idx) as [Hr _]. congruence.
Qed.

Lemma while_procs (body : Sim -> Sim) (fuel : nat) (st st' : Sim) :
  (forall s, procs (body s) = procs s) ->
  while running body fuel st = Some st' -> procs st' = procs st.
Proof.
  intros Hb Hw.
  apply (while_invariant (fun s => procs s = procs st) running body)
    with (fuel := fuel) (s := st); auto.
  intros s Hs _. now rewrite Hb.
Qed.

(** ** The rows of [FCFSSchedule] *)

(** Whatever the wait it computes, [FCFSSchedule] writes a row and a
    slice for every process, with the turnaround equal to burst plus
    wait, the completion equal to burst plus arrival plus wait, and the
    slice starting at wait plus arrival. *)
Lemma fcfs_rows (ps : list Process) :
  let rep := snd (FCFSSchedule ps) in
  length (repRows rep) = length ps /\
  length (repGantt rep) = length ps /\
  forall i, (i < length ps)%nat ->
    exists r, nth i (repRows rep) None = Some r /\
      fcfs_row (proc ps i) r /\
      Start (nth i (repGantt rep) noSlice)
        = Int.add (rowWait r) (rowArrival r).
Proof.
  cbv zeta. unfold FCFSSchedule, FCFS.loop. simpl.
  assert (H : forall k, (k <= length ps)%nat ->
    let st := fold_left FCFS.body (seq 0 k) (FCFS.init ps) in
    length (FCFS.schedule st) = length ps /\
    length (FCFS.gantt st) = k /\
    forall i, (i < k)%nat ->
      exists r, nth i (FCFS.schedule st) None = Some r /\
        fcfs_row (proc ps i) r /\
        Start (nth i (FCFS.gantt st) noSlice)
          = Int.add (rowWait r) (rowArrival r)).
  { induction k as [|k IH]; intros Hk; cbv zeta.
    - simpl. split; [apply repeat_length|]. split; [reflexivity|].
      intros i Hi. lia.
    - rewrite seq_S, fold_left_app. simpl.
      destruct (IH ltac:(lia)) as [Hlen [Hg Hrows]].
      set (st := fold_left FCFS.body (seq 0 k) (FCFS.init ps)) in *.
      assert (Hp : FCFS.procs st = ps) by apply fcfs_loop_procs.
      rewrite length_set_nth, length_app, Hp, Hg.
      split; [exact Hlen|]. split; [simpl; lia|]. intros i Hi.
      destruct (Nat.eq_dec i k) as [->|Hne].
      + rewrite nth_set_nth_eq by lia. eexists. split; [reflexivity|].
        rewrite app_nth2 by lia. rewrite Hg, Nat.sub_diag.
        repeat split.
      + rewrite nth_set_nth_neq by auto. rewrite app_nth1 by lia.
        apply Hrows. lia. }
  destruct (H (length ps) (Nat.le_refl _)) as [Hlen [Hg Hrows]].
  auto.
Qed.

(** ** The reordering of [RRSchedule] *)

Lemma swap_length (ps : list Process) (i j : nat) :
  length (RR.swap ps i j) = length ps.
Proof. unfold RR.swap. now rewrite !length_set_nth. Qed.

Lemma swap_proc (ps : list Process) (i j k : nat) :
  (i < length ps)%nat -> (j < length ps)%nat ->
  proc (RR.swap ps i j) k =
    if Nat.eqb k j then proc ps i
    else if Nat.eqb k i then proc ps j else proc ps k.
Proof.
  intros Hi Hj. unfold RR.swap, proc.
  destruct (Nat.eqb_spec k j) as [->|Hkj].
  - rewrite nth_set_nth_eq; [reflexivity|]. now rewrite length_set_nth.
  - rewrite nth_set_nth_neq by auto.
    destruct (Nat.eqb_spec k i) as [->|Hki].
    + now rewrite nth_set_nth_eq.
    + now rewrite nth_set_nth_neq by auto.
Qed.

Lemma set_nth_head_perm (t : list Process) (j : nat) (h : Process) :
  (j < length t)%nat ->
  Permutation (proc t j :: set_nth t j h) (h :: t).
Proof.
  unfold proc. revert j. induction t as [|a t IH]; intros [|j] Hj;
    simpl in *; try lia.
  - apply perm_swap.
  - eapply perm_trans; [apply perm_swap|].
    eapply perm_trans; [apply perm_skip, IH; lia|]. apply perm_swap.
Qed.

Lemma swap_perm (ps : list Process) (i j : nat) :
  (i < j)%nat -> (j < length ps)%nat -> Permutation (RR.swap ps i j) ps.
Proof.
  unfold RR.swap, proc. revert i j.
  induction ps as [|h t IH]; intros i j Hij Hj; simpl in *; [lia|].
  destruct j as [|j]; [lia|]. destruct i as [|i]; simpl.
  - apply (set_nth_head_perm t j h). lia.
  - apply perm_skip. apply IH; lia.
Qed.

Lemma sort_inner_step (m J : nat) (ps ps' : list Process) :
  (m <= J < length ps)%nat ->
  sort_inner_inv m J ps ps' ->
  sort_inner_inv m (S J) ps (RR.sort_inner m ps' J).
Proof.
  intros HJ [Hlen [Hperm [Hpre [Hsuf Hmin]]]]. unfold RR.sort_inner.
  destruct (Z.ltb_spec (ArrivalTime (proc ps' J)) (ArrivalTime (proc ps' m)))
    as [Hlt|Hge].
  - assert (HmJ : (m < J)%nat).
    { destruct (Nat.eq_dec m J) as [->|]; [lia|lia]. }
    assert (Hm' : (m < length ps')%nat) by lia.
    assert (HJ' : (J < length ps')%nat) by lia.
    repeat split.
    + now rewrite swap_length.
    + eapply perm_trans; [apply swap_perm; lia|exact Hperm].
    + intros k Hk. rewrite swap_proc by lia.
      destruct (Nat.eqb_spec k J); [lia|].
      destruct (Nat.eqb_spec k m); [lia|]. now apply Hpre.
    + intros b Hb. rewrite swap_proc by lia.
      destruct (Nat.eqb_spec b J); [apply Hsuf; lia|].
      destruct (Nat.eqb_spec b m); apply Hsuf; lia.
    + intros b Hb. unfold arrival_le. rewrite !swap_proc by lia.
      rewrite Nat.eqb_refl.
      destruct (Nat.eqb_spec m J); [lia|].
      destruct (Nat.eqb_spec b J); [lia|].
      destruct (Nat.eqb_spec b m); [lia|].
      assert (H := Hmin b ltac:(lia)). unfold arrival_le in H. lia.
  - repeat split; auto.
    intros b Hb. unfold arrival_le.
    destruct (Nat.eq_dec b J) as [->|Hne]; [lia|].
    apply Hmin. lia.
Qed.

Lemma sort_outer_inv (m : nat) (ps : list Process) :
  (m < length ps)%nat ->
  sort_inner_inv m (length ps) ps (RR.sort_outer ps m).
Proof.
  intros Hm. unfold RR.sort_outer.
  assert (H : forall c, (m + c <= length ps)%nat ->
    sort_inner_inv m (m + c) ps (fold_left (RR.sort_inner m) (seq m c) ps)).
  { induction c as [|c IH]; intros Hc.
    - simpl. repeat split; auto.
      + intros b Hb. exists b. auto.
      + intros b Hb. lia.
    - rewrite seq_S, fold_left_app. simpl.
      replace (m + S c)%nat with (S (m + c)) by lia.
      apply sort_inner_step; [lia|]. apply IH. lia. }
  replace (length ps) with (m + (length ps - m))%nat at 1 by lia.
  apply H. lia.
Qed.

Lemma sort_prefix (ps : list Process) (m : nat) :
  (m <= length ps)%nat ->
  let ps' := fold_left RR.sort_outer (seq 0 m) ps in
  length ps' = length ps /\ Permutation ps' ps /\ sorted_prefix m ps'.
Proof.
  induction m as [|m IH]; intros Hm; cbv zeta.
  - simpl. repeat split; auto. intros a b Ha. lia.
  - rewrite seq_S, fold_left_app. simpl.
    destruct (IH ltac:(lia)) as [Hlen [Hperm Hsorted]].
    set (ps1 := fold_left RR.sort_outer (seq 0 m) ps) in *.
    destruct (sort_outer_inv m ps1 ltac:(lia))
      as [Hlen2 [Hperm2 [Hpre [Hsuf Hmin]]]].
    split; [congruence|]. split; [eapply perm_trans; eauto|].
    intros a b Ha Hb. rewrite Hlen2 in Hb.
    destruct (Nat.eq_dec a m) as [->|Hne].
    + apply Hmin. lia.
    + unfold arrival_le. rewrite (Hpre a) by lia.
      destruct (Nat.lt_ge_cases b m) as [Hbm|Hbm].
      * rewrite (Hpre b) by lia. apply Hsorted; lia.
      * destruct (Hsuf b ltac:(lia)) as [c [Hc ->]]. apply Hsorted; lia.
Qed.

Lemma sorted_prefix_strongly (ps : list Process) :
  sorted_prefix (length ps) ps -> StronglySorted arrival_le ps.
Proof.
  unfold sorted_prefix, proc.
  induction ps as [|p ps IH]; intros H; constructor.
  - apply IH. intros a b Ha Hb. apply (H (S a) (S b)); simpl; lia.
  - rewrite Forall_forall. intros q Hq.
    destruct (In_nth _ _ noProcess Hq) as [i [Hi <-]].
    apply (H 0%nat (S i)); simpl; lia.
Qed.

(** [RRSchedule] first puts the caller's slice in order of arrival. *)
Lemma sort_sorts (ps : list Process) :
  length (RR.sort ps) = length ps /\
  Permutation (RR.sort ps) ps /\
  StronglySorted arrival_le (RR.sort ps).
Proof.
  destruct (sort_prefix ps (length ps) (Nat.le_refl _)) as [Hl [Hp Hs]].
  fold (RR.sort ps) in *. repeat split; auto.
  apply sorted_prefix_strongly. now rewrite Hl.
Qed.

(** ** The main loop of [RRSchedule] *)

Lemma while_terminates {S : Type} (cond : S -> bool) (body : S -> S)
  (inv : S -> Prop) (mu : S -> Z) :
  (forall s, inv s -> 0 <= mu s) ->
  (forall s, inv s -> cond s = true -> inv (body s) /\ mu (body s) < mu s) ->
  forall s, inv s ->
    exists n s', while cond body n s = Some s' /\ inv s' /\ cond s' = false.
Proof.
  intros Hpos Hstep.
  assert (H : forall m s, inv s -> mu s <= Z.of_nat m ->
    exists n s', while cond body n s = Some s' /\ inv s' /\ cond s' = false).
  { induction m as [|m IH]; intros s Hs Hm; destruct (cond s) eqn:Hc.
    - destruct (Hstep s Hs Hc) as [Hi Hd]. specialize (Hpos _ Hi). lia.
    - exists 0%nat, s. simpl. rewrite Hc. auto.
    - destruct (Hstep s Hs Hc) as [Hi Hd].
      destruct (IH (body s) Hi ltac:(lia)) as [n [s' [Hw Hs']]].
      exists (Datatypes.S n), s'. simpl. rewrite Hc. auto.
    - exists 0%nat, s. simpl. rewrite Hc. auto. }
  intros s Hs. apply (H (Z.to_nat (mu s))); auto.
  specialize (Hpos s Hs). lia.
Qed.

Lemma map_burst_set_nth (l : list Process) (i : nat) (p : Process) :
  map BurstDuration (set_nth l i p)
  = set_nth (map BurstDuration l) i (BurstDuration p).
Proof.
  revert i. induction l as [|h t IH]; intros [|i]; simpl; auto.
  now rewrite IH.
Qed.

Lemma total_burst_set_nth (l : list Process) (i : nat) (p : Process) :
  (i < length l)%nat ->
  total_burst (set_nth l i p)
  = total_burst l - BurstDuration (proc l i) + BurstDuration p.
Proof.
  intros Hi. unfold total_burst.
  rewrite map_burst_set_nth, sumZ_set_nth by now rewrite length_map.
  now rewrite elem_map_burst.
Qed.

Lemma total_burst_perm (l l' : list Process) :
  Permutation l l' -> total_burst l = total_burst l'.
Proof.
  unfold total_burst, sumZ. induction 1; simpl; lia.
Qed.

Lemma max_arrival_perm (l l' : list Process) :
  Permutation l l' -> max_arrival l = max_arrival l'.
Proof.
  unfold max_arrival. induction 1; simpl; lia.
Qed.

Lemma proc_set_nth (l : list Process) (i j : nat) (p : Process) :
  (i < length l)%nat ->
  proc (set_nth l i p) j = if Nat.eqb j i then p else proc l j.
Proof.
  intros Hi. unfold proc. destruct (Nat.eqb_spec j i) as [->|Hne].
  - now apply nth_set_nth_eq.
  - apply nth_set_nth_neq. auto.
Qed.

Section RoundRobin.

Variable sorted : list Process.
Hypothesis Hwf : well_formed sorted.
Hypothesis Hfits : fits sorted.

Lemma rr_bursts_nonneg (st : RR.State) :
  rr_inv sorted st ->
  forall j, (j < length (map BurstDuration (RR.procs st)))%nat ->
    0 <= elem (map BurstDuration (RR.procs st)) j.
Proof.
  intros [Hlen [Hp _]] j Hj. rewrite length_map in Hj.
  rewrite elem_map_burst by exact Hj. apply Hp. lia.
Qed.

Lemma rr_work_bounded (st : RR.State) :
  rr_inv sorted st -> total_burst (RR.procs st) <= total_burst sorted.
Proof.
  intros [Hlen [Hp _]]. unfold total_burst at 1.
  apply sumZ_le_bursts; [now rewrite length_map|].
  intros i Hi. rewrite elem_map_burst by lia. apply Hp. exact Hi.
Qed.

Lemma rr_init_inv : rr_inv sorted (RR.init sorted).
Proof.
  assert (Hb := total_burst_nonneg sorted Hwf).
  assert (Hm := max_arrival_nonneg sorted).
  assert (Htot : RR.totalBurstTime (RR.init sorted) = total_burst sorted).
  { simpl. rewrite fold_add_bursts; unfold fits in Hfits; auto; lia. }
  unfold rr_inv. rewrite Htot. simpl.
  split; [reflexivity|]. split; [|lia].
  intros i Hi. destruct (well_formed_proc sorted i Hwf Hi) as [_ Hpos].
  split; [destruct (proc sorted i); reflexivity|lia].
Qed.

Lemma pass_skip (st : RR.State) (i : nat) :
  ~ rr_eligible st i -> RR.pass st i = st.
Proof.
  unfold rr_eligible, RR.pass. intros H.
  destruct (Z.ltb_spec (RR.timestep st) (ArrivalTime (proc (RR.procs st) i)));
    [reflexivity|].
  destruct (Z.leb_spec (BurstDuration (proc (RR.procs st) i)) 0);
    [reflexivity|].
  exfalso. apply H. lia.
Qed.

Lemma pass_run (st : RR.State) (i : nat) :
  rr_inv sorted st -> (i < length sorted)%nat -> rr_eligible st i ->
  rr_inv sorted (RR.pass st i) /\
  RR.ranProcess (RR.pass st i) = true /\
  RR.totalBurstTime (RR.pass st i) = RR.totalBurstTime st /\
  rr_fuel_left sorted (RR.pass st i) < rr_fuel_left sorted st.
Proof.
  intros I Hi [Harr Hpos].
  assert (Hnn := rr_bursts_nonneg st I).
  destruct I as [Hlen [Hp [Ht [Htot Hbound]]]].
  assert (Hi' : (i < length (map BurstDuration (RR.procs st)))%nat)
    by (rewrite length_map; lia).
  assert (Hle := elem_le_sumZ _ i Hnn Hi').
  rewrite elem_map_burst in Hle by lia. fold (total_burst (RR.procs st)) in Hle.
  unfold fits in Hfits.
  unfold RR.pass.
  destruct (Z.ltb_spec (RR.timestep st) (ArrivalTime (proc (RR.procs st) i)));
    [lia|].
  destruct (Z.leb_spec (BurstDuration (proc (RR.procs st) i)) 0); [lia|].
  rewrite (add_id (RR.timestep st) 1),
    (sub_id (BurstDuration (proc (RR.procs st) i)) 1)
    by int_range.
  unfold rr_inv, rr_fuel_left. simpl.
  rewrite total_burst_set_nth by lia. simpl.
  rewrite length_set_nth.
  split; [|split; [reflexivity|split; [reflexivity|lia]]].
  split; [exact Hlen|]. split; [|lia].
  intros k Hk. rewrite proc_set_nth by lia.
  destruct (Nat.eqb_spec k i) as [->|Hne]; simpl; [|apply (Hp k Hk)].
  destruct (Hp i Hi) as [He Hb]. split; [|lia].
  rewrite He at 1. reflexivity.
Qed.


(** A pass over the slice: either some process ran, and the measure
    went down, or nothing changed and no process was eligible. *)
Lemma pass_fold (st0 : RR.State) (k : nat) :
  rr_inv sorted st0 -> RR.ranProcess st0 = false ->
  (k <= length sorted)%nat ->
  let st' := fold_left RR.pass (seq 0 k) st0 in
  rr_inv sorted st' /\
  RR.totalBurstTime st' = RR.totalBurstTime st0 /\
  (RR.ranProcess st' = true ->
     rr_fuel_left sorted st' < rr_fuel_left sorted st0) /\
  (RR.ranProcess st' = false ->
     st' = st0 /\ forall i, (i < k)%nat -> ~ rr_eligible st0 i).
Proof.
  intros I0 Hran. induction k as [|k IH]; intros Hk; cbv zeta.
  - simpl. split; [exact I0|]. split; [reflexivity|].
    split; [congruence|]. intros _. split; [reflexivity|]. intros i Hi. lia.
  - rewrite seq_S, fold_left_app. simpl.
    destruct (IH ltac:(lia)) as [I [Htot [Hdec Hsame]]].
    set (st1 := fold_left RR.pass (seq 0 k) st0) in *.
    assert (Hel : rr_eligible st1 k \/ ~ rr_eligible st1 k).
    { unfold rr_eligible.
      destruct (Z_le_gt_dec (ArrivalTime (proc (RR.procs st1) k))
                  (RR.timestep st1));
        destruct (Z_lt_le_dec 0 (BurstDuration (proc (RR.procs st1) k)));
        [left; auto|right; lia..]. }
    destruct Hel as [He|He].
    + destruct (pass_run st1 k I ltac:(lia) He) as [I' [Hr [Ht Hd]]].
      split; [exact I'|]. split; [congruence|]. split; [|congruence].
      intros _. destruct (RR.ranProcess st1) eqn:E.
      * specialize (Hdec eq_refl). lia.
      * destruct (Hsame eq_refl) as [Heq _]. rewrite Heq in Hd at 2. exact Hd.
    + rewrite (pass_skip st1 k He).
      split; [exact I|]. split; [exact Htot|]. split; [exact Hdec|].
      intros Hr. destruct (Hsame Hr) as [Heq Hnone]. split; [exact Heq|].
      intros i Hi.
      destruct (Nat.eq_dec i k) as [->|Hne]; [now rewrite <- Heq|].
      apply Hnone. lia.
Qed.

Lemma rr_body_step (st : RR.State) :
  rr_inv sorted st -> RR.running st = true ->
  rr_inv sorted (RR.body st) /\
  rr_fuel_left sorted (RR.body st) < rr_fuel_left sorted st.
Proof.
  intros I Hrun. unfold RR.body.
  set (st0 := RR.mkState (RR.procs st) (RR.timestep st)
                (RR.totalBurstTime st) (RR.processBurstInit st) false
                (RR.schedule st) (RR.gantt st)).
  assert (I0 : rr_inv sorted st0) by exact I.
  assert (Hlen0 : length (RR.procs st0) = length sorted) by apply I.
  destruct (pass_fold st0 (length (RR.procs st0)) I0 eq_refl ltac:(lia))
    as [I1 [Htot [Hdec Hsame]]].
  set (st1 := fold_left RR.pass (seq 0 (length (RR.procs st0))) st0) in *.
  destruct (RR.ranProcess st1) eqn:Hr.
  - split; [exact I1|]. apply (Hdec eq_refl).
  - destruct (Hsame eq_refl) as [Heq Hnone]. rewrite Heq. simpl.
    unfold RR.running in Hrun. apply Z.ltb_lt in Hrun.
    assert (Hnn := rr_bursts_nonneg st I).
    assert (Hwork := rr_work_bounded st I).
    destruct I as [Hlen [Hp [Ht [Htotal Hbound]]]].
    destruct (sumZ_positive _ Hnn) as [i [Hi Hpos]];
      [fold (total_burst (RR.procs st)); lia|].
    rewrite length_map in Hi. rewrite elem_map_burst in Hpos by exact Hi.
    assert (Hlate : RR.timestep st < ArrivalTime (proc (RR.procs st) i)).
    { destruct (Z_lt_le_dec (RR.timestep st)
                  (ArrivalTime (proc (RR.procs st) i))); auto.
      exfalso. apply (Hnone i); [simpl; lia|]. split; simpl; auto. }
    assert (Harr : ArrivalTime (proc (RR.procs st) i)
                   = ArrivalTime (proc sorted i)).
    { destruct (Hp i ltac:(lia)) as [He _]. rewrite He. reflexivity. }
    assert (Hmax := max_arrival_ge sorted i ltac:(lia)).
    unfold fits in Hfits.
    rewrite !add_id
      by int_range.
    unfold rr_inv, rr_fuel_left. simpl.
    split; [|lia]. split; [exact Hlen|]. split; [exact Hp|]. lia.
Qed.

(** The main loop ends, and leaves every burst of the slice at 0. *)
Lemma rr_loop_ends :
  exists n st,
    while RR.running RR.body n (RR.init sorted) = Some st /\
    RR.procs st = spent sorted.
Proof.
  destruct (while_terminates RR.running RR.body (rr_inv sorted)
              (rr_fuel_left sorted)) with (s := RR.init sorted)
    as [n [st [Hw [I Hstop]]]].
  - intros s I. unfold rr_fuel_left.
    assert (H := sumZ_nonneg _ (rr_bursts_nonneg s I)).
    fold (total_burst (RR.procs s)) in H. lia.
  - apply rr_body_step.
  - apply rr_init_inv.
  - exists n, st. split; [exact Hw|].
    unfold RR.running in Hstop. apply Z.ltb_ge in Hstop.
    assert (Hnn := rr_bursts_nonneg st I).
    destruct I as [Hlen [Hp [Ht [Htotal Hbound]]]].
    assert (Hzero : forall i, (i < length sorted)%nat ->
              BurstDuration (proc (RR.procs st) i) = 0).
    { intros i Hi. rewrite <- elem_map_burst by lia.
      apply sumZ_zero; auto.
      - fold (total_burst (RR.procs st)). lia.
      - rewrite length_map. lia. }
    apply (nth_ext _ _ noProcess noProcess).
    + unfold spent. now rewrite length_map.
    + intros i Hi. rewrite Hlen in Hi. fold (proc (RR.procs st) i).
      destruct (Hp i Hi) as [He _]. rewrite He, (Hzero i Hi).
      symmetry.
      exact (map_nth (fun p => RR.set_burst p 0) sorted noProcess i).
Qed.

End RoundRobin.

(** ** The timeline of a preemptive simulation *)

Lemma wrap_in_range (z : Z) : Int.in_range (Int.wrap z).
Proof.
  unfold Int.in_range, Int.min_int, Int.max_int, Int.wrap.
  assert (H := Z.mod_pos_bound (z + 2 ^ 63) (2 ^ 64) ltac:(lia)). lia.
Qed.

Lemma total_init_in_range (ps : list Process) (acc : Z) :
  Int.in_range acc ->
  Int.in_range (fold_left (fun a p => Int.add a (BurstDuration p)) ps acc).
Proof.
  revert acc. induction ps as [|p ps IH]; intros acc H; simpl; auto.
  apply IH. apply wrap_in_range.
Qed.

Lemma StronglySorted_snoc {A : Type} (R : A -> A -> Prop) (l : list A)
  (x : A) :
  StronglySorted R l -> Forall (fun y => R y x) l ->
  StronglySorted R (l ++ [x]).
Proof.
  induction 1 as [|a l Hs IH Ha]; intros Hx; simpl.
  - repeat constructor.
  - inversion Hx; subst. constructor; [now apply IH|].
    apply Forall_app. split; auto.
Qed.

Lemma timeline_init (ps : list Process) : timeline_inv (sim_init ps).
Proof.
  unfold timeline_inv, ordered_timeline. simpl.
  repeat split; try constructor; try lia.
  - unfold Int.min_int. lia.
  - apply (total_init_in_range ps 0).
    int_range.
Qed.

(** After the timeline has been brought up to date, and before the
    timestep moves on. *)
Lemma gantt_step_timeline (st : Sim) (idx : Z) :
  timeline_inv st ->
  ordered_timeline (gantt (gantt_step st idx)) /\
  Forall (fun s => Stop s <= lastGantStartTime (gantt_step st idx))
    (gantt (gantt_step st idx)) /\
  lastGantStartTime (gantt_step st idx) <= timestep st.
Proof.
  intros [[Hs Hne] [Hstop [Hle [Hlt _]]]]. unfold gantt_step.
  destruct (negb (lastGantIndex st =? idx)
            || (timestep st =? Int.sub (totalBurstTime st) 1));
    [|repeat split; auto].
  simpl. destruct (Z.eqb_spec (lastGantIndex st) (-1)) as [E|E]; simpl.
  - repeat split; auto; try lia.
    revert Hstop. apply Forall_impl. intros s H. lia.
  - specialize (Hlt E). repeat split; try lia.
    + apply StronglySorted_snoc; auto.
    + apply Forall_app. split; auto.
    + apply Forall_app. split; [|repeat constructor; simpl; lia].
      revert Hstop. apply Forall_impl. intros s H. lia.
Qed.

Lemma advance_timeline (st st1 st' : Sim) :
  timeline_inv st -> running st = true ->
  ordered_timeline (gantt st1) ->
  Forall (fun s => Stop s <= lastGantStartTime st1) (gantt st1) ->
  lastGantStartTime st1 <= timestep st ->
  gantt st' = gantt st1 ->
  lastGantStartTime st' = lastGantStartTime st1 ->
  timestep st' = Int.add (timestep st) 1 ->
  (totalBurstTime st' = totalBurstTime st \/
   totalBurstTime st' = Int.add (totalBurstTime st) 1) ->
  timeline_inv st'.
Proof.
  intros [_ [_ [_ [_ [Hmin Hmax]]]]] Hrun Ho Hstop Hle Hg Hl Ht Htot.
  unfold running in Hrun. apply Z.ltb_lt in Hrun.
  unfold timeline_inv. rewrite Hg, Hl, Ht.
  rewrite add_id
    by int_range.
  repeat split; try apply Ho; auto; try lia.
  destruct Htot as [->| ->]; [exact Hmax|].
  apply wrap_in_range.
Qed.

Lemma idle_step_fields (st : Sim) :
  gantt (idle_step st) = gantt st /\
  lastGantStartTime (idle_step st) = lastGantStartTime st /\
  timestep (idle_step st) = Int.add (timestep st) 1 /\
  totalBurstTime (idle_step st) = Int.add (totalBurstTime st) 1.
Proof. repeat split. Qed.

Lemma run_step_fields (st : Sim) (idx : Z) :
  gantt (run_step st idx) = gantt st /\
  lastGantStartTime (run_step st idx) = lastGantStartTime st /\
  timestep (run_step st idx) = Int.add (timestep st) 1 /\
  totalBurstTime (run_step st idx) = totalBurstTime st.
Proof.
  unfold run_step. destruct (elem _ (Z.to_nat idx) =? 0); repeat split.
Qed.

Lemma sjf_body_timeline (st : Sim) :
  timeline_inv st -> running st = true -> timeline_inv (SJF.body st).
Proof.
  intros I Hrun. unfold SJF.body. set (idx := fst (SJF.select st)).
  destruct (gantt_step_timeline st idx I) as [Ho [Hstop Hle]].
  destruct (gantt_step_core st idx) as [_ [Ht [Htot _]]].
  destruct (idx =? -1).
  - destruct (idle_step_fields (gantt_step st idx)) as [Hg [Hl [Ht' Htot']]].
    apply (advance_timeline st (gantt_step st idx)); auto; try congruence.
    right. congruence.
  - destruct (run_step_fields (gantt_step st idx) idx)
      as [Hg [Hl [Ht' Htot']]].
    apply (advance_timeline st (gantt_step st idx)); auto; try congruence.
    left. congruence.
Qed.

Lemma prio_body_timeline (st : Sim) :
  timeline_inv st -> running st = true -> timeline_inv (Prio.body st).
Proof.
  intros I Hrun. unfold Prio.body. set (idx := fst (fst (Prio.select st))).
  destruct (idx =? -1).
  - destruct (idle_step_fields st) as [Hg [Hl [Ht' Htot']]].
    destruct I as [Ho [Hstop [Hle Hrest]]].
    apply (advance_timeline st st); auto. unfold timeline_inv. auto.
  - destruct (gantt_step_timeline st idx I) as [Ho [Hstop Hle]].
    destruct (gantt_step_core st idx) as [_ [Ht [Htot _]]].
    destruct (run_step_fields (gantt_step st idx) idx)
      as [Hg [Hl [Ht' Htot']]].
    apply (advance_timeline st (gantt_step st idx)); auto; try congruence.
    left. congruence.
Qed.

(** Whatever the input, the timelines of [SJFSchedule] and
    [SJFPrioritySchedule] are in order and free of overlaps. *)
Lemma preemptive_timeline_ordered (ps : list Process) (fuel : nat)
  (st : Sim) :
  SJF.loop fuel ps = Some st \/ Prio.loop fuel ps = Some st ->
  ordered_timeline (gantt st).
Proof.
  intros [H|H];
    eapply (while_invariant timeline_inv running) in H;
    try apply timeline_init; try apply H;
    auto using sjf_body_timeline, prio_body_timeline.
Qed.

Lemma ordered_timeline_starts (g : list TimeSlice) :
  ordered_timeline g ->
  StronglySorted (fun s s' => Start s < Start s') g.
Proof.
  intros [Hs Hne]. induction Hs as [|s g Hs IH Hall]; constructor.
  - apply IH. now inversion Hne.
  - inversion Hne; subst. revert Hall. apply Forall_impl. intros s' H. lia.
Qed.

(** ** The rows of a preemptive simulation *)

Lemma gantt_step_schedule (st : Sim) (idx : Z) :
  schedule (gantt_step st idx) = schedule st.
Proof.
  unfold gantt_step.
  destruct (negb (lastGantIndex st =? idx)
            || (timestep st =? Int.sub (totalBurstTime st) 1)); reflexivity.
Qed.

(** When the remaining burst of the selected process reaches 0 at
    timestep [t], its row records [t + 1] as the completion time, and the
    turnaround and the wait derived from it; otherwise no row changes. *)
Lemma run_step_schedule (st : Sim) (idx : Z) :
  let i := Z.to_nat idx in
  let p := proc (procs st) i in
  let exit := Int.add (timestep st) 1 in
  schedule (run_step st idx) =
    if elem (processBurstLeft (run_step st idx)) i =? 0
    then set_nth (schedule st) i
           (Some (mkRow (ProcessID p) (Priority p) (BurstDuration p)
                    (ArrivalTime p)
                    (Int.sub (Int.sub exit (ArrivalTime p)) (BurstDuration p))
                    (Int.sub exit (ArrivalTime p)) exit))
    else schedule st.
Proof.
  cbv zeta. destruct (run_step_core st idx) as [_ [_ [_ Hl]]]. rewrite Hl.
  unfold run_step.
  destruct (elem (set_nth (processBurstLeft st) (Z.to_nat idx)
                    (Int.sub (elem (processBurstLeft st) (Z.to_nat idx)) 1))
              (Z.to_nat idx) =? 0); reflexivity.
Qed.

Lemma rows_keep (ps : list Process) (st st' : Sim) :
  rows_inv ps st ->
  schedule st' = schedule st ->
  processBurstLeft st' = processBurstLeft st ->
  timestep st <= timestep st' ->
  rows_inv ps st'.
Proof.
  intros [Hlen Hrows] Hs Hl Ht. unfold rows_inv. rewrite Hs, Hl.
  split; [exact Hlen|]. intros i Hi. specialize (Hrows i Hi).
  destruct (nth i (schedule st) None) as [r|]; [|exact Hrows].
  destruct Hrows as [exit [Hr Hexit]]. exists exit. split; [exact Hr|lia].
Qed.

Section Rows.

Variable ps : list Process.
Hypothesis Hwf : well_formed ps.
Hypothesis Hfits : fits ps.

Lemma rows_init : rows_inv ps (sim_init ps).
Proof.
  split; [simpl; apply repeat_length|].
  intros i Hi. simpl.
  replace (nth i (repeat None (length ps)) None) with (@None Row)
    by (symmetry; apply nth_repeat).
  rewrite elem_map_burst by exact Hi.
  apply (well_formed_proc ps i Hwf Hi).
Qed.

Lemma rows_run (st st1 : Sim) (j : nat) :
  sim_inv ps st -> rows_inv ps st -> running st = true ->
  procs st1 = procs st -> timestep st1 = timestep st ->
  totalBurstTime st1 = totalBurstTime st ->
  processBurstLeft st1 = processBurstLeft st ->
  schedule st1 = schedule st ->
  eligible ps (processBurstLeft st) (timestep st) j ->
  rows_inv ps (run_step st1 (Z.of_nat j)).
Proof.
  intros I [Hlen Hrows] Hrun Hp Ht Htot Hl Hs He.
  assert (T := run_step_tick ps Hfits st st1 j I Hrun Hp Ht Htot Hl He).
  assert (Htime : timestep (run_step st1 (Z.of_nat j)) = timestep st + 1)
    by (destruct T as [Hnone|]; [destruct (Hnone j He)|assumption]).
  assert (Hleft : processBurstLeft (run_step st1 (Z.of_nat j))
                  = set_nth (processBurstLeft st) j
                      (elem (processBurstLeft st) j - 1)).
  { destruct (run_step_core st1 (Z.of_nat j)) as [_ [_ [_ Hc]]].
    rewrite Nat2Z.id, Hl in Hc. rewrite Hc. f_equal.
    destruct (inv_in_range ps Hfits st I) as [H0 [Hmax [Hsum Hle]]].
    assert (Hj : (j < length (processBurstLeft st))%nat)
      by (rewrite (inv_length _ _ I); apply He).
    assert (Hb := elem_le_sumZ _ j (inv_left_nonneg ps st I) Hj).
    assert (Htotal := inv_total _ _ I). destruct He as [_ [Hpos _]].
    apply sub_id. int_range. }
  assert (Hsched := run_step_schedule st1 (Z.of_nat j)). cbv zeta in Hsched.
  rewrite Nat2Z.id, Hleft, Hp, (inv_procs _ _ I), Ht, Hs in Hsched.
  destruct He as [Hj [Hpos Harr]].
  assert (Hjl : (j < length (processBurstLeft st))%nat)
    by (rewrite (inv_length _ _ I); exact Hj).
  assert (Hjj : elem (set_nth (processBurstLeft st) j
                        (elem (processBurstLeft st) j - 1)) j
                = elem (processBurstLeft st) j - 1)
    by (unfold elem; now rewrite nth_set_nth_eq).
  assert (Hprog := inv_progress _ _ I j Hj).
  assert (Hbound := inv_left _ _ I j Hj).
  destruct (well_formed_proc ps j Hwf Hj) as [Harr0 Hburst0].
  destruct (inv_in_range ps Hfits st I) as [H0 [Hmax [Hsum Hle]]].
  unfold running in Hrun. apply Z.ltb_lt in Hrun.
  unfold rows_inv. rewrite Hsched, Hleft, Htime, Hjj.
  destruct (Z.eqb_spec (elem (processBurstLeft st) j - 1) 0) as [Hdone|Hmore].
  - rewrite length_set_nth. split; [exact Hlen|]. intros i Hi.
    destruct (Nat.eq_dec i j) as [->|Hne].
    + rewrite nth_set_nth_eq by lia.
      exists (timestep st + 1). split; [|lia].
      unfold row_of.
      rewrite (add_id (timestep st) 1) by int_range.
      rewrite (sub_id (timestep st + 1) (ArrivalTime (proc ps j)))
        by int_range.
      rewrite sub_id by int_range. reflexivity.
    + rewrite nth_set_nth_neq by auto. specialize (Hrows i Hi).
      destruct (nth i (schedule st) None) as [r|].
      * destruct Hrows as [exit [Hr Hexit]]. exists exit. split; auto. lia.
      * unfold elem. rewrite nth_set_nth_neq by auto. exact Hrows.
  - split; [exact Hlen|]. intros i Hi. specialize (Hrows i Hi).
    destruct (nth i (schedule st) None) as [r|].
    + destruct Hrows as [exit [Hr Hexit]]. exists exit. split; auto. lia.
    + destruct (Nat.eq_dec i j) as [->|Hne].
      * rewrite Hjj. lia.
      * unfold elem. rewrite nth_set_nth_neq by auto. exact Hrows.
Qed.

Lemma sjf_body_rows (st : Sim) :
  short_bursts ps ->
  sim_inv ps st -> rows_inv ps st -> running st = true ->
  rows_inv ps (SJF.body st).
Proof.
  intros Hshort I R Hrun.
  destruct (sjf_body_cases ps Hshort st I)
    as [[_ [Hnone ->]]|[j [_ [He ->]]]].
  - apply (rows_keep ps st); auto; simpl.
    + apply gantt_step_schedule.
    + apply gantt_step_core.
    + destruct (gantt_step_core st (-1)) as [_ [-> _]].
      destruct (inv_in_range ps Hfits st I) as [H0 [Hmax [Hsum Hle]]].
      unfold running in Hrun. apply Z.ltb_lt in Hrun.
      rewrite add_id; [lia|].
      int_range.
  - destruct (gantt_step_core st (Z.of_nat j)) as [Hp [Ht [Htot Hl]]].
    apply (rows_run st); auto. apply gantt_step_schedule.
Qed.

Lemma prio_body_rows (st : Sim) :
  low_priorities ps ->
  sim_inv ps st -> rows_inv ps st -> running st = true ->
  rows_inv ps (Prio.body st).
Proof.
  intros Hlow I R Hrun.
  destruct (prio_body_cases ps Hlow st I)
    as [[_ [Hnone ->]]|[j [_ [He ->]]]].
  - apply (rows_keep ps st); auto; simpl.
    destruct (inv_in_range ps Hfits st I) as [H0 [Hmax [Hsum Hle]]].
    unfold running in Hrun. apply Z.ltb_lt in Hrun.
    rewrite add_id; [lia|].
    int_range.
  - destruct (gantt_step_core st (Z.of_nat j)) as [Hp [Ht [Htot Hl]]].
    apply (rows_run st); auto. apply gantt_step_schedule.
Qed.

Variable body : Sim -> Sim.
Hypothesis Hbody :
  forall st, sim_inv ps st -> running st = true -> tick ps st (body st).
Hypothesis Hrows :
  forall st, sim_inv ps st -> rows_inv ps st -> running st = true ->
    rows_inv ps (body st).

(** A simulation that ends has written the row of every process. *)
Lemma simulation_rows :
  exists n st,
    while running body n (sim_init ps) = Some st /\
    complete_rows ps (schedule st).
Proof.
  destruct (simulation_ends ps Hwf Hfits body Hbody)
    as [n [Hsteps [Hloop [_ [_ [_ Hzero]]]]]].
  exists n, (Nat.iter n body (sim_init ps)). split; [exact Hloop|].
  assert (R : forall k, (k <= n)%nat ->
            rows_inv ps (Nat.iter k body (sim_init ps))).
  { induction k as [|k IH]; intros Hk; [apply rows_init|].
    rewrite Nat.iter_succ. destruct (Hsteps k ltac:(lia)) as [Hrun I].
    apply Hrows; auto. apply IH. lia. }
  destruct (R n (Nat.le_refl n)) as [Hlen Hr].
  split; [exact Hlen|]. intros i Hi. specialize (Hr i Hi).
  specialize (Hzero i Hi).
  destruct (nth i (schedule (Nat.iter n body (sim_init ps))) None) as [r|];
    [|lia].
  destruct Hr as [exit [-> Hexit]]. exists (row_of (proc ps i) exit).
  simpl. repeat split; lia.
Qed.

End Rows.

(** On an input within the ranges of the data model, [SJFSchedule] (for
    bursts below [INT_MAX]) and [SJFPrioritySchedule] (for priorities
    below [INT_MAX]) return with a row for every process, whose wait is
    not negative and whose turnaround is the wait plus the burst. *)
Lemma preemptive_rows (ps : list Process) :
  well_formed ps -> fits ps ->
  (short_bursts ps ->
   exists n st, SJF.loop n ps = Some st /\ complete_rows ps (schedule st)) /\
  (low_priorities ps ->
   exists n st, Prio.loop n ps = Some st /\ complete_rows ps (schedule st)).
Proof.
  intros Hwf Hfits. split; intros H.
  - apply (simulation_rows ps Hwf Hfits SJF.body).
    + now apply sjf_body_tick.
    + intros st. now apply sjf_body_rows.
  - apply (simulation_rows ps Hwf Hfits Prio.body).
    + now apply prio_body_tick.
    + intros st. now apply prio_body_rows.
Qed.

(** ** A burst of [INT_MAX] *)

Lemma long_burst_select (st : Sim) :
  procs st = long_burst -> processBurstLeft st = [INT_MAX] ->
  SJF.select st = (-1, INT_MAX).
Proof.
  intros Hp Hl. unfold SJF.select. rewrite Hp, Hl. simpl.
  unfold SJF.scan. simpl.
  destruct (timestep st <? 0); reflexivity.
Qed.

Lemma long_burst_body (st : Sim) :
  procs st = long_burst -> processBurstLeft st = [INT_MAX] ->
  procs (SJF.body st) = long_burst /\
  processBurstLeft (SJF.body st) = [INT_MAX] /\
  schedule (SJF.body st) = schedule st.
Proof.
  intros Hp Hl. unfold SJF.body. rewrite (long_burst_select st Hp Hl).
  simpl. unfold gantt_step.
  destruct (negb (lastGantIndex st =? -1)
            || (timestep st =? Int.sub (totalBurstTime st) 1)); simpl; auto.
Qed.

(** On [long_burst] the loop of [SJFSchedule] idles until the bound
    wraps: it never ends with the bound exhausted. *)
Lemma sjf_long_burst_not_exhausted :
  well_formed long_burst /\ fits long_burst /\
  ~ sjf_terminates_exhausted long_burst.
Proof.
  split; [unfold long_burst, INT_MAX; repeat constructor; simpl; lia|].
  split; [vm_compute; discriminate|].
  intros [n [st [Hloop Hend]]].
  set (J := fun s : Sim =>
    procs s = long_burst /\ processBurstLeft s = [INT_MAX] /\
    0 <= timestep s /\
    ((totalBurstTime s = timestep s + INT_MAX /\
      totalBurstTime s <= Int.max_int)
     \/ totalBurstTime s = Int.min_int)).
  assert (HJ : J st /\ running st = false).
  { apply (while_invariant J running SJF.body) with (fuel := n)
      (s := sim_init long_burst); [|vm_compute; intuition discriminate
                                  |exact Hloop].
    intros s [Hp [Hl [Ht Htot]]] Hrun.
    unfold running in Hrun. apply Z.ltb_lt in Hrun.
    destruct Htot as [[Htot Hmax]|Htot];
      [|unfold Int.min_int in Htot; lia].
    destruct (long_burst_body s Hp Hl) as [Hp' [Hl' _]].
    split; [exact Hp'|]. split; [exact Hl'|].
    unfold SJF.body. rewrite (long_burst_select s Hp Hl). simpl.
    destruct (gantt_step_core s (-1)) as [_ [-> [-> _]]].
    unfold Int.max_int in Hmax.
    rewrite (add_id (timestep s) 1)
      by int_range.
    split; [lia|].
    destruct (Z.eq_dec (totalBurstTime s) Int.max_int) as [E|E].
    - right. rewrite E. reflexivity.
    - left. unfold Int.max_int in E.
      rewrite add_id
        by int_range.
      unfold Int.max_int. lia. }
  destruct HJ as [[_ [_ [Ht Htot]]] _]. destruct Hend as [He Hb].
  change (total_burst long_burst) with INT_MAX in Hb.
  unfold INT_MAX, Int.min_int in *. lia.
Qed.

(** ** The slice after [RRSchedule] *)

Lemma spent_sorted (ps : list Process) :
  StronglySorted arrival_le ps -> StronglySorted arrival_le (spent ps).
Proof.
  unfold spent. induction 1 as [|p ps Hs IH Hall]; simpl; constructor; auto.
  rewrite Forall_map. revert Hall. apply Forall_impl. intros q Hq. exact Hq.
Qed.

Lemma spent_differs (ps qs : list Process) :
  well_formed ps -> ps <> [] -> length qs = length ps -> spent qs <> ps.
Proof.
  intros Hwf Hne Hlen Heq. destruct ps as [|p ps]; [now apply Hne|].
  destruct qs as [|q qs]; [discriminate|].
  inversion Hwf as [|? ? [_ Hb] _]; subst.
  simpl in Heq. injection Heq as Hp _. rewrite <- Hp in Hb. simpl in Hb. lia.
Qed.

Lemma well_formed_perm (ps qs : list Process) :
  Permutation ps qs -> well_formed ps -> well_formed qs.
Proof. unfold well_formed. apply Permutation_Forall. Qed.

Lemma fits_perm (ps qs : list Process) :
  Permutation ps qs -> fits ps -> fits qs.
Proof.
  unfold fits. intros H.
  now rewrite (total_burst_perm _ _ H), (max_arrival_perm _ _ H).
Qed.


(** ** The schedulers on the specification's examples *)

Example sjf_staggered :
  option_map (fun r => (repGantt (snd r), repRows (snd r)))
    (SJFSchedule 10 staggered)
  = Some ([mkTimeSlice 1 0 1; mkTimeSlice 2 1 4; mkTimeSlice 3 4 6;
           mkTimeSlice 1 6 9],
          [Some (mkRow 1 0 5 0 5 10 10); Some (mkRow 2 0 3 1 0 3 4);
           Some (mkRow 3 0 2 2 2 4 6)]).
Proof. vm_compute. reflexivity. Qed.

Example fcfs_staggered :
  repRows (snd (FCFSSchedule staggered))
  = [Some (mkRow 1 0 5 0 0 5 5); Some (mkRow 2 0 3 1 4 7 8);
     Some (mkRow 3 0 2 2 6 8 10)].
Proof. vm_compute. reflexivity. Qed.

Example rr_unordered :
  option_map (fun r => (fst r, repGantt (snd r))) (RRSchedule 11 unordered)
  = Some ([mkProcess 3 0 0 0; mkProcess 1 1 0 0; mkProcess 2 3 0 0],
          [mkTimeSlice 3 0 1; mkTimeSlice 1 1 2; mkTimeSlice 3 2 3;
           mkTimeSlice 1 3 4; mkTimeSlice 2 4 5; mkTimeSlice 3 5 6;
           mkTimeSlice 1 6 7; mkTimeSlice 2 7 8; mkTimeSlice 3 8 9;
           mkTimeSlice 1 9 10; mkTimeSlice 1 10 11]).
Proof. vm_compute. reflexivity. Qed.

(** * The claims *)

(** C1.  With three processes that all arrive at time 0 and need 3, 4 and
    2 units, [FCFSSchedule] does not report the completion times 3, 7, 9
    of first-come-first-served service: the waiting time is only
    recomputed for a process whose arrival time is positive, so every row
    keeps the wait 0 and the completion times are 3, 4, 2, while the
    timeline of the same run stops the three slices at 3, 7 and 9. *)
Theorem fcfs_same_arrival_completions :
  let rep := snd (FCFSSchedule same_arrival) in
  map (option_map rowExit) (repRows rep) = [Some 3; Some 4; Some 2] /\
  map (option_map rowWait) (repRows rep) = [Some 0; Some 0; Some 0] /\
  map Stop (repGantt rep) = [3; 7; 9].
Proof. vm_compute. repeat split. Qed.

(** C2.  On the specification's SJF example (3 processes, the last one
    completing at 10) [SJFSchedule] and [SJFPrioritySchedule] report
    10/3 as the throughput, the inverse of processCount /
    lastCompletionTime = 3/10, which is what [FCFSSchedule] reports on
    the same input. *)
Theorem preemptive_throughput_inverted :
  let inverted := F64.div (F64.of_int 10) (F64.of_int 3) in
  let claimed := F64.div (F64.of_int 3) (F64.of_int 10) in
  option_map (fun r => repThroughput (snd r)) (SJFSchedule 10 staggered)
    = Some inverted /\
  option_map (fun r => repThroughput (snd r))
    (SJFPrioritySchedule 10 staggered) = Some inverted /\
  repThroughput (snd (FCFSSchedule staggered)) = claimed /\
  F64.eqb inverted claimed = false.
Proof. vm_compute. repeat split. Qed.

(** C3.  With two eligible processes of equal priority, process 0 with 2
    units left and process 1 with 4, [SJFPrioritySchedule] selects
    process 1: the first candidate of a priority enters the comparison
    with its full burst (5), not with its remaining burst. *)
Theorem prio_selects_longer_remaining :
  let st := Nat.iter 3 Prio.body (sim_init same_priority) in
  timestep st = 3 /\
  processBurstLeft st = [2; 4] /\
  map ArrivalTime (procs st) = [0; 3] /\
  map Priority (procs st) = [1; 1] /\
  fst (fst (Prio.select st)) = 1 /\
  option_map (fun r => repGantt (snd r)) (SJFPrioritySchedule 9 same_priority)
    = Some [mkTimeSlice 1 0 3; mkTimeSlice 2 3 7; mkTimeSlice 1 7 8].
Proof. vm_compute. repeat split. Qed.

(** C4.  A process whose burst is 100000000, the value the source uses
    for [INT_MAX], is eligible from timestep 0 on and is the only
    candidate, yet no iteration of [SJFSchedule] ever selects it: the
    selection stays at -1, its remaining burst stays whole and its row is
    never written. *)
Theorem sjf_never_selects_long_burst (n : nat) :
  let st := Nat.iter n SJF.body (sim_init long_burst) in
  ArrivalTime (proc (procs st) 0) = 0 /\
  processBurstLeft st = [100000000] /\
  fst (SJF.select st) = -1 /\
  schedule st = [None].
Proof.
  cbv zeta.
  assert (H : procs (Nat.iter n SJF.body (sim_init long_burst)) = long_burst /\
              processBurstLeft (Nat.iter n SJF.body (sim_init long_burst))
                = [INT_MAX] /\
              schedule (Nat.iter n SJF.body (sim_init long_burst)) = [None]).
  { induction n as [|n [Hp [Hl Hs]]]; [repeat split|].
    rewrite Nat.iter_succ.
    destruct (long_burst_body _ Hp Hl) as [Hp' [Hl' Hs']].
    repeat split; auto. congruence. }
  destruct H as [Hp [Hl Hs]].
  rewrite (long_burst_select _ Hp Hl), Hp, Hl, Hs. repeat split.
Qed.

(** C5.  The timeline [SJFSchedule] emits for a single process of burst
    2 is the one slice from 0 to 1: the slice opened on the last timestep
    is never appended, so the durations sum to 1, not to the total burst
    2.  [SJFPrioritySchedule] does the same, and across a gap with
    nothing to run it stretches the earlier slice over the gap: bursts 1
    and 2 give durations summing to 6. *)
Theorem preemptive_timeline_durations :
  option_map (fun r => repGantt (snd r)) (SJFSchedule 2 two_ticks)
    = Some [mkTimeSlice 1 0 1] /\
  option_map (fun r => total_duration (repGantt (snd r)))
    (SJFSchedule 2 two_ticks) = Some 1 /\
  option_map (fun r => total_duration (repGantt (snd r)))
    (SJFPrioritySchedule 2 two_ticks) = Some 1 /\
  total_burst two_ticks = 2 /\
  option_map (fun r => repGantt (snd r)) (SJFPrioritySchedule 7 with_gap)
    = Some [mkTimeSlice 1 0 5; mkTimeSlice 2 5 6] /\
  total_burst with_gap = 3.
Proof. vm_compute. repeat split. Qed.

(** C6.  The timeline [FCFSSchedule] emits for three processes arriving
    together is (0,3), (0,7), (0,9): the slices overlap.  For arrival
    times 1, 3, 0 the start times are 0, 5, 2: they decrease. *)
Theorem fcfs_timeline_overlaps :
  repGantt (snd (FCFSSchedule same_arrival))
    = [mkTimeSlice 1 0 3; mkTimeSlice 2 0 7; mkTimeSlice 3 0 9] /\
  disjoint_slices (repGantt (snd (FCFSSchedule same_arrival))) = false /\
  map Start (repGantt (snd (FCFSSchedule unordered))) = [0; 5; 2] /\
  starts_ordered (repGantt (snd (FCFSSchedule unordered))) = false.
Proof. vm_compute. repeat split. Qed.

(** C7.  For a single process that arrives at 5 and needs 1 unit,
    [FCFSSchedule] reports a waiting time of -5 (and a turnaround of
    -4, completion at 1, before the arrival). *)
Theorem fcfs_negative_wait :
  repRows (snd (FCFSSchedule late_arrival))
    = [Some (mkRow 1 0 1 5 (-5) (-4) 1)].
Proof. vm_compute. reflexivity. Qed.

(** C8, as stated, fails: on the empty list the footer values of
    [FCFSSchedule] are not free of NaN. *)
Lemma empty_input_stats_undefined :
  ~ (repRows (snd (FCFSSchedule [])) = [] /\
     stats_defined (snd (FCFSSchedule [])) = true).
Proof. vm_compute. intros [_ H]. discriminate H. Qed.

(** C8, amended.  On the empty list every scheduler returns at once,
    leaves the list empty and produces no row and no slice; the three
    footer values of [FCFSSchedule], [SJFSchedule] and
    [SJFPrioritySchedule] are all 0/0, that is NaN; [RRSchedule] passes
    the constants 0, 0, 0. *)
Theorem empty_input_reports (fuel : nat) :
  let nothing rep := repRows rep = [] /\ repGantt rep = [] in
  (fst (FCFSSchedule []) = [] /\
   nothing (snd (FCFSSchedule [])) /\
   stats_all_nan (snd (FCFSSchedule [])) = true) /\
  (exists rep, SJFSchedule fuel [] = Some ([], rep) /\
     nothing rep /\ stats_all_nan rep = true) /\
  (exists rep, SJFPrioritySchedule fuel [] = Some ([], rep) /\
     nothing rep /\ stats_all_nan rep = true) /\
  (exists rep, RRSchedule fuel [] = Some ([], rep) /\
     nothing rep /\
     repWait rep = F64.of_int 0 /\ repTurnaround rep = F64.of_int 0 /\
     repThroughput rep = F64.of_int 0).
Proof.
  cbv zeta. split; [vm_compute; repeat split|].
  destruct fuel; (split; [|split]); eexists; vm_compute; repeat split.
Qed.

(** C9, as stated, fails: two bursts of 2^62 are positive and arrive at
    0, but their sum wraps to the least [int], so the loop of
    [SJFSchedule] ends before its first iteration, with the timestep 0
    far from the bound and nothing of the total burst used up. *)
Lemma sjf_overflow_not_exhausted :
  well_formed overflowing /\ ~ sjf_terminates_exhausted overflowing.
Proof.
  split.
  - repeat constructor; simpl; lia.
  - intros [n [st [Hloop [Hend _]]]].
    assert (Hstop : running (sim_init overflowing) = false)
      by (vm_compute; reflexivity).
    assert (Hst : st = sim_init overflowing).
    { unfold SJF.loop in Hloop.
      destruct n; cbn [while] in Hloop; rewrite Hstop in Hloop;
        congruence. }
    subst st. vm_compute in Hend. discriminate Hend.
Qed.

(** C9, amended.  For every list of processes with arrival times >= 0
    and bursts > 0 that are below the constant 100000000, and whose total
    burst plus latest arrival fits an [int], the loop of [SJFSchedule]
    terminates: after [n] iterations, [n] being at most the total burst
    plus the latest arrival, it ends with the timestep equal to [n] and
    to the bound, the bound no less than the original total burst, and
    every remaining burst 0.  On each of these iterations the bound
    grows (by one) only if no process is selected, the remaining bursts
    then being untouched, and every iteration that selects a process
    leaves the bound alone and takes one unit off the total remaining
    work. *)
Theorem sjf_terminates (ps : list Process) :
  well_formed ps -> short_bursts ps -> fits ps ->
  exists n st,
    SJF.loop n ps = Some st /\
    ends_exhausted ps st /\
    timestep st = Z.of_nat n /\
    Z.of_nat n <= total_burst ps + max_arrival ps /\
    (forall i, (i < length ps)%nat -> elem (processBurstLeft st) i = 0) /\
    forall k, (k < n)%nat ->
      let s := Nat.iter k SJF.body (sim_init ps) in
      running s = true /\
      (fst (SJF.select s) = -1 ->
         totalBurstTime (SJF.body s) = totalBurstTime s + 1 /\
         processBurstLeft (SJF.body s) = processBurstLeft s) /\
      (fst (SJF.select s) <> -1 ->
         totalBurstTime (SJF.body s) = totalBurstTime s /\
         sumZ (processBurstLeft (SJF.body s))
           = sumZ (processBurstLeft s) - 1).
Proof.
  intros Hwf Hshort Hfits.
  destruct (simulation_ends ps Hwf Hfits SJF.body
              (sjf_body_tick ps Hfits Hshort))
    as [n [Hsteps [Hloop [Hend [Ht [Hn Hzero]]]]]].
  exists n, (Nat.iter n SJF.body (sim_init ps)).
  repeat (split; [assumption|]).
  intros k Hk. cbv zeta. destruct (Hsteps k Hk) as [Hrun I].
  set (s := Nat.iter k SJF.body (sim_init ps)) in *.
  assert (T := sjf_body_tick ps Hfits Hshort s I Hrun).
  split; [exact Hrun|].
  destruct (sjf_body_cases ps Hshort s I)
    as [[Hsel [Hnone _]]|[j [Hsel [He _]]]].
  - split; [intros _; now apply (tick_idle_facts ps)|]. congruence.
  - split; [lia|]. intros _. now apply (tick_run_facts ps s _ j).
Qed.

(** The specification's SJF example is within these ranges, and its
    simulation ends with the bound exhausted. *)
Lemma sjf_terminates_witness :
  well_formed staggered /\ short_bursts staggered /\ fits staggered /\
  sjf_terminates_exhausted staggered.
Proof.
  assert (Hwf : well_formed staggered) by (repeat constructor; simpl; lia).
  assert (Hshort : short_bursts staggered)
    by (repeat constructor; vm_compute; reflexivity).
  assert (Hfits : fits staggered) by (vm_compute; discriminate).
  repeat (split; [assumption|]).
  destruct (sjf_terminates staggered Hwf Hshort Hfits)
    as [n [st [Hloop [Hend _]]]].
  exists n, st. split; assumption.
Defined.

(** C10, as stated, fails: [RRSchedule] does not change every list it is
    called with.  Two processes with bursts of 2^62 are within the data
    model's ranges, but the total wraps to the least [int], so the main
    loop is never entered, and the two arrive together, so nothing is
    reordered either: the caller's slice is as it was.  So is the empty
    list. *)
Lemma rr_leaves_unchanged :
  (well_formed overflowing /\ overflowing <> []) /\
  (forall fuel,
     option_map fst (RRSchedule fuel overflowing) = Some overflowing) /\
  (forall fuel, option_map fst (RRSchedule fuel []) = Some []).
Proof.
  split; [split; [repeat constructor; simpl; lia|discriminate]|].
  assert (H : forall ps,
    RR.sort ps = ps -> RR.running (RR.init ps) = false ->
    forall fuel, option_map fst (RRSchedule fuel ps) = Some ps).
  { intros ps Hsort Hstop fuel. unfold RRSchedule, RR.loop.
    rewrite Hsort.
    destruct fuel; cbn [while]; rewrite Hstop; reflexivity. }
  split; apply H; vm_compute; reflexivity.
Qed.

(** C10, amended.  [RRSchedule] changes the caller's slice when it is
    called with a non-empty list of processes with arrival times >= 0
    and bursts > 0 whose total burst plus latest arrival fits an [int]:
    its main loop ends, and whenever it has ended the slice holds the
    processes reordered by arrival time (a permutation of the input in
    non-decreasing order of arrival) with every [BurstDuration] counted
    down to 0, so the slice differs from the input; this is before
    anything is printed, and the output helpers are not given the slice.
    [FCFSSchedule], [SJFSchedule] and [SJFPrioritySchedule] never write
    to the slice, whatever the input: it is as it was after any number
    of iterations of their loops, hence whenever a report is handed to
    the output helpers. *)
Theorem rr_mutates_others_preserve (ps : list Process) :
  (well_formed ps -> fits ps -> ps <> [] ->
   (exists fuel st, RR.loop fuel ps = Some st) /\
   (forall fuel st, RR.loop fuel ps = Some st ->
      RR.procs st = spent (RR.sort ps)) /\
   Permutation (RR.sort ps) ps /\
   StronglySorted arrival_le (spent (RR.sort ps)) /\
   Forall (fun p => BurstDuration p = 0) (spent (RR.sort ps)) /\
   spent (RR.sort ps) <> ps) /\
  (forall idxs, FCFS.procs (fold_left FCFS.body idxs (FCFS.init ps)) = ps) /\
  fst (FCFSSchedule ps) = ps /\
  (forall n, procs (Nat.iter n SJF.body (sim_init ps)) = ps) /\
  (forall n, procs (Nat.iter n Prio.body (sim_init ps)) = ps) /\
  (forall fuel ps' rep, SJFSchedule fuel ps = Some (ps', rep) -> ps' = ps) /\
  (forall fuel ps' rep,
     SJFPrioritySchedule fuel ps = Some (ps', rep) -> ps' = ps).
Proof.
  assert (Hframe : forall body fuel ps' rep,
    (forall s, procs (body s) = procs s) ->
    option_map (fun st => (procs st, sim_report st))
      (while running body fuel (sim_init ps)) = Some (ps', rep) ->
    ps' = ps).
  { intros body fuel ps' rep Hb H.
    destruct (while running body fuel (sim_init ps)) as [st|] eqn:Hw;
      [|discriminate].
    simpl in H. injection H as <- _.
    now apply (while_procs body fuel (sim_init ps) st). }
  assert (Hiter : forall body,
    (forall s, procs (body s) = procs s) ->
    forall n, procs (Nat.iter n body (sim_init ps)) = ps).
  { intros body Hb. induction n as [|n IH]; [reflexivity|].
    rewrite Nat.iter_succ, Hb. exact IH. }
  split; [|split; [|split; [|split; [|split; [|split]]]]].
  - intros Hwf Hfits Hne.
    destruct (sort_sorts ps) as [Hlen [Hperm Hsorted]].
    destruct (rr_loop_ends (RR.sort ps)) as [n [st [Hw Hp]]].
    + apply (well_formed_perm ps); [now apply Permutation_sym|exact Hwf].
    + apply (fits_perm ps); [now apply Permutation_sym|exact Hfits].
    + split; [exists n, st; exact Hw|].
      split.
      { intros fuel st' Hw'. unfold RR.loop in Hw'.
        now rewrite (while_unique _ _ _ _ _ _ _ Hw' Hw). }
      split; [exact Hperm|].
      split; [now apply spent_sorted|].
      split; [unfold spent; rewrite Forall_map; now apply Forall_forall|].
      now apply spent_differs.
  - intros idxs. now rewrite fcfs_loop_procs.
  - unfold FCFSSchedule, FCFS.loop. simpl. apply fcfs_loop_procs.
  - apply Hiter, sjf_body_procs.
  - apply Hiter, prio_body_procs.
  - intros fuel ps' rep. apply Hframe, sjf_body_procs.
  - intros fuel ps' rep. apply Hframe, prio_body_procs.
Qed.

(** Three processes out of order of arrival are within these ranges:
    the main loop of [RRSchedule] ends on them, with the slice reordered
    and spent. *)
Lemma rr_mutates_others_preserve_witness :
  (well_formed unordered /\ fits unordered /\ unordered <> []) /\
  (exists fuel st,
     RR.loop fuel unordered = Some st /\
     RR.procs st = spent (RR.sort unordered)) /\
  spent (RR.sort unordered) <> unordered.
Proof.
  assert (Hwf : well_formed unordered) by (repeat constructor; simpl; lia).
  assert (Hfits : fits unordered) by (vm_compute; discriminate).
  assert (Hne : unordered <> []) by discriminate.
  split; [repeat split; assumption|].
  destruct (rr_mutates_others_preserve unordered) as [Hrr _].
  destruct (Hrr Hwf Hfits Hne)
    as [[fuel [st Hloop]] [Hall [_ [_ [_ Hdiff]]]]].
  split; [|exact Hdiff].
  exists fuel, st. split; [exact Hloop|]. now apply (Hall fuel).
Defined.

(** * Further properties of the code *)

(** ** What the selections pick *)

(** X1.  The process [SJFSchedule] selects on a timestep is eligible
    (arrived, with work left), no eligible process has a smaller
    remaining burst, and every eligible process before it in scan order
    has a strictly greater one; it selects none (index -1) only when
    every eligible process has 100000000 or more units left. *)
Theorem sjf_selects_first_shortest (st : Sim) :
  let el := eligible (procs st) (processBurstLeft st) (timestep st) in
  let rem := elem (processBurstLeft st) in
  (fst (SJF.select st) = -1 ->
   forall i, el i -> INT_MAX <= rem i) /\
  (fst (SJF.select st) <> -1 ->
   exists j, fst (SJF.select st) = Z.of_nat j /\ el j /\
     (forall i, el i -> rem j <= rem i) /\
     (forall i, (i < j)%nat -> el i -> rem j < rem i)).
Proof.
  cbv zeta.
  destruct (sjf_select_spec st)
    as [[H1 [_ H3]]|[j [Hj [H1 [_ [He [_ [Hmin Hfirst]]]]]]]].
  - split; [|congruence]. intros _ i Hi. apply H3; [apply Hi|exact Hi].
  - split; [lia|]. intros _. exists j.
    split; [exact H1|]. split; [exact He|]. split.
    + intros i Hi. apply Hmin; [apply Hi|exact Hi].
    + intros i Hi Hel. apply Hfirst; [exact Hi|exact Hel].
Qed.

Lemma prio_scan_least (ps : list Process) (burstLeft : list Z) (t : Z)
  (k : nat) (acc : Z * Z * Z) :
  low_priorities ps -> (k < length ps)%nat ->
  prio_least ps burstLeft t k acc ->
  prio_least ps burstLeft t (S k) (Prio.scan ps burstLeft t acc k).
Proof.
  intros Hlow Hk H. unfold Prio.scan. destruct acc as [[idx best] lp].
  unfold prio_least in *. simpl in H. 
  assert (Hnew : forall i, (i < S k)%nat -> i = k \/ (i < k)%nat) by lia.
  assert (Hl := low_priorities_proc ps Hlow k Hk).
  destruct (Z.leb_spec (elem burstLeft k) 0) as [Hz|Hz];
    [|destruct (Z.ltb_spec t (ArrivalTime (proc ps k))) as [Ha|Ha]].
  1, 2: destruct H as [[H1 [H2 H3]]|[j [Hj [H1 [He [H2 Hmin]]]]]];
    [left; simpl; repeat split; auto; intros i Hi He;
       destruct (Hnew i Hi) as [->|Hi']; [|now apply (H3 i)];
       destruct He as [_ [? ?]]; lia
    |right; exists j; simpl; repeat (split; [solve [auto|lia]|]);
       intros i Hi He'; destruct (Hnew i Hi) as [->|Hi']; auto;
       destruct He' as [_ [? ?]]; lia].
  assert (He : eligible ps burstLeft t k) by (repeat split; auto).
  assert (Htake : forall b : Z,
    (forall i, (i < k)%nat -> eligible ps burstLeft t i ->
       Priority (proc ps k) <= Priority (proc ps i)) ->
    (exists j, (j < S k)%nat /\
       fst (fst (Z.of_nat k, b, Priority (proc ps k))) = Z.of_nat j /\
       eligible ps burstLeft t j /\
       snd (Z.of_nat k, b, Priority (proc ps k)) = Priority (proc ps j) /\
       forall i, (i < S k)%nat -> eligible ps burstLeft t i ->
         Priority (proc ps j) <= Priority (proc ps i))).
  { intros b Hmin. exists k. simpl. repeat (split; [solve [auto|lia]|]).
    intros i Hi He'. destruct (Hnew i Hi) as [->|Hi']; [lia|auto]. }
  destruct (Z.ltb_spec lp (Priority (proc ps k))) as [Hp|Hp].
  - destruct H as [[H1 [H2 H3]]|[j [Hj [H1 [Hej [H2 Hmin]]]]]];
      [simpl in H2; lia|].
    right. exists j. simpl in *. repeat (split; [solve [auto|lia]|]).
    intros i Hi He'. destruct (Hnew i Hi) as [->|Hi']; [lia|auto].
  - destruct (Z.ltb_spec (Priority (proc ps k)) lp) as [Hq|Hq].
    + right. apply Htake.
      destruct H as [[H1 [H2 H3]]|[j [Hj [H1 [Hej [H2 Hmin]]]]]].
      * intros i Hi He'. destruct (H3 i Hi He').
      * intros i Hi He'. specialize (Hmin i Hi He'). simpl in H2. lia.
    + destruct H as [[H1 [H2 H3]]|[j [Hj [H1 [Hej [H2 Hmin]]]]]];
        [simpl in H2; lia|].
      simpl in H2.
      destruct (Z.leb_spec best (elem burstLeft k)) as [Hb|Hb].
      * right. exists j. simpl. repeat (split; [solve [auto|lia]|]).
        intros i Hi He'. destruct (Hnew i Hi) as [->|Hi']; [lia|auto].
      * right. apply Htake. intros i Hi He'.
        specialize (Hmin i Hi He'). lia.
Qed.

Lemma prio_select_least (st : Sim) :
  low_priorities (procs st) ->
  prio_least (procs st) (processBurstLeft st) (timestep st)
    (length (procs st)) (Prio.select st).
Proof.
  intros Hlow. unfold Prio.select.
  assert (H : forall k, (k <= length (procs st))%nat ->
    prio_least (procs st) (processBurstLeft st) (timestep st) k
      (fold_left (Prio.scan (procs st) (processBurstLeft st) (timestep st))
         (seq 0 k) (-1, INT_MAX, INT_MAX))).
  { induction k as [|k IH]; intros Hk.
    - left. simpl. repeat split; auto. intros i Hi. lia.
    - rewrite seq_S, fold_left_app. simpl.
      apply prio_scan_least; auto. apply IH. lia. }
  apply H. lia.
Qed.

(** X2.  When every priority value is below 100000000,
    [SJFPrioritySchedule] selects no process only if none is eligible,
    and the process it selects is eligible and no eligible process has a
    lower priority value. *)
Theorem prio_selects_least_priority (st : Sim) :
  low_priorities (procs st) ->
  let el := eligible (procs st) (processBurstLeft st) (timestep st) in
  (fst (fst (Prio.select st)) = -1 -> forall i, ~ el i) /\
  (fst (fst (Prio.select st)) <> -1 ->
   exists j, fst (fst (Prio.select st)) = Z.of_nat j /\ el j /\
     forall i, el i ->
       Priority (proc (procs st) j) <= Priority (proc (procs st) i)).
Proof.
  intros Hlow. cbv zeta.
  destruct (prio_select_least st Hlow)
    as [[H1 [_ H3]]|[j [Hj [H1 [He [_ Hmin]]]]]].
  - split; [|congruence]. intros _ i Hi. apply (H3 i); [apply Hi|exact Hi].
  - split; [lia|]. intros _. exists j.
    split; [exact H1|]. split; [exact He|].
    intros i Hi. apply Hmin; [apply Hi|exact Hi].
Qed.

(** Two processes are eligible at timestep 3 of the run on
    [same_priority]; the one selected has the least priority value. *)
Lemma prio_selects_least_priority_witness :
  low_priorities same_priority /\
  exists j,
    fst (fst (Prio.select (Nat.iter 3 Prio.body (sim_init same_priority))))
      = Z.of_nat j /\
    eligible same_priority [2; 4] 3 j.
Proof.
  assert (Hlow : low_priorities same_priority)
    by (repeat constructor; vm_compute; reflexivity).
  split; [exact Hlow|].
  destruct (prio_selects_least_priority
              (Nat.iter 3 Prio.body (sim_init same_priority)) Hlow)
    as [_ H].
  destruct H as [j [Hj [He _]]]; [vm_compute; discriminate|].
  exists j. split; [exact Hj|exact He].
Defined.

(** ** Processes that are never run *)

Lemma idle_step_untouched (ps : list Process) (i : nat) (st st1 : Sim) :
  processBurstLeft st1 = processBurstLeft st ->
  schedule st1 = schedule st ->
  untouched ps i st -> untouched ps i (idle_step st1).
Proof. unfold untouched. simpl. intros -> ->. auto. Qed.

Lemma run_step_untouched (ps : list Process) (i j : nat) (st st1 : Sim) :
  j <> i ->
  processBurstLeft st1 = processBurstLeft st ->
  schedule st1 = schedule st ->
  untouched ps i st -> untouched ps i (run_step st1 (Z.of_nat j)).
Proof.
  intros Hji Hl Hs [H1 H2]. unfold untouched.
  destruct (run_step_core st1 (Z.of_nat j)) as [_ [_ [_ Hleft]]].
  rewrite Hleft, run_step_schedule. cbv zeta. rewrite Hleft.
  rewrite Nat2Z.id, Hl, Hs. split.
  - unfold elem. rewrite nth_set_nth_neq; auto.
  - destruct (_ =? 0); auto. rewrite nth_set_nth_neq; auto.
Qed.

Lemma sjf_body_untouched (ps : list Process) (i : nat) (st : Sim) :
  procs st = ps -> INT_MAX <= BurstDuration (proc ps i) ->
  untouched ps i st -> untouched ps i (SJF.body st).
Proof.
  intros Hp Hlong Hu. unfold SJF.body.
  destruct (gantt_step_core st (fst (SJF.select st))) as [_ [_ [_ Hl]]].
  assert (Hs := gantt_step_schedule st (fst (SJF.select st))).
  destruct (sjf_select_spec st)
    as [[H1 _]|[j [_ [H1 [_ [_ [Hlt _]]]]]]]; rewrite H1 in *.
  - simpl. now apply idle_step_untouched with (st := st).
  - replace (Z.of_nat j =? -1) with false by (symmetry; apply Z.eqb_neq; lia).
    apply run_step_untouched with (st := st); auto.
    intros ->. destruct Hu as [Hu _]. lia.
Qed.

Lemma iter_untouched (ps : list Process) (i : nat) (body : Sim -> Sim) :
  (forall st, procs st = ps -> untouched ps i st ->
     procs (body st) = ps /\ untouched ps i (body st)) ->
  (i < length ps)%nat ->
  forall n, procs (Nat.iter n body (sim_init ps)) = ps /\
    untouched ps i (Nat.iter n body (sim_init ps)).
Proof.
  intros Hbody Hi. induction n as [|n [IH1 IH2]].
  - simpl. split; [reflexivity|]. unfold untouched. simpl. split.
    + now apply elem_map_burst.
    + apply nth_repeat.
  - simpl. now apply Hbody.
Qed.

Lemma while_reaches {A : Type} (cond : A -> bool) (body : A -> A)
  (fuel : nat) (s s' : A) :
  while cond body fuel s = Some s' -> exists n, s' = Nat.iter n body s.
Proof.
  revert s. induction fuel as [|f IH]; intros s; simpl.
  - destruct (cond s); [discriminate|]. intros [= <-]. now exists 0%nat.
  - destruct (cond s).
    + intros H. destruct (IH _ H) as [n ->]. exists (S n).
      now rewrite Nat.iter_succ_r.
    + intros [= <-]. now exists 0%nat.
Qed.

(** X3.  [SJFSchedule] never runs a process whose burst is 100000000 or
    more: after any number of iterations its remaining burst is still
    whole and it has no row, and a report that is returned has no row
    for it. *)
Theorem sjf_never_runs_long_bursts (ps : list Process) (i : nat) :
  (i < length ps)%nat -> INT_MAX <= BurstDuration (proc ps i) ->
  (forall n, untouched ps i (Nat.iter n SJF.body (sim_init ps))) /\
  (forall fuel ps' rep, SJFSchedule fuel ps = Some (ps', rep) ->
     nth i (repRows rep) None = None).
Proof.
  intros Hi Hlong.
  assert (H : forall n, procs (Nat.iter n SJF.body (sim_init ps)) = ps /\
            untouched ps i (Nat.iter n SJF.body (sim_init ps))).
  { apply iter_untouched; auto. intros st Hp Hu. split.
    - now rewrite sjf_body_procs.
    - now apply sjf_body_untouched. }
  split; [intros n; apply H|].
  intros fuel ps' rep. unfold SJFSchedule, SJF.loop.
  destruct (while _ _ _ _) as [st|] eqn:Hloop; [|discriminate].
  intros [= _ <-]. destruct (while_reaches _ _ _ _ _ Hloop) as [n ->].
  apply (H n).
Qed.

(** On [long_and_short] the first process is never run, while the
    second completes in the first iteration. *)
Lemma sjf_never_runs_long_bursts_witness :
  ((0 < length long_and_short)%nat /\
   INT_MAX <= BurstDuration (proc long_and_short 0)) /\
  untouched long_and_short 0 (Nat.iter 5 SJF.body (sim_init long_and_short)) /\
  elem (processBurstLeft (Nat.iter 5 SJF.body (sim_init long_and_short))) 1
    = 0.
Proof.
  assert (H1 : (0 < length long_and_short)%nat) by (simpl; lia).
  assert (H2 : INT_MAX <= BurstDuration (proc long_and_short 0))
    by (simpl; lia).
  split; [split; assumption|]. split.
  - apply (sjf_never_runs_long_bursts long_and_short 0 H1 H2).
  - vm_compute. reflexivity.
Defined.

Lemma prio_scan_bounded (ps : list Process) (burstLeft : list Z) (t : Z)
  (k : nat) (acc : Z * Z * Z) :
  prio_bounded ps k acc ->
  prio_bounded ps (S k) (Prio.scan ps burstLeft t acc k).
Proof.
  unfold prio_bounded, Prio.scan. destruct acc as [[idx best] lp]. simpl.
  intros [Hb Hsel].
  assert (Hkeep : lp <= INT_MAX /\
    (idx = -1 \/ exists j, (j < S k)%nat /\ idx = Z.of_nat j /\
       Priority (proc ps j) = lp)).
  { split; [exact Hb|]. destruct Hsel as [H|[j [Hj H]]]; [now left|].
    right. exists j. split; [lia|exact H]. }
  assert (Htake : Priority (proc ps k) <= lp -> forall b : Z,
    snd (Z.of_nat k, b, Priority (proc ps k)) <= INT_MAX /\
    (fst (fst (Z.of_nat k, b, Priority (proc ps k))) = -1 \/
     exists j, (j < S k)%nat /\
       fst (fst (Z.of_nat k, b, Priority (proc ps k))) = Z.of_nat j /\
       Priority (proc ps j)
         = snd (Z.of_nat k, b, Priority (proc ps k)))).
  { intros Hle b. simpl. split; [lia|]. right. exists k. auto. }
  destruct (_ <=? 0); [exact Hkeep|].
  destruct (t <? _); [exact Hkeep|].
  destruct (Z.ltb_spec lp (Priority (proc ps k))); [exact Hkeep|].
  destruct (Z.ltb_spec (Priority (proc ps k)) lp); [apply Htake; lia|].
  destruct (_ <=? _); [exact Hkeep|apply Htake; lia].
Qed.

Lemma prio_select_bounded (st : Sim) :
  prio_bounded (procs st) (length (procs st)) (Prio.select st).
Proof.
  unfold Prio.select.
  generalize (length (procs st)) at 1 2. intros k.
  induction k as [|k IH].
  - simpl. split; simpl; [lia|now left].
  - rewrite seq_S, fold_left_app. simpl. now apply prio_scan_bounded.
Qed.

Lemma prio_body_untouched (ps : list Process) (i : nat) (st : Sim) :
  procs st = ps -> INT_MAX < Priority (proc ps i) ->
  untouched ps i st -> untouched ps i (Prio.body st).
Proof.
  intros Hp Hhigh Hu. unfold Prio.body.
  destruct (prio_select_bounded st) as [Hb [H1|[j [_ [H1 Hj]]]]];
    rewrite H1.
  - simpl. now apply idle_step_untouched with (st := st).
  - replace (Z.of_nat j =? -1) with false by (symmetry; apply Z.eqb_neq; lia).
    destruct (gantt_step_core st (Z.of_nat j)) as [_ [_ [_ Hl]]].
    apply run_step_untouched with (st := st); auto.
    + intros ->. rewrite Hp in Hj. lia.
    + apply gantt_step_schedule.
Qed.

(** X4.  [SJFPrioritySchedule] never runs a process whose priority value
    exceeds 100000000: after any number of iterations its remaining
    burst is still whole and it has no row, and a report that is
    returned has no row for it. *)
Theorem prio_never_runs_high_priorities (ps : list Process) (i : nat) :
  (i < length ps)%nat -> INT_MAX < Priority (proc ps i) ->
  (forall n, untouched ps i (Nat.iter n Prio.body (sim_init ps))) /\
  (forall fuel ps' rep, SJFPrioritySchedule fuel ps = Some (ps', rep) ->
     nth i (repRows rep) None = None).
Proof.
  intros Hi Hhigh.
  assert (H : forall n, procs (Nat.iter n Prio.body (sim_init ps)) = ps /\
            untouched ps i (Nat.iter n Prio.body (sim_init ps))).
  { apply iter_untouched; auto. intros st Hp Hu. split.
    - now rewrite prio_body_procs.
    - now apply prio_body_untouched. }
  split; [intros n; apply H|].
  intros fuel ps' rep. unfold SJFPrioritySchedule, Prio.loop.
  destruct (while _ _ _ _) as [st|] eqn:Hloop; [|discriminate].
  intros [= _ <-]. destruct (while_reaches _ _ _ _ _ Hloop) as [n ->].
  apply (H n).
Qed.

(** On [high_priority] the first process is never run, while the second
    completes in the first iteration. *)
Lemma prio_never_runs_high_priorities_witness :
  ((0 < length high_priority)%nat /\
   INT_MAX < Priority (proc high_priority 0)) /\
  untouched high_priority 0 (Nat.iter 5 Prio.body (sim_init high_priority)) /\
  elem (processBurstLeft (Nat.iter 5 Prio.body (sim_init high_priority))) 1
    = 0.
Proof.
  assert (H1 : (0 < length high_priority)%nat) by (simpl; lia).
  assert (H2 : INT_MAX < Priority (proc high_priority 0))
    by (vm_compute; reflexivity).
  split; [split; assumption|]. split.
  - apply (prio_never_runs_high_priorities high_priority 0 H1 H2).
  - vm_compute. reflexivity.
Defined.

(** ** Results of the preemptive schedulers *)

(** A preemptive simulation ends, and what every iteration preserves
    holds of the state it ends in. *)
Lemma simulation_invariant (ps : list Process) (body : Sim -> Sim)
  (Q : Sim -> Prop) :
  well_formed ps -> fits ps ->
  (forall st, sim_inv ps st -> running st = true -> tick ps st (body st)) ->
  Q (sim_init ps) ->
  (forall st, sim_inv ps st -> running st = true -> Q st -> Q (body st)) ->
  exists n st,
    while running body n (sim_init ps) = Some st /\
    ends_exhausted ps st /\
    timestep st = Z.of_nat n /\
    Z.of_nat n <= total_burst ps + max_arrival ps /\
    (forall i, (i < length ps)%nat -> elem (processBurstLeft st) i = 0) /\
    Q st.
Proof.
  intros Hwf Hfits Hbody Q0 Hstep.
  destruct (simulation_ends ps Hwf Hfits body Hbody)
    as [n [Hsteps [Hloop [Hend [Ht [Hn Hzero]]]]]].
  exists n, (Nat.iter n body (sim_init ps)).
  repeat (split; [assumption|]).
  assert (H : forall k, (k <= n)%nat -> Q (Nat.iter k body (sim_init ps))).
  { induction k as [|k IH]; intros Hk; [exact Q0|].
    rewrite Nat.iter_succ. destruct (Hsteps k ltac:(lia)) as [Hrun I].
    apply Hstep; auto. apply IH. lia. }
  apply H. lia.
Qed.

Lemma ordered_timeline_checks (g : list TimeSlice) :
  ordered_timeline g ->
  disjoint_slices g = true /\ starts_ordered g = true.
Proof.
  intros [Hs Hne]. induction g as [|s [|s' g] IH]; [auto..|].
  inversion Hs as [|? ? Hs' Hall]; subst.
  inversion Hne as [|? ? Hlt Hne']; subst.
  destruct (IH Hs' Hne') as [IH1 IH2].
  inversion Hall as [|? ? Hle _]; subst.
  change (disjoint_slices (s :: s' :: g))
    with ((Stop s <=? Start s') && disjoint_slices (s' :: g)).
  change (starts_ordered (s :: s' :: g))
    with ((Start s <=? Start s') && starts_ordered (s' :: g)).
  rewrite IH1, IH2.
  split; apply andb_true_intro; split; auto; apply Z.leb_le; lia.
Qed.

(** X5.  A timeline that [SJFSchedule] or [SJFPrioritySchedule] returns
    is in order on every input: no slice is empty, each slice stops no
    later than every later slice starts, so start times never decrease
    and no two slices overlap. *)
Theorem preemptive_timelines_ordered (ps ps' : list Process) (fuel : nat)
  (rep : Report) :
  SJFSchedule fuel ps = Some (ps', rep) \/
  SJFPrioritySchedule fuel ps = Some (ps', rep) ->
  ordered_timeline (repGantt rep) /\
  disjoint_slices (repGantt rep) = true /\
  starts_ordered (repGantt rep) = true.
Proof.
  unfold SJFSchedule, SJFPrioritySchedule. intros H.
  assert (Ho : ordered_timeline (repGantt rep)).
  { destruct H as [H|H].
    - destruct (SJF.loop fuel ps) as [st|] eqn:Hloop; [|discriminate].
      injection H as _ <-.
      apply (preemptive_timeline_ordered ps fuel st). now left.
    - destruct (Prio.loop fuel ps) as [st|] eqn:Hloop; [|discriminate].
      injection H as _ <-.
      apply (preemptive_timeline_ordered ps fuel st). now right. }
  split; [exact Ho|]. now apply ordered_timeline_checks.
Qed.

Lemma preemptive_timelines_ordered_witness :
  exists rep,
    SJFSchedule 10 staggered = Some (staggered, rep) /\
    map Start (repGantt rep) = [0; 1; 4; 6] /\
    ordered_timeline (repGantt rep).
Proof.
  destruct (SJFSchedule 10 staggered) as [[ps' rep]|] eqn:H;
    [|vm_compute in H; discriminate].
  assert (Hps : ps' = staggered)
    by (vm_compute in H; injection H as <- _; reflexivity).
  subst ps'. exists rep. split; [reflexivity|]. split.
  - vm_compute in H. injection H as <-. reflexivity.
  - apply (preemptive_timelines_ordered staggered staggered 10 rep).
    left. exact H.
Defined.

(** X6.  For arrival times >= 0, bursts > 0 and priority values below
    100000000, with the total burst plus the latest arrival in the int
    range, the loop of [SJFPrioritySchedule] ends after at most total
    burst + latest arrival iterations with the timestep on the bound and
    every remaining burst 0; an iteration that selects no process
    extends the bound by one and any other takes one unit of work. *)
Theorem prio_terminates (ps : list Process) :
  well_formed ps -> low_priorities ps -> fits ps ->
  exists n st,
    Prio.loop n ps = Some st /\
    ends_exhausted ps st /\
    timestep st = Z.of_nat n /\
    Z.of_nat n <= total_burst ps + max_arrival ps /\
    (forall i, (i < length ps)%nat -> elem (processBurstLeft st) i = 0) /\
    forall k, (k < n)%nat ->
      let s := Nat.iter k Prio.body (sim_init ps) in
      running s = true /\
      (fst (fst (Prio.select s)) = -1 ->
         totalBurstTime (Prio.body s) = totalBurstTime s + 1 /\
         processBurstLeft (Prio.body s) = processBurstLeft s) /\
      (fst (fst (Prio.select s)) <> -1 ->
         totalBurstTime (Prio.body s) = totalBurstTime s /\
         sumZ (processBurstLeft (Prio.body s))
           = sumZ (processBurstLeft s) - 1).
Proof.
  intros Hwf Hlow Hfits.
  destruct (simulation_ends ps Hwf Hfits Prio.body
              (prio_body_tick ps Hlow Hfits))
    as [n [Hsteps [Hloop [Hend [Ht [Hn Hzero]]]]]].
  exists n, (Nat.iter n Prio.body (sim_init ps)).
  repeat (split; [assumption|]).
  intros k Hk. cbv zeta. destruct (Hsteps k Hk) as [Hrun I].
  set (s := Nat.iter k Prio.body (sim_init ps)) in *.
  assert (T := prio_body_tick ps Hlow Hfits s I Hrun).
  split; [exact Hrun|].
  destruct (prio_body_cases ps Hlow s I)
    as [[Hsel [Hnone _]]|[j [Hsel [He _]]]].
  - split; [intros _; now apply (tick_idle_facts ps)|]. congruence.
  - split; [lia|]. intros _. now apply (tick_run_facts ps s _ j).
Qed.

Lemma prio_terminates_witness :
  (well_formed same_priority /\ low_priorities same_priority /\
   fits same_priority) /\
  exists n st, Prio.loop n same_priority = Some st /\
    ends_exhausted same_priority st.
Proof.
  assert (Hwf : well_formed same_priority)
    by (repeat constructor; simpl; lia).
  assert (Hlow : low_priorities same_priority)
    by (repeat constructor; vm_compute; reflexivity).
  assert (Hfits : fits same_priority) by (vm_compute; discriminate).
  split; [repeat split; assumption|].
  destruct (prio_terminates same_priority Hwf Hlow Hfits)
    as [n [st [Hloop [Hend _]]]].
  exists n, st. split; assumption.
Defined.

(** X7.  On inputs in the data model's ranges (bursts below 100000000
    for [SJFSchedule], priority values below 100000000 for
    [SJFPrioritySchedule]) the simulation loop ends, and whenever it has
    ended the rows hold a row for every process, with wait >= 0,
    turnaround = wait + burst and wait = completion - arrival - burst;
    these are the rows of any report handed to the output helpers. *)
Theorem preemptive_rows_complete (ps : list Process) :
  well_formed ps -> fits ps ->
  (short_bursts ps ->
   (exists fuel st, SJF.loop fuel ps = Some st) /\
   (forall fuel st, SJF.loop fuel ps = Some st ->
      complete_rows ps (schedule st)) /\
   forall fuel ps' rep, SJFSchedule fuel ps = Some (ps', rep) ->
     complete_rows ps (repRows rep)) /\
  (low_priorities ps ->
   (exists fuel st, Prio.loop fuel ps = Some st) /\
   (forall fuel st, Prio.loop fuel ps = Some st ->
      complete_rows ps (schedule st)) /\
   forall fuel ps' rep, SJFPrioritySchedule fuel ps = Some (ps', rep) ->
     complete_rows ps (repRows rep)).
Proof.
  intros Hwf Hfits.
  destruct (preemptive_rows ps Hwf Hfits) as [Hsjf Hprio].
  unfold SJFSchedule, SJFPrioritySchedule.
  split; intros H.
  - destruct (Hsjf H) as [n [st [Hloop Hrows]]].
    assert (Hall : forall fuel st', SJF.loop fuel ps = Some st' ->
              complete_rows ps (schedule st')).
    { intros fuel st' Hloop'.
      now rewrite (while_unique _ _ _ _ _ _ _ Hloop' Hloop). }
    split; [exists n, st; exact Hloop|]. split; [exact Hall|].
    intros fuel ps' rep.
    destruct (SJF.loop fuel ps) as [st'|] eqn:Hloop'; [|discriminate].
    intros [= _ <-]. now apply (Hall fuel).
  - destruct (Hprio H) as [n [st [Hloop Hrows]]].
    assert (Hall : forall fuel st', Prio.loop fuel ps = Some st' ->
              complete_rows ps (schedule st')).
    { intros fuel st' Hloop'.
      now rewrite (while_unique _ _ _ _ _ _ _ Hloop' Hloop). }
    split; [exists n, st; exact Hloop|]. split; [exact Hall|].
    intros fuel ps' rep.
    destruct (Prio.loop fuel ps) as [st'|] eqn:Hloop'; [|discriminate].
    intros [= _ <-]. now apply (Hall fuel).
Qed.

Lemma preemptive_rows_complete_witness :
  (well_formed staggered /\ fits staggered /\ short_bursts staggered /\
   low_priorities staggered) /\
  (exists fuel st, SJF.loop fuel staggered = Some st /\
     complete_rows staggered (schedule st)) /\
  (exists fuel st, Prio.loop fuel staggered = Some st /\
     complete_rows staggered (schedule st)).
Proof.
  assert (Hwf : well_formed staggered) by (repeat constructor; simpl; lia).
  assert (Hshort : short_bursts staggered)
    by (repeat constructor; vm_compute; reflexivity).
  assert (Hlow : low_priorities staggered)
    by (repeat constructor; vm_compute; reflexivity).
  assert (Hfits : fits staggered) by (vm_compute; discriminate).
  split; [repeat split; assumption|].
  destruct (preemptive_rows_complete staggered Hwf Hfits) as [Hs Hp].
  destruct (Hs Hshort) as [[fuel [st Hloop]] [Hall _]].
  destruct (Hp Hlow) as [[fuel' [st' Hloop']] [Hall' _]].
  split.
  - exists fuel, st. split; [exact Hloop|]. now apply (Hall fuel).
  - exists fuel', st'. split; [exact Hloop'|]. now apply (Hall' fuel').
Defined.

(** ** The work the timeline of [SJFSchedule] shows *)

Lemma total_duration_app (g : list TimeSlice) (s : TimeSlice) :
  total_duration (g ++ [s]) = total_duration g + duration s.
Proof.
  unfold total_duration. induction g as [|x g IH]; simpl; lia.
Qed.

Lemma run_step_index (st : Sim) (idx : Z) :
  lastGantIndex (run_step st idx) = lastGantIndex st.
Proof. unfold run_step. cbv zeta. destruct (_ =? 0); reflexivity. Qed.

(** Closing and opening slices neither adds nor loses work, and leaves
    the selection as the index of the open slice. *)
Lemma gantt_step_chart (st : Sim) (idx : Z) :
  Int.min_int < totalBurstTime st <= Int.max_int ->
  let st1 := gantt_step st idx in
  lastGantIndex st1 = idx /\
  total_duration (gantt st1)
    + (if idx =? -1 then 0 else timestep st - lastGantStartTime st1)
    = total_duration (gantt st) + open_slice st /\
  (timestep st = totalBurstTime st - 1 ->
   lastGantStartTime st1 = timestep st).
Proof.
  intros Hr. cbv zeta. unfold gantt_step, open_slice.
  rewrite (sub_id (totalBurstTime st) 1) by int_range.
  destruct (Z.eqb_spec (lastGantIndex st) idx) as [He|Hne];
    [destruct (Z.eqb_spec (timestep st) (totalBurstTime st - 1)) as [Hl|Hl]|];
    simpl.
  - subst idx. split; [reflexivity|]. split; [|reflexivity].
    destruct (lastGantIndex st =? -1); simpl; [lia|].
    rewrite total_duration_app. unfold duration. simpl. lia.
  - subst idx. split; [reflexivity|]. split; [reflexivity|]. intros. lia.
  - split; [reflexivity|]. split; [|reflexivity].
    destruct (lastGantIndex st =? -1); simpl.
    + destruct (idx =? -1); lia.
    + rewrite total_duration_app. unfold duration. simpl.
      destruct (idx =? -1); lia.
Qed.

Lemma charted_init (ps : list Process) :
  well_formed ps -> fits ps -> ps <> [] -> charted ps (sim_init ps).
Proof.
  intros Hwf Hfits Hne. unfold charted, open_slice, running. simpl.
  split; [unfold total_duration, total_burst; simpl; lia|].
  assert (Hm := max_arrival_nonneg ps).
  rewrite fold_add_bursts; unfold fits in Hfits; auto; try lia.
  intros H. apply Z.ltb_ge in H. exfalso.
  destruct ps as [|p ps]; [congruence|].
  inversion Hwf as [|? ? [_ Hp] Hwf']; subst.
  assert (Hb := total_burst_nonneg ps Hwf').
  unfold total_burst in *. simpl in H. lia.
Qed.

Lemma sjf_body_charted (ps : list Process) (st : Sim) :
  fits ps -> short_bursts ps ->
  sim_inv ps st -> running st = true -> charted ps st ->
  charted ps (SJF.body st).
Proof.
  intros Hfits Hshort I Hrun [Hd _].
  assert (T := sjf_body_tick ps Hfits Hshort st I Hrun).
  destruct (inv_in_range ps Hfits st I) as [Ht [Hmax [Hsum Hle]]].
  assert (Hrun' := Hrun). unfold running in Hrun'. apply Z.ltb_lt in Hrun'.
  assert (Hr : Int.min_int < totalBurstTime st <= Int.max_int) by int_range.
  unfold charted, open_slice, running.
  destruct (sjf_body_cases ps Hshort st I)
    as [[Hsel [Hnone Hb]]|[j [Hsel [He Hb]]]].
  - destruct (gantt_step_chart st (-1) Hr) as [Hi [Hdur _]].
    destruct (tick_idle_facts ps st _ T Hnone) as [Htot Hleft].
    assert (Hts : timestep (SJF.body st) = timestep st + 1)
      by (destruct T; assumption).
    rewrite Htot, Hts, Hleft. rewrite Hb. simpl. rewrite Hi. simpl.
    simpl in Hdur. split; [lia|]. intros H. apply Z.ltb_ge in H. lia.
  - destruct (gantt_step_chart st (Z.of_nat j) Hr) as [Hi [Hdur Hlast]].
    destruct (tick_run_facts ps st _ j I T He) as [Htot Hleft].
    assert (Hts : timestep (SJF.body st) = timestep st + 1)
      by (destruct T; assumption).
    rewrite Htot, Hts, Hleft. rewrite Hb.
    rewrite run_step_index, Hi.
    destruct (run_step_fields (gantt_step st (Z.of_nat j)) (Z.of_nat j))
      as [Hg [Hs _]].
    rewrite Hg, Hs.
    replace (Z.of_nat j =? -1) with false in *
      by (symmetry; apply Z.eqb_neq; lia).
    split; [lia|]. intros H. apply Z.ltb_ge in H.
    rewrite Hlast by lia. lia.
Qed.

(** X8.  For a non-empty input with arrival times >= 0 and bursts > 0
    and below 100000000, in the int range, the loop of [SJFSchedule]
    ends, and whenever it has ended the durations of the timeline sum
    to the total burst minus one: the slice opened on the last timestep
    is never appended.  This is the timeline of any report handed to
    the output helpers. *)
Theorem sjf_timeline_misses_last_tick (ps : list Process) :
  well_formed ps -> short_bursts ps -> fits ps -> ps <> [] ->
  (exists fuel st, SJF.loop fuel ps = Some st) /\
  (forall fuel st, SJF.loop fuel ps = Some st ->
     total_duration (gantt st) = total_burst ps - 1) /\
  forall fuel ps' rep, SJFSchedule fuel ps = Some (ps', rep) ->
    total_duration (repGantt rep) = total_burst ps - 1.
Proof.
  intros Hwf Hshort Hfits Hne.
  destruct (simulation_invariant ps SJF.body (charted ps) Hwf Hfits)
    as [n [st [Hloop [_ [_ [_ [Hzero [Hd Hopen]]]]]]]].
  - now apply sjf_body_tick.
  - now apply charted_init.
  - intros s. now apply sjf_body_charted.
  - assert (Hlen : length (processBurstLeft st) = length ps).
    { eapply (while_invariant (sim_inv ps) running) in Hloop.
      - apply Hloop.
      - intros s I Hrun. apply (tick_inv ps Hfits s); auto.
        now apply sjf_body_tick.
      - now apply sim_init_inv. }
    assert (Hsum : sumZ (processBurstLeft st) = 0).
    { assert (H0 : forall i, (i < length (processBurstLeft st))%nat ->
                elem (processBurstLeft st) i = 0)
        by (intros i Hi; apply Hzero; lia).
      clear - H0. induction (processBurstLeft st) as [|x l IH]; [reflexivity|].
      unfold sumZ in *. simpl.
      assert (Hx := H0 0%nat ltac:(simpl; lia)). unfold elem in Hx.
      simpl in Hx. rewrite IH; [lia|].
      intros i Hi. apply (H0 (S i)). simpl. lia. }
    assert (Hstop : running st = false).
    { eapply (while_invariant (fun _ => True) running) in Hloop; auto.
      apply Hloop. }
    specialize (Hopen Hstop).
    assert (Hall : forall fuel st', SJF.loop fuel ps = Some st' ->
              total_duration (gantt st') = total_burst ps - 1).
    { intros fuel st' Hloop'. unfold SJF.loop in Hloop'.
      rewrite (while_unique _ _ _ _ _ _ _ Hloop' Hloop). lia. }
    split; [exists n, st; exact Hloop|]. split; [exact Hall|].
    intros fuel ps' rep. unfold SJFSchedule.
    destruct (SJF.loop fuel ps) as [st'|] eqn:Hloop'; [|discriminate].
    intros [= _ <-]. now apply (Hall fuel).
Qed.

Lemma sjf_timeline_misses_last_tick_witness :
  (well_formed staggered /\ short_bursts staggered /\ fits staggered /\
   staggered <> []) /\
  total_burst staggered = 10 /\
  exists st, SJF.loop 10 staggered = Some st /\
    total_duration (gantt st) = 9.
Proof.
  assert (Hwf : well_formed staggered) by (repeat constructor; simpl; lia).
  assert (Hshort : short_bursts staggered)
    by (repeat constructor; vm_compute; reflexivity).
  assert (Hfits : fits staggered) by (vm_compute; discriminate).
  assert (Hne : staggered <> []) by discriminate.
  split; [repeat split; assumption|]. split; [reflexivity|].
  destruct (SJF.loop 10 staggered) as [st|] eqn:H;
    [|vm_compute in H; discriminate].
  exists st. split; [reflexivity|].
  change 9 with (total_burst staggered - 1).
  destruct (sjf_timeline_misses_last_tick staggered Hwf Hshort Hfits Hne)
    as [_ [Hall _]].
  apply (Hall 10%nat st H).
Defined.

(** ** The timeline of [SJFPrioritySchedule] has no gaps *)

Lemma contiguous_snoc (g : list TimeSlice) (s : TimeSlice) :
  contiguous g -> (g <> [] -> Stop (last g noSlice) = Start s) ->
  contiguous (g ++ [s]).
Proof.
  induction g as [|x [|y g] IH]; intros Hc Hl.
  - exact I.
  - simpl. split; [|exact I]. apply Hl. discriminate.
  - destruct Hc as [Hxy Hc]. split; [exact Hxy|].
    apply IH; [exact Hc|]. intros _. apply Hl. discriminate.
Qed.

Lemma gantt_step_joined (st : Sim) (idx : Z) :
  idx <> -1 -> joined st -> joined (gantt_step st idx).
Proof.
  intros Hidx [Hc Hl]. unfold gantt_step.
  destruct (negb (lastGantIndex st =? idx)
            || (timestep st =? Int.sub (totalBurstTime st) 1));
    [|split; assumption].
  unfold joined. simpl.
  destruct (Z.eqb_spec (lastGantIndex st) (-1)) as [He|Hne]; simpl.
  - split; [exact Hc|]. intros Hg. destruct (Hl Hg) as [H _]. congruence.
  - split.
    + apply contiguous_snoc; [exact Hc|]. intros Hg. apply (Hl Hg).
    + intros _. split; [exact Hidx|]. now rewrite last_last.
Qed.

Lemma prio_body_joined (st : Sim) : joined st -> joined (Prio.body st).
Proof.
  intros J. unfold Prio.body.
  destruct (Z.eqb_spec (fst (fst (Prio.select st))) (-1)) as [He|Hne].
  - exact J.
  - apply (gantt_step_joined st _ Hne) in J.
    unfold joined in *.
    destruct (run_step_fields (gantt_step st (fst (fst (Prio.select st))))
                (fst (fst (Prio.select st)))) as [Hg [Hs _]].
    now rewrite Hg, Hs, run_step_index.
Qed.

(** X9.  In a timeline that [SJFPrioritySchedule] returns every slice
    starts where its predecessor stops, on every input: the timesteps on
    which no process was eligible are not shown as gaps, but are charged
    to the slice that was open. *)
Theorem prio_timeline_contiguous (ps ps' : list Process) (fuel : nat)
  (rep : Report) :
  SJFPrioritySchedule fuel ps = Some (ps', rep) ->
  contiguous (repGantt rep).
Proof.
  unfold SJFPrioritySchedule, Prio.loop.
  destruct (while _ _ _ _) as [st|] eqn:Hloop; [|discriminate].
  intros [= _ <-]. simpl.
  eapply (while_invariant joined running) in Hloop.
  - apply Hloop.
  - intros s J _. now apply prio_body_joined.
  - split; [exact I|]. simpl. congruence.
Qed.

(** On [with_gap] nothing can run from time 1 to time 5; the slice of the
    first process covers the gap. *)
Lemma prio_timeline_contiguous_witness :
  exists rep,
    SJFPrioritySchedule 7 with_gap = Some (with_gap, rep) /\
    repGantt rep = [mkTimeSlice 1 0 5; mkTimeSlice 2 5 6] /\
    contiguous (repGantt rep).
Proof.
  destruct (SJFPrioritySchedule 7 with_gap) as [[ps' rep]|] eqn:H;
    [|vm_compute in H; discriminate].
  assert (Hps : ps' = with_gap)
    by (vm_compute in H; injection H as <- _; reflexivity).
  subst ps'. exists rep. split; [reflexivity|]. split.
  - vm_compute in H. injection H as <-. reflexivity.
  - apply (prio_timeline_contiguous with_gap with_gap 7 rep H).
Defined.

(** ** [FCFSSchedule] serves back to back *)

Lemma total_burst_cons (p : Process) (ps : list Process) :
  total_burst (p :: ps) = BurstDuration p + total_burst ps.
Proof. reflexivity. Qed.

Lemma burst_before_succ (ps : list Process) (i : nat) :
  (i < length ps)%nat ->
  burst_before ps (S i) = burst_before ps i + BurstDuration (proc ps i).
Proof.
  unfold burst_before, proc. revert i.
  induction ps as [|p ps IH]; intros i Hi; [simpl in Hi; lia|].
  destruct i as [|i].
  - cbn [firstn nth]. rewrite total_burst_cons. lia.
  - change (firstn (S (S i)) (p :: ps)) with (p :: firstn (S i) ps).
    change (firstn (S i) (p :: ps)) with (p :: firstn i ps).
    change (nth (S i) (p :: ps) noProcess) with (nth i ps noProcess).
    rewrite !total_burst_cons.
    rewrite IH by (simpl in Hi; lia). lia.
Qed.

Lemma burst_before_le (ps : list Process) (i : nat) :
  well_formed ps -> burst_before ps i <= total_burst ps.
Proof.
  unfold burst_before. intros Hwf. revert i.
  induction Hwf as [|p ps [_ Hp] Hwf IH]; intros [|i].
  - simpl. lia.
  - simpl. lia.
  - change (firstn 0 (p :: ps)) with (@nil Process).
    rewrite total_burst_cons.
    assert (H := total_burst_nonneg ps Hwf). change (total_burst []) with 0.
    lia.
  - change (firstn (S i) (p :: ps)) with (p :: firstn i ps).
    rewrite !total_burst_cons. specialize (IH i). lia.
Qed.

Lemma burst_before_range (ps : list Process) (i : nat) :
  well_formed ps -> 0 <= burst_before ps i <= total_burst ps.
Proof.
  intros Hwf. split; [|now apply burst_before_le].
  unfold burst_before. apply total_burst_nonneg.
  unfold well_formed in *. rewrite <- (firstn_skipn i ps) in Hwf.
  apply Forall_app in Hwf. apply Hwf.
Qed.

(** X10.  When arrival times are >= 0, bursts > 0, the total burst is in
    the int range and every process but the first has a positive arrival
    time, [FCFSSchedule] serves the processes back to back in input
    order from time 0, whether or not they have arrived: the slice of
    the i-th process runs from the sum of the earlier bursts to that sum
    plus its own burst, its wait is that sum minus its arrival time
    (negative when it arrives later), and its completion is the end of
    its slice. *)
Theorem fcfs_back_to_back (ps : list Process) :
  well_formed ps -> fits ps -> later_arrivals ps ->
  let rep := snd (FCFSSchedule ps) in
  length (repRows rep) = length ps /\
  length (repGantt rep) = length ps /\
  forall i, (i < length ps)%nat ->
    nth i (repRows rep) None = Some (back_to_back_row ps i) /\
    nth i (repGantt rep) noSlice = back_to_back_slice ps i.
Proof.
  intros Hwf Hfits Hlater. cbv zeta. unfold FCFSSchedule, FCFS.loop. simpl.
  assert (Hm := max_arrival_nonneg ps). unfold fits in Hfits.
  assert (H : forall k, (k <= length ps)%nat ->
    let st := fold_left FCFS.body (seq 0 k) (FCFS.init ps) in
    FCFS.serviceTime st = burst_before ps k /\
    (k = 0%nat -> FCFS.waitingTime st = 0) /\
    length (FCFS.schedule st) = length ps /\
    length (FCFS.gantt st) = k /\
    forall i, (i < k)%nat ->
      nth i (FCFS.schedule st) None = Some (back_to_back_row ps i) /\
      nth i (FCFS.gantt st) noSlice = back_to_back_slice ps i).
  { induction k as [|k IH]; intros Hk; cbv zeta.
    - simpl. split; [reflexivity|]. split; [reflexivity|].
      split; [apply repeat_length|]. split; [reflexivity|].
      intros i Hi. lia.
    - rewrite seq_S, fold_left_app. simpl.
      destruct (IH ltac:(lia)) as [Hs [Hw [Hlen [Hg Hrows]]]].
      set (st := fold_left FCFS.body (seq 0 k) (FCFS.init ps)) in *.
      assert (Hp : FCFS.procs st = ps) by apply fcfs_loop_procs.
      rewrite length_set_nth, length_app, Hp, Hg, Hs.
      destruct (well_formed_proc ps k Hwf ltac:(lia)) as [Ha Hb].
      assert (Hr := burst_before_range ps k Hwf).
      assert (Hr' := burst_before_range ps (S k) Hwf).
      assert (Hsucc := burst_before_succ ps k ltac:(lia)).
      assert (Hwait :
        (if 0 <? ArrivalTime (proc ps k)
         then Int.sub (burst_before ps k) (ArrivalTime (proc ps k))
         else FCFS.waitingTime st)
        = burst_before ps k - ArrivalTime (proc ps k)).
      { destruct (Z.ltb_spec 0 (ArrivalTime (proc ps k))) as [Hpos|Hz].
        - assert (Hmax := max_arrival_ge ps k ltac:(lia)).
          apply sub_id. int_range.
        - destruct (Nat.eq_dec k 0) as [->|Hk0].
          + rewrite Hw by reflexivity. unfold burst_before. simpl.
            unfold total_burst, sumZ. simpl. lia.
          + assert (Hl := Hlater k ltac:(lia)). lia. }
      rewrite Hwait.
      assert (Hmax := max_arrival_ge ps k ltac:(lia)).
      rewrite (add_id (burst_before ps k) (BurstDuration (proc ps k)))
        by int_range.
      rewrite (add_id (burst_before ps k - ArrivalTime (proc ps k))
                 (ArrivalTime (proc ps k))) by int_range.
      rewrite (add_id (BurstDuration (proc ps k))
                 (burst_before ps k - ArrivalTime (proc ps k)))
        by int_range.
      rewrite (add_id (BurstDuration (proc ps k))
                 (ArrivalTime (proc ps k))) by int_range.
      rewrite (add_id (BurstDuration (proc ps k) + ArrivalTime (proc ps k))
                 (burst_before ps k - ArrivalTime (proc ps k)))
        by int_range.
      split; [lia|]. split; [intros; lia|].
      split; [exact Hlen|]. split; [simpl; lia|]. intros i Hi.
      destruct (Nat.eq_dec i k) as [->|Hne].
      + rewrite nth_set_nth_eq by lia.
        rewrite app_nth2 by lia. rewrite Hg, Nat.sub_diag. simpl.
        unfold back_to_back_row, back_to_back_slice. rewrite Hsucc.
        split; [do 2 f_equal; lia|f_equal; lia].
      + rewrite nth_set_nth_neq by auto. rewrite app_nth1 by lia.
        apply Hrows. lia. }
  destruct (H (length ps) (Nat.le_refl _)) as [_ [_ [Hlen [Hg Hrows]]]].
  auto.
Qed.

Lemma fcfs_back_to_back_witness :
  (well_formed staggered /\ fits staggered /\ later_arrivals staggered) /\
  map Start (repGantt (snd (FCFSSchedule staggered))) = [0; 5; 8] /\
  nth 1 (repGantt (snd (FCFSSchedule staggered))) noSlice
    = back_to_back_slice staggered 1.
Proof.
  assert (Hwf : well_formed staggered) by (repeat constructor; simpl; lia).
  assert (Hfits : fits staggered) by (vm_compute; discriminate).
  assert (Hlater : later_arrivals staggered).
  { intros i Hi. simpl in Hi.
    destruct i as [|[|[|i]]]; simpl; try lia. }
  split; [repeat split; assumption|]. split; [reflexivity|].
  destruct (fcfs_back_to_back staggered Hwf Hfits Hlater) as [_ [_ H]].
  apply (H 1%nat). simpl. lia.
Defined.

(** ** The report of [RRSchedule] *)

Lemma fits_exit_fits (ps : list Process) : fits_exit ps -> fits ps.
Proof. unfold fits_exit, fits. lia. Qed.

Lemma rr_eligible_dec (st : RR.State) (i : nat) :
  rr_eligible st i \/ ~ rr_eligible st i.
Proof.
  unfold rr_eligible.
  destruct (Z_le_gt_dec (ArrivalTime (proc (RR.procs st) i))
              (RR.timestep st));
    destruct (Z_lt_le_dec 0 (BurstDuration (proc (RR.procs st) i)));
    [left; auto|right; lia..].
Qed.

Section RoundRobinReport.

Variable sorted : list Process.
Hypothesis Hwf : well_formed sorted.
Hypothesis Hfits : fits_exit sorted.

Lemma rr_chart_init : rr_chart sorted (RR.init sorted).
Proof.
  unfold rr_chart. simpl.
  split; [reflexivity|]. split; [apply repeat_length|].
  split; [constructor|]. split; [constructor|]. split; [lia|].
  intros i Hi. now rewrite nth_repeat.
Qed.

Lemma pass_chart (st : RR.State) (i : nat) :
  rr_inv sorted st -> rr_chart sorted st -> (i < length sorted)%nat ->
  rr_chart sorted (RR.pass st i).
Proof.
  intros I C Hi.
  destruct (rr_eligible_dec st i) as [He|He];
    [|now rewrite (pass_skip st i He)].
  destruct (pass_run sorted (fits_exit_fits sorted Hfits) st i I Hi He)
    as [I' _].
  assert (Hnn := rr_bursts_nonneg sorted st I).
  assert (Hwork := rr_work_bounded sorted st I).
  destruct He as [Harr Hpos].
  destruct I as [Hlen [Hp [Ht [Htot Hbound]]]].
  destruct C as [Hinit [Hslen [Hunit [Hsorted [Hcount Hrows]]]]].
  assert (Hi' : (i < length (map BurstDuration (RR.procs st)))%nat)
    by (rewrite length_map; lia).
  assert (Hle := elem_le_sumZ _ i Hnn Hi').
  rewrite elem_map_burst in Hle by lia.
  fold (total_burst (RR.procs st)) in Hle.
  destruct (Hp i Hi) as [Heq Hb].
  destruct (well_formed_proc sorted i Hwf Hi) as [Ha0 Hb0].
  assert (Hid : ProcessID (proc (RR.procs st) i) = ProcessID (proc sorted i))
    by (rewrite Heq; reflexivity).
  assert (Hpr : Priority (proc (RR.procs st) i) = Priority (proc sorted i))
    by (rewrite Heq; reflexivity).
  assert (Har : ArrivalTime (proc (RR.procs st) i)
                = ArrivalTime (proc sorted i))
    by (rewrite Heq; reflexivity).
  assert (Hbi : elem (RR.processBurstInit st) i
                = BurstDuration (proc sorted i))
    by (rewrite Hinit; now apply elem_map_burst).
  assert (Hmax := max_arrival_ge sorted i Hi).
  assert (Hdone : ArrivalTime (proc sorted i)
            + (BurstDuration (proc sorted i)
               - BurstDuration (proc (RR.procs st) i)) <= RR.timestep st).
  { specialize (Hrows i Hi).
    destruct (nth i (RR.schedule st) None) as [r|]; [|lia].
    destruct Hrows as [s [Hin [_ [_ Hs]]]].
    assert (Hu := proj1 (Forall_forall _ _) Hunit s Hin).
    unfold unit_slice in Hu. lia. }
  unfold fits_exit in Hfits.
  unfold RR.pass.
  destruct (Z.ltb_spec (RR.timestep st) (ArrivalTime (proc (RR.procs st) i)));
    [lia|].
  destruct (Z.leb_spec (BurstDuration (proc (RR.procs st) i)) 0); [lia|].
  rewrite Hid, Hpr, Har, Hbi.
  rewrite (add_id (RR.timestep st) 1) by int_range.
  rewrite (add_id (RR.timestep st + 1) 1) by int_range.
  rewrite (sub_id (RR.timestep st + 1) 1) by int_range.
  rewrite (sub_id (BurstDuration (proc (RR.procs st) i)) 1) by int_range.
  rewrite (sub_id (RR.timestep st + 1 + 1) (ArrivalTime (proc sorted i)))
    by int_range.
  rewrite (sub_id (RR.timestep st + 1 + 1 - ArrivalTime (proc sorted i))
             (BurstDuration (proc sorted i))) by int_range.
  unfold rr_chart. simpl.
  rewrite length_set_nth, length_app, total_burst_set_nth by lia. simpl.
  split; [exact Hinit|]. split; [exact Hslen|].
  split.
  { apply Forall_app. split.
    - eapply Forall_impl; [|exact Hunit]. unfold unit_slice. simpl.
      intros s Hs. lia.
    - constructor; [|constructor]. unfold unit_slice. simpl. lia. }
  split.
  { apply StronglySorted_snoc; [exact Hsorted|].
    eapply Forall_impl; [|exact Hunit]. unfold unit_slice. simpl.
    intros s Hs. lia. }
  split; [lia|].
  intros k Hk. rewrite proc_set_nth by lia.
  destruct (Nat.eqb_spec k i) as [->|Hne].
  - rewrite nth_set_nth_eq by lia. eexists. split.
    + apply in_or_app. right. left. reflexivity.
    + simpl. split; [reflexivity|]. split; [|lia].
      unfold row_of. f_equal; lia.
  - rewrite nth_set_nth_neq by auto. specialize (Hrows k Hk).
    destruct (nth k (RR.schedule st) None) as [r|]; [|exact Hrows].
    destruct Hrows as [s [Hin Hs]]. exists s.
    split; [apply in_or_app; now left|exact Hs].
Qed.

Lemma pass_fold_chart (st0 : RR.State) (k : nat) :
  rr_inv sorted st0 -> RR.ranProcess st0 = false ->
  rr_chart sorted st0 -> (k <= length sorted)%nat ->
  rr_chart sorted (fold_left RR.pass (seq 0 k) st0).
Proof.
  intros I0 Hran C0. induction k as [|k IH]; intros Hk; [exact C0|].
  rewrite seq_S, fold_left_app. simpl.
  apply pass_chart; [|apply IH; lia|lia].
  apply (pass_fold sorted (fits_exit_fits sorted Hfits) st0 k I0 Hran).
  lia.
Qed.

Lemma rr_body_chart (st : RR.State) :
  rr_inv sorted st -> RR.running st = true -> rr_chart sorted st ->
  rr_chart sorted (RR.body st).
Proof.
  intros I Hrun C. unfold RR.body.
  set (st0 := RR.mkState (RR.procs st) (RR.timestep st)
                (RR.totalBurstTime st) (RR.processBurstInit st) false
                (RR.schedule st) (RR.gantt st)).
  assert (I0 : rr_inv sorted st0) by exact I.
  assert (C0 : rr_chart sorted st0) by exact C.
  assert (Hlen0 : length (RR.procs st0) = length sorted) by apply I.
  assert (C1 := pass_fold_chart st0 (length (RR.procs st0)) I0 eq_refl C0
                  ltac:(lia)).
  destruct (pass_fold sorted (fits_exit_fits sorted Hfits) st0
              (length (RR.procs st0)) I0 eq_refl ltac:(lia))
    as [I1 [Htot [_ Hsame]]].
  set (st1 := fold_left RR.pass (seq 0 (length (RR.procs st0))) st0) in *.
  destruct (RR.ranProcess st1) eqn:Hr; [exact C1|].
  destruct (Hsame eq_refl) as [Heq _]. rewrite Heq. simpl.
  unfold RR.running in Hrun. apply Z.ltb_lt in Hrun.
  assert (Hwork := rr_work_bounded sorted st I).
  destruct I as [Hlen [Hp [Ht [Htotal Hbound]]]].
  destruct C as [Hinit [Hslen [Hunit [Hsorted [Hcount Hrows]]]]].
  unfold fits_exit in Hfits.
  rewrite (add_id (RR.timestep st) 1) by int_range.
  unfold rr_chart. simpl.
  split; [exact Hinit|]. split; [exact Hslen|].
  split; [|split; [exact Hsorted|split; [exact Hcount|exact Hrows]]].
  eapply Forall_impl; [|exact Hunit]. unfold unit_slice.
  intros s Hs. lia.
Qed.

Lemma rr_stopped (st : RR.State) :
  rr_inv sorted st -> RR.running st = false ->
  RR.procs st = spent sorted /\
  forall i, (i < length sorted)%nat ->
    BurstDuration (proc (RR.procs st) i) = 0.
Proof.
  intros I Hstop.
  unfold RR.running in Hstop. apply Z.ltb_ge in Hstop.
  assert (Hnn := rr_bursts_nonneg sorted st I).
  destruct I as [Hlen [Hp [Ht [Htotal Hbound]]]].
  assert (Hzero : forall i, (i < length sorted)%nat ->
            BurstDuration (proc (RR.procs st) i) = 0).
  { intros i Hi. rewrite <- elem_map_burst by lia.
    apply sumZ_zero; auto.
    - fold (total_burst (RR.procs st)). lia.
    - rewrite length_map. lia. }
  split; [|exact Hzero].
  apply (nth_ext _ _ noProcess noProcess).
  - unfold spent. now rewrite length_map.
  - intros i Hi. rewrite Hlen in Hi. fold (proc (RR.procs st) i).
    destruct (Hp i Hi) as [He _]. rewrite He, (Hzero i Hi).
    symmetry.
    exact (map_nth (fun p => RR.set_burst p 0) sorted noProcess i).
Qed.

Lemma total_duration_units (g : list TimeSlice) :
  Forall (fun s => Stop s = Start s + 1 /\ 0 <= Start s) g ->
  total_duration g = Z.of_nat (length g).
Proof.
  unfold total_duration. induction 1 as [|s g [Hs _] _ IH];
    [reflexivity|].
  cbn [map fold_right length]. rewrite IH. unfold duration. lia.
Qed.

(** The main loop ends with the slice spent, the timeline one slice for
    each unit of work, and a row for every process. *)
Lemma rr_loop_report :
  exists n st,
    while RR.running RR.body n (RR.init sorted) = Some st /\
    RR.procs st = spent sorted /\
    rr_timeline sorted (RR.gantt st) /\
    rr_rows sorted (RR.gantt st) (RR.schedule st).
Proof.
  assert (Hf := fits_exit_fits sorted Hfits).
  destruct (while_terminates RR.running RR.body
              (fun s => rr_inv sorted s /\ rr_chart sorted s)
              (rr_fuel_left sorted)) with (s := RR.init sorted)
    as [n [st [Hw [[I C] Hstop]]]].
  - intros s [I _]. unfold rr_fuel_left.
    assert (H := sumZ_nonneg _ (rr_bursts_nonneg sorted s I)).
    fold (total_burst (RR.procs s)) in H. lia.
  - intros s [I C] Hrun.
    destruct (rr_body_step sorted Hf s I Hrun) as [I' Hd].
    split; [split; [exact I'|now apply rr_body_chart]|exact Hd].
  - split; [now apply rr_init_inv|apply rr_chart_init].
  - exists n, st. split; [exact Hw|].
    destruct (rr_stopped st I Hstop) as [Hspent Hzero].
    split; [exact Hspent|].
    destruct C as [Hinit [Hslen [Hunit [Hsorted [Hcount Hrows]]]]].
    assert (Hspent0 : total_burst (RR.procs st) = 0).
    { rewrite Hspent. unfold total_burst, spent. rewrite map_map. simpl.
      clear. induction sorted; simpl; auto. }
    assert (Hu : Forall (fun s => Stop s = Start s + 1 /\ 0 <= Start s)
                   (RR.gantt st)).
    { eapply Forall_impl; [|exact Hunit]. unfold unit_slice.
      intros s Hs. split; apply Hs. }
    split.
    + split; [exact Hu|]. split; [exact Hsorted|].
      rewrite (total_duration_units _ Hu). split; lia.
    + split; [exact Hslen|]. intros i Hi.
      specialize (Hrows i Hi). rewrite (Hzero i Hi) in Hrows.
      destruct (well_formed_proc sorted i Hwf Hi) as [_ Hb0].
      destruct (nth i (RR.schedule st) None) as [r|]; [|lia].
      destruct Hrows as [s [Hin [Hpid [Hr Hs]]]].
      exists s, r. repeat (split; [assumption || reflexivity|]).
      rewrite Hr. simpl. lia.
Qed.

End RoundRobinReport.

Lemma fits_exit_perm (ps qs : list Process) :
  Permutation ps qs -> fits_exit ps -> fits_exit qs.
Proof.
  unfold fits_exit. intros H.
  now rewrite (total_burst_perm _ _ H), (max_arrival_perm _ _ H).
Qed.

(** The loops of [RRSchedule] end, and whenever they have ended the
    state is that of [rr_loop_report] over the reordered slice. *)
Lemma rr_schedule_report (ps : list Process) :
  well_formed ps -> fits_exit ps ->
  (exists fuel st, RR.loop fuel ps = Some st) /\
  forall fuel st, RR.loop fuel ps = Some st ->
    RR.procs st = spent (RR.sort ps) /\
    rr_timeline (RR.sort ps) (RR.gantt st) /\
    rr_rows (RR.sort ps) (RR.gantt st) (RR.schedule st).
Proof.
  intros Hwf Hfits.
  destruct (sort_sorts ps) as [_ [Hperm _]].
  assert (Hwf' : well_formed (RR.sort ps))
    by (apply (well_formed_perm ps); [now apply Permutation_sym|exact Hwf]).
  assert (Hfits' : fits_exit (RR.sort ps))
    by (apply (fits_exit_perm ps); [now apply Permutation_sym|exact Hfits]).
  destruct (rr_loop_report (RR.sort ps) Hwf' Hfits')
    as [n [st [Hloop [Hspent [Htl Hrows]]]]].
  unfold RR.loop. split; [exists n, st; exact Hloop|].
  intros fuel st' Hloop'.
  rewrite (while_unique _ _ _ _ _ _ _ Hloop' Hloop). auto.
Qed.

(** X11.  For arrival times >= 0 and bursts > 0, with the total burst
    plus the latest arrival below the greatest int, the loops of
    [RRSchedule] end, and whenever they have ended the timeline is made
    of slices of exactly one timestep (the quantum is 1), none before
    time 0, each stopping no later than every later slice starts, one
    slice for each unit of burst: their number and the sum of their
    durations equal the total burst.  This is the timeline of any
    report handed to the output helpers. *)
Theorem rr_timeline_unit_slices (ps : list Process) :
  well_formed ps -> fits_exit ps ->
  (exists fuel st, RR.loop fuel ps = Some st) /\
  (forall fuel st, RR.loop fuel ps = Some st ->
     rr_timeline ps (RR.gantt st)) /\
  forall fuel ps' rep, RRSchedule fuel ps = Some (ps', rep) ->
    rr_timeline ps (repGantt rep).
Proof.
  intros Hwf Hfits.
  destruct (rr_schedule_report ps Hwf Hfits) as [Hex Hall].
  destruct (sort_sorts ps) as [_ [Hperm _]].
  assert (Hst : forall fuel st, RR.loop fuel ps = Some st ->
            rr_timeline ps (RR.gantt st)).
  { intros fuel st H. destruct (Hall fuel st H) as [_ [Htl _]].
    unfold rr_timeline in *. now rewrite <- (total_burst_perm _ _ Hperm). }
  split; [exact Hex|]. split; [exact Hst|].
  intros fuel ps' rep. unfold RRSchedule.
  destruct (RR.loop fuel ps) as [st|] eqn:Hloop; [|discriminate].
  intros [= _ <-]. now apply (Hst fuel).
Qed.

Lemma rr_timeline_unit_slices_witness :
  (well_formed unordered /\ fits_exit unordered) /\
  total_burst unordered = 11 /\
  exists st, RR.loop 11 unordered = Some st /\
    rr_timeline unordered (RR.gantt st).
Proof.
  assert (Hwf : well_formed unordered) by (repeat constructor; simpl; lia).
  assert (Hfits : fits_exit unordered) by (vm_compute; reflexivity).
  split; [split; assumption|]. split; [reflexivity|].
  destruct (RR.loop 11 unordered) as [st|] eqn:H;
    [|vm_compute in H; discriminate].
  exists st. split; [reflexivity|].
  destruct (rr_timeline_unit_slices unordered Hwf Hfits) as [_ [Hall _]].
  apply (Hall 11%nat st H).
Defined.

(** X12.  Under the same conditions, whenever the loops of [RRSchedule]
    have ended every process has a row, at its index in the reordered
    slice, with the burst it had on entry; the completion time the row
    records is one more than the stop of a slice of that process,
    turnaround and wait are derived from it (completion - arrival, and
    that minus the burst), so the recorded wait is at least 1 even for a
    process that never waited.  These are the rows of any report handed
    to the output helpers. *)
Theorem rr_rows_completion_one_late (ps : list Process) :
  well_formed ps -> fits_exit ps ->
  (exists fuel st, RR.loop fuel ps = Some st) /\
  (forall fuel st, RR.loop fuel ps = Some st ->
     rr_rows (RR.sort ps) (RR.gantt st) (RR.schedule st)) /\
  forall fuel ps' rep, RRSchedule fuel ps = Some (ps', rep) ->
    rr_rows (RR.sort ps) (repGantt rep) (repRows rep).
Proof.
  intros Hwf Hfits.
  destruct (rr_schedule_report ps Hwf Hfits) as [Hex Hall].
  split; [exact Hex|]. split.
  - intros fuel st H. apply (Hall fuel st H).
  - intros fuel ps' rep. unfold RRSchedule.
    destruct (RR.loop fuel ps) as [st|] eqn:Hloop; [|discriminate].
    intros [= _ <-]. apply (Hall fuel st Hloop).
Qed.

(** A single process of burst 2 runs from 0 to 2 without waiting; its
    row records the completion time 3 and the wait 1. *)
Lemma rr_rows_completion_one_late_witness :
  (well_formed two_ticks /\ fits_exit two_ticks) /\
  exists st, RR.loop 2 two_ticks = Some st
    /\ RR.gantt st = [mkTimeSlice 1 0 1; mkTimeSlice 1 1 2]
    /\ RR.schedule st = [Some (mkRow 1 0 2 0 1 3 3)]
    /\ rr_rows (RR.sort two_ticks) (RR.gantt st) (RR.schedule st).
Proof.
  assert (Hwf : well_formed two_ticks) by (repeat constructor; simpl; lia).
  assert (Hfits : fits_exit two_ticks) by (vm_compute; reflexivity).
  split; [split; assumption|].
  destruct (RR.loop 2 two_ticks) as [st|] eqn:H;
    [|vm_compute in H; discriminate].
  exists st. split; [reflexivity|].
  split; [vm_compute in H; injection H as <-; reflexivity|].
  split; [vm_compute in H; injection H as <-; reflexivity|].
  destruct (rr_rows_completion_one_late two_ticks Hwf Hfits)
    as [_ [Hall _]].
  apply (Hall 2%nat st H).
Defined.

(** ** The reordering of [RRSchedule] on a slice already in order *)

Lemma strongly_sorted_nth (ps : list Process) :
  StronglySorted arrival_le ps ->
  forall i j, (i <= j < length ps)%nat ->
    arrival_le (proc ps i) (proc ps j).
Proof.
  unfold proc. induction 1 as [|p ps Hs IH Hall]; intros i j Hij.
  - simpl in Hij. lia.
  - destruct i as [|i], j as [|j]; simpl in *; try lia.
    + unfold arrival_le. lia.
    + apply (proj1 (Forall_forall _ _) Hall). apply nth_In. lia.
    + apply IH. lia.
Qed.

Lemma sort_outer_sorted (ps : list Process) (i : nat) :
  StronglySorted arrival_le ps -> RR.sort_outer ps i = ps.
Proof.
  intros Hs. unfold RR.sort_outer.
  assert (H : forall js, Forall (fun j => (i <= j < length ps)%nat) js ->
            fold_left (RR.sort_inner i) js ps = ps).
  { induction js as [|j js IH]; intros Hjs; [reflexivity|].
    inversion Hjs as [|? ? Hj Hjs']; subst. simpl.
    unfold RR.sort_inner at 2.
    assert (Hle := strongly_sorted_nth ps Hs i j Hj). unfold arrival_le in Hle.
    destruct (Z.ltb_spec (ArrivalTime (proc ps j)) (ArrivalTime (proc ps i)));
      [lia|]. now apply IH. }
  apply H. apply Forall_forall. intros j Hj. apply in_seq in Hj. lia.
Qed.

Lemma sort_sorted (ps : list Process) :
  StronglySorted arrival_le ps -> RR.sort ps = ps.
Proof.
  intros Hs. unfold RR.sort.
  induction (seq 0 (length ps)) as [|i l IH]; [reflexivity|].
  simpl. now rewrite sort_outer_sorted.
Qed.

(** X13.  The reordering at the head of [RRSchedule] leaves a slice that
    is already in order of arrival as it is, equal arrival times
    included, and reordering twice is reordering once. *)
Theorem rr_sort_keeps_sorted (ps : list Process) :
  (StronglySorted arrival_le ps -> RR.sort ps = ps) /\
  RR.sort (RR.sort ps) = RR.sort ps.
Proof.
  split; [apply sort_sorted|]. apply sort_sorted. apply sort_sorts.
Qed.

Lemma rr_sort_keeps_sorted_witness :
  StronglySorted arrival_le same_arrival /\
  RR.sort same_arrival = same_arrival.
Proof.
  assert (Hs : StronglySorted arrival_le same_arrival)
    by (repeat constructor; unfold arrival_le; simpl; lia).
  split; [exact Hs|]. apply (proj1 (rr_sort_keeps_sorted same_arrival) Hs).
Defined.

(** ** Loading processes *)

Section Loading.

Variable ParseInt : String.string -> option Z.

Lemma loadRow_outcome (row : list String.string) :
  match Load.loadRow ParseInt row with
  | Done p => Load.loads ParseInt row p
  | Panics => Load.too_short row
  | Exits status => status = 1 /\ Load.unparsable ParseInt row
  end.
Proof.
  unfold Load.loadRow, Load.field, Load.mustStrToInt, Load.too_short,
    Load.unparsable, Load.loads.
  destruct row as [|f0 [|f1 [|f2 rest]]]; simpl; try lia.
  - destruct (ParseInt f0) eqn:H0; simpl; [lia|].
    split; [reflexivity|]. now constructor.
  - destruct (ParseInt f0) eqn:H0; simpl;
      [|split; [reflexivity|now constructor]].
    destruct (ParseInt f1) eqn:H1; simpl; [lia|].
    split; [reflexivity|]. constructor 2. now constructor.
  - destruct (ParseInt f0) eqn:H0; simpl;
      [|split; [reflexivity|now constructor]].
    destruct (ParseInt f1) eqn:H1; simpl;
      [|split; [reflexivity|constructor 2; now constructor]].
    destruct (ParseInt f2) eqn:H2; simpl;
      [|split; [reflexivity|do 2 constructor 2; now constructor]].
    destruct rest as [|f3 [|f4 rest]]; simpl.
    + exists f0, f1, f2, []. simpl. auto.
    + destruct (ParseInt f3) eqn:H3; simpl.
      * exists f0, f1, f2, [f3]. simpl. auto.
      * split; [reflexivity|]. do 3 constructor 2. now constructor.
    + exists f0, f1, f2, (f3 :: f4 :: rest). simpl. auto.
Qed.

Lemma loadRow_loads (row : list String.string) (p : Process) :
  Load.loads ParseInt row p -> Load.loadRow ParseInt row = Done p.
Proof.
  intros [f0 [f1 [f2 [rest [-> [H0 [H1 [H2 H3]]]]]]]].
  unfold Load.loadRow, Load.field, Load.mustStrToInt. simpl.
  rewrite H0. simpl. rewrite H1. simpl. rewrite H2. simpl.
  destruct p as [id arrival burst priority]. simpl in *.
  destruct rest as [|f3 [|f4 rest]]; simpl.
  - now subst.
  - rewrite H3. reflexivity.
  - now subst.
Qed.

End Loading.

(** X14.  When the CSV reader returned [rows], [loadProcesses] returns a
    process list exactly when every row has at least three fields and
    the fields it uses parse as integers; the list then has one process
    per row, in order, whose identifier, burst and arrival time are the
    first, second and third field, and whose priority is the fourth
    field of a row of exactly four fields and 0 for every other row
    (three fields, or five and more). *)
Theorem load_processes_columns (ParseInt : String.string -> option Z)
  (rows : list (list String.string)) (ps : list Process) :
  Load.loadProcesses ParseInt (inl rows) = Done (inl ps)
  <-> Forall2 (Load.loads ParseInt) rows ps.
Proof.
  unfold Load.loadProcesses.
  assert (H : Load.loadRows ParseInt rows = Done ps
              <-> Forall2 (Load.loads ParseInt) rows ps).
  { revert ps. induction rows as [|row rows IH]; intros ps; simpl.
    - split.
      + intros [= <-]. constructor.
      + intros Hf. inversion Hf. reflexivity.
    - assert (Hrow := loadRow_outcome ParseInt row).
      destruct (Load.loadRow ParseInt row) as [p| |c] eqn:Hr; simpl.
      + destruct (Load.loadRows ParseInt rows) as [qs| |c] eqn:Hrs; simpl.
        * split.
          -- intros [= <-]. constructor; [exact Hrow|]. now apply IH.
          -- intros Hf. inversion Hf as [|? q ? qs' Hq Hqs]; subst.
             apply (loadRow_loads ParseInt) in Hq. rewrite Hr in Hq.
             apply IH in Hqs. congruence.
        * split; [discriminate|]. intros Hf.
          inversion Hf as [|? q ? qs' Hq Hqs]; subst.
          apply IH in Hqs. discriminate.
        * split; [discriminate|]. intros Hf.
          inversion Hf as [|? q ? qs' Hq Hqs]; subst.
          apply IH in Hqs. discriminate.
      + split; [discriminate|]. intros Hf.
        inversion Hf as [|? q ? qs' Hq Hqs]; subst.
        apply (loadRow_loads ParseInt) in Hq. congruence.
      + split; [discriminate|]. intros Hf.
        inversion Hf as [|? q ? qs' Hq Hqs]; subst.
        apply (loadRow_loads ParseInt) in Hq. congruence. }
  destruct (Load.loadRows ParseInt rows) as [qs| |c]; simpl.
  - split.
    + intros [= <-]. now apply H.
    + intros Hf. apply H in Hf. congruence.
  - split; [discriminate|]. intros Hf. apply H in Hf. discriminate.
  - split; [discriminate|]. intros Hf. apply H in Hf. discriminate.
Qed.

(** X15.  [loadProcesses] never returns an error for rows that were
    read: it panics (index out of range) only if some row has fewer than
    three fields, and it ends the program, always with status 1, only if
    some field of some row does not parse as an integer. *)
Theorem load_processes_failures (ParseInt : String.string -> option Z)
  (rows : list (list String.string)) :
  match Load.loadProcesses ParseInt (inl rows) with
  | Done (inl ps) => length ps = length rows
  | Done (inr _) => False
  | Panics => Exists Load.too_short rows
  | Exits status =>
      status = 1 /\ Exists (Load.unparsable ParseInt) rows
  end.
Proof.
  unfold Load.loadProcesses.
  assert (H : match Load.loadRows ParseInt rows with
              | Done ps => length ps = length rows
              | Panics => Exists Load.too_short rows
              | Exits status =>
                  status = 1 /\ Exists (Load.unparsable ParseInt) rows
              end).
  { induction rows as [|row rows IH]; simpl; [reflexivity|].
    assert (Hrow := loadRow_outcome ParseInt row).
    destruct (Load.loadRow ParseInt row) as [p| |c]; simpl.
    - destruct (Load.loadRows ParseInt rows) as [qs| |c]; simpl.
      + now rewrite IH.
      + now constructor 2.
      + split; [apply IH|]. constructor 2. apply IH.
    - now constructor.
    - split; [apply Hrow|]. constructor. apply Hrow. }
  destruct (Load.loadRows ParseInt rows) as [qs| |c]; simpl; exact H.
Qed.

(** ** The chart *)

Section Chart.

Variable Sprint : Z -> String.string.

Lemma cell_outcome (s : TimeSlice) :
  match Output.cell Sprint s with
  | Done _ => ~ Output.wide Sprint s
  | Panics => Output.wide Sprint s
  | Exits _ => False
  end.
Proof.
  unfold Output.cell, Output.Repeat, Output.wide. cbv zeta.
  set (n := String.length (Sprint (PID s))).
  destruct (Z.ltb_spec (Z.quot (8 - Z.of_nat n) 2) 0) as [H|H]; simpl.
  - destruct (le_lt_dec 10 n) as [Hn|Hn]; [exact Hn|]. exfalso.
    assert (Hq : 0 <= Z.quot (8 - Z.of_nat n) 2); [|lia].
    destruct (Z.eq_dec (8 - Z.of_nat n) (-1)) as [->|Hne];
      [vm_compute; discriminate|].
    apply Z.quot_pos; lia.
  - intros Hn.
    assert (Hq : 0 < Z.quot (Z.of_nat n - 8) 2)
      by (apply Z.quot_str_pos; lia).
    replace (8 - Z.of_nat n) with (- (Z.of_nat n - 8)) in H by lia.
    rewrite Z.quot_opp_l in H by lia. lia.
Qed.

Lemma cells_outcome (g : list TimeSlice) (w : String.string) :
  match snd (Output.cells Sprint w g) with
  | Done _ => Forall (fun s => ~ Output.wide Sprint s) g
  | Panics => Exists (Output.wide Sprint) g
  | Exits _ => False
  end.
Proof.
  revert w. induction g as [|s g IH]; intros w; simpl; [constructor|].
  assert (Hc := cell_outcome s).
  destruct (Output.cell Sprint s) as [c| |c]; simpl.
  - specialize (IH (String.append w c)).
    destruct (snd (Output.cells Sprint (String.append w c) g)) as [u| |x].
    + now constructor.
    + now constructor 2.
    + exact IH.
  - now constructor.
  - exact Hc.
Qed.

Lemma cells_pids (g g' : list TimeSlice) (w : String.string) :
  map PID g = map PID g' ->
  Output.cells Sprint w g = Output.cells Sprint w g'.
Proof.
  revert g' w. induction g as [|s g IH]; intros [|s' g'] w H;
    try discriminate; [reflexivity|].
  simpl in H. injection H as Hpid Hrest. simpl.
  unfold Output.cell. rewrite Hpid. cbv zeta.
  destruct (Output.Repeat _ _); simpl; auto.
Qed.

Lemma times_starts (g g' : list TimeSlice) :
  map Start g = map Start g' ->
  Stop (last g noSlice) = Stop (last g' noSlice) ->
  Output.times Sprint g = Output.times Sprint g'.
Proof.
  revert g'. induction g as [|s g IH]; intros [|s' g'] H Hl;
    try discriminate; [reflexivity|].
  simpl in H. injection H as Hs Hrest.
  destruct g as [|t g], g' as [|t' g']; try discriminate.
  - simpl in *. now rewrite Hs, Hl.
  - change (Output.times Sprint (s :: t :: g))
      with (String.append (Sprint (Start s))
              (String.append Output.tab
                 (String.append String.EmptyString
                    (Output.times Sprint (t :: g))))).
    change (Output.times Sprint (s' :: t' :: g'))
      with (String.append (Sprint (Start s'))
              (String.append Output.tab
                 (String.append String.EmptyString
                    (Output.times Sprint (t' :: g'))))).
    rewrite Hs. rewrite (IH (t' :: g') Hrest); [reflexivity|].
    exact Hl.
Qed.

End Chart.

(** X16.  [outputGantt] panics (a negative repeat count) exactly when
    the identifier of some slice prints in ten bytes or more, and then
    the line of times is not written; otherwise it returns. It never
    ends the program. *)
Theorem output_gantt_panics (Sprint : Z -> String.string)
  (w : String.string) (g : list TimeSlice) :
  match snd (Output.outputGantt Sprint w g) with
  | Done _ => Forall (fun s => ~ Output.wide Sprint s) g
  | Panics =>
      Exists (Output.wide Sprint) g /\
      Output.outputGantt Sprint w g
        = Output.cells Sprint (String.append w Output.header) g
  | Exits _ => False
  end.
Proof.
  unfold Output.outputGantt.
  assert (H := cells_outcome Sprint g (String.append w Output.header)).
  destruct (Output.cells Sprint _ g) as [w' [u| |c]]; simpl in *; auto.
Qed.

(** X17.  What [outputGantt] writes depends on the identifiers and the
    start times of the slices and on the stop time of the last slice
    only: the stop times of the other slices, hence gaps between
    slices, do not show. *)
Theorem output_gantt_hides_stops (Sprint : Z -> String.string)
  (w : String.string) (g g' : list TimeSlice) :
  map PID g = map PID g' -> map Start g = map Start g' ->
  Stop (last g noSlice) = Stop (last g' noSlice) ->
  Output.outputGantt Sprint w g = Output.outputGantt Sprint w g'.
Proof.
  intros Hp Hs Hl. unfold Output.outputGantt.
  rewrite (cells_pids Sprint g g' _ Hp).
  now rewrite (times_starts Sprint g g' Hs Hl).
Qed.

(** The timelines of [SJFSchedule] and of [SJFPrioritySchedule] on
    [with_gap] differ in the stop of the first slice, and print alike. *)
Lemma output_gantt_hides_stops_witness :
  let g := [mkTimeSlice 1 0 1; mkTimeSlice 2 5 6] in
  let g' := [mkTimeSlice 1 0 5; mkTimeSlice 2 5 6] in
  option_map (fun r => repGantt (snd r)) (SJFSchedule 7 with_gap) = Some g /\
  option_map (fun r => repGantt (snd r)) (SJFPrioritySchedule 7 with_gap)
    = Some g' /\
  Output.outputGantt Output.digit String.EmptyString g
    = Output.outputGantt Output.digit String.EmptyString g'.
Proof.
  cbv zeta. split; [vm_compute; reflexivity|].
  split; [vm_compute; reflexivity|].
  apply (output_gantt_hides_stops Output.digit String.EmptyString
           [mkTimeSlice 1 0 1; mkTimeSlice 2 5 6]
           [mkTimeSlice 1 0 5; mkTimeSlice 2 5 6]);
    reflexivity.
Defined.

(** ** Identifiers on the timelines, and the panic of [outputGantt] *)

Lemma proc_id_in (ps : list Process) (i : nat) :
  (i < length ps)%nat -> In (ProcessID (proc ps i)) (map ProcessID ps).
Proof. intros Hi. apply in_map. unfold proc. now apply nth_In. Qed.

Lemma known_pids_snoc (ps : list Process) (g : list TimeSlice)
  (s : TimeSlice) :
  known_pids ps g -> In (PID s) (map ProcessID ps) ->
  known_pids ps (g ++ [s]).
Proof.
  intros Hg Hs. apply Forall_app. split; [exact Hg|]. now constructor.
Qed.

Lemma gantt_step_pids (ps : list Process) (st : Sim) (idx : Z) :
  pids_inv ps st ->
  (idx = -1 \/ exists j, (j < length ps)%nat /\ idx = Z.of_nat j) ->
  pids_inv ps (gantt_step st idx).
Proof.
  intros [Hp [Hg Hl]] Hidx. unfold gantt_step.
  destruct (negb (lastGantIndex st =? idx)
            || (timestep st =? Int.sub (totalBurstTime st) 1));
    [|repeat split; assumption].
  unfold pids_inv. simpl. split; [exact Hp|]. split; [|exact Hidx].
  destruct (Z.eqb_spec (lastGantIndex st) (-1)) as [He|Hne]; simpl;
    [exact Hg|].
  apply known_pids_snoc; [exact Hg|]. simpl.
  destruct Hl as [Hl|[j [Hj Hl]]]; [congruence|].
  rewrite Hl, Nat2Z.id, Hp. now apply proc_id_in.
Qed.

Lemma run_step_pids (ps : list Process) (st : Sim) (idx : Z) :
  pids_inv ps st -> pids_inv ps (run_step st idx).
Proof.
  intros [Hp [Hg Hl]]. unfold pids_inv.
  destruct (run_step_core st idx) as [Hp' _].
  destruct (run_step_fields st idx) as [Hg' _].
  now rewrite Hp', Hg', run_step_index.
Qed.

Lemma idle_step_pids (ps : list Process) (st : Sim) :
  pids_inv ps st -> pids_inv ps (idle_step st).
Proof. intros H. exact H. Qed.

Lemma sjf_body_pids (ps : list Process) (st : Sim) :
  pids_inv ps st -> pids_inv ps (SJF.body st).
Proof.
  intros I. assert (Hp : procs st = ps) by apply I. unfold SJF.body.
  assert (Hidx : fst (SJF.select st) = -1 \/
            exists j, (j < length ps)%nat /\
              fst (SJF.select st) = Z.of_nat j).
  { destruct (sjf_select_spec st) as [[H1 _]|[j [Hj [H1 _]]]];
      [now left|]. right. exists j. rewrite <- Hp. auto. }
  apply (gantt_step_pids ps st _ I) in Hidx.
  destruct (fst (SJF.select st) =? -1);
    [now apply idle_step_pids|now apply run_step_pids].
Qed.

Lemma prio_body_pids (ps : list Process) (st : Sim) :
  pids_inv ps st -> pids_inv ps (Prio.body st).
Proof.
  intros I. assert (Hp : procs st = ps) by apply I. unfold Prio.body.
  assert (Hidx : fst (fst (Prio.select st)) = -1 \/
            exists j, (j < length ps)%nat /\
              fst (fst (Prio.select st)) = Z.of_nat j).
  { destruct (prio_select_bounded st) as [_ [H1|[j [Hj [H1 _]]]]];
      [now left|]. right. exists j. rewrite <- Hp. auto. }
  destruct (fst (fst (Prio.select st)) =? -1);
    [now apply idle_step_pids|].
  apply run_step_pids. now apply gantt_step_pids.
Qed.

Lemma pids_init (ps : list Process) : pids_inv ps (sim_init ps).
Proof.
  unfold pids_inv. simpl. split; [reflexivity|].
  split; [constructor|now left].
Qed.

Lemma map_id_set_nth (l : list Process) (i : nat) (b : Z) :
  map ProcessID (set_nth l i (RR.set_burst (proc l i) b)) = map ProcessID l.
Proof.
  unfold proc. revert i. induction l as [|p l IH]; intros [|i]; simpl;
    try reflexivity. now rewrite IH.
Qed.

Lemma pass_pids (sorted : list Process) (st : RR.State) (i : nat) :
  rr_pids sorted st -> (i < length sorted)%nat ->
  rr_pids sorted (RR.pass st i).
Proof.
  intros [Hm Hg] Hi. unfold RR.pass.
  destruct (RR.timestep st <? _); [split; assumption|].
  destruct (_ <=? 0); [split; assumption|].
  unfold rr_pids. simpl. rewrite map_id_set_nth.
  split; [exact Hm|]. apply known_pids_snoc; [exact Hg|]. simpl.
  rewrite <- Hm. apply proc_id_in.
  rewrite <- (length_map ProcessID), Hm, length_map. exact Hi.
Qed.

Lemma rr_body_pids (sorted : list Process) (st : RR.State) :
  rr_pids sorted st -> rr_pids sorted (RR.body st).
Proof.
  intros I. unfold RR.body.
  set (st0 := RR.mkState (RR.procs st) (RR.timestep st)
                (RR.totalBurstTime st) (RR.processBurstInit st) false
                (RR.schedule st) (RR.gantt st)).
  assert (I0 : rr_pids sorted st0) by exact I.
  assert (Hlen : length (RR.procs st0) = length sorted).
  { destruct I0 as [Hm _].
    now rewrite <- (length_map ProcessID), Hm, length_map. }
  assert (H : forall k, (k <= length sorted)%nat ->
            rr_pids sorted (fold_left RR.pass (seq 0 k) st0)).
  { induction k as [|k IH]; intros Hk; [exact I0|].
    rewrite seq_S, fold_left_app. simpl.
    apply pass_pids; [apply IH; lia|lia]. }
  rewrite Hlen. specialize (H (length sorted) (Nat.le_refl _)).
  destruct (RR.ranProcess _); exact H.
Qed.

Lemma fcfs_pids (ps : list Process) :
  known_pids ps (repGantt (snd (FCFSSchedule ps))).
Proof.
  unfold FCFSSchedule, FCFS.loop. simpl.
  assert (H : forall k, (k <= length ps)%nat ->
            known_pids ps
              (FCFS.gantt (fold_left FCFS.body (seq 0 k) (FCFS.init ps)))).
  { induction k as [|k IH]; intros Hk; [constructor|].
    rewrite seq_S, fold_left_app. simpl.
    apply known_pids_snoc; [apply IH; lia|]. simpl.
    rewrite fcfs_loop_procs. simpl. apply proc_id_in. lia. }
  apply H. lia.
Qed.

(** Every slice of a timeline that a scheduler hands to [outputGantt]
    carries the identifier of a process of the input. *)
Lemma timelines_known_pids (ps ps' : list Process) (fuel : nat)
  (rep : Report) :
  SJFSchedule fuel ps = Some (ps', rep) \/
  SJFPrioritySchedule fuel ps = Some (ps', rep) \/
  RRSchedule fuel ps = Some (ps', rep) ->
  known_pids ps (repGantt rep).
Proof.
  unfold SJFSchedule, SJFPrioritySchedule, RRSchedule, SJF.loop, Prio.loop,
    RR.loop.
  intros [H|[H|H]].
  - destruct (while running SJF.body fuel (sim_init ps)) as [st|] eqn:Hw;
      [|discriminate].
    injection H as _ <-. simpl.
    eapply (while_invariant (pids_inv ps) running) in Hw.
    + apply Hw.
    + intros s I _. now apply sjf_body_pids.
    + apply pids_init.
  - destruct (while running Prio.body fuel (sim_init ps)) as [st|] eqn:Hw;
      [|discriminate].
    injection H as _ <-. simpl.
    eapply (while_invariant (pids_inv ps) running) in Hw.
    + apply Hw.
    + intros s I _. now apply prio_body_pids.
    + apply pids_init.
  - destruct (while RR.running RR.body fuel (RR.init (RR.sort ps)))
      as [st|] eqn:Hw; [|discriminate].
    injection H as _ <-. simpl.
    eapply (while_invariant (rr_pids (RR.sort ps)) RR.running) in Hw.
    + destruct Hw as [[_ Hg] _].
      destruct (sort_sorts ps) as [_ [Hperm _]].
      unfold known_pids in *. eapply Forall_impl; [|exact Hg].
      intros s Hs. simpl in Hs.
      eapply Permutation_in; [|exact Hs]. now apply Permutation_map.
    + intros s I _. now apply rr_body_pids.
    + split; [reflexivity|constructor].
Qed.

Lemma narrow_timeline (Sprint : Z -> String.string) (w : String.string)
  (ps : list Process) (rep : Report) :
  narrow_ids Sprint ps -> known_pids ps (repGantt rep) ->
  handed_over Sprint w rep = Done rep.
Proof.
  intros Hn Hk. unfold handed_over, Output.outputGantt.
  assert (Hc := cells_outcome Sprint (repGantt rep)
                  (String.append w Output.header)).
  assert (Hno : ~ Exists (Output.wide Sprint) (repGantt rep)).
  { intros He. apply Exists_exists in He. destruct He as [s [Hin Hw]].
    assert (Hs := proj1 (Forall_forall _ _) Hk s Hin). simpl in Hs.
    apply in_map_iff in Hs. destruct Hs as [p [Hp Hin']].
    assert (Hlt := proj1 (Forall_forall _ _) Hn p Hin'). simpl in Hlt.
    unfold Output.wide in Hw. rewrite <- Hp in Hw. lia. }
  destruct (Output.cells Sprint _ (repGantt rep)) as [w' [u| |c]];
    simpl in *; [reflexivity|contradiction|contradiction].
Qed.

(** X18.  When no process identifier of the input prints in ten bytes
    or more, [outputGantt] does not panic on the timeline of any of the
    four schedulers, so that the rows and the footer values are handed
    to [outputSchedule]: every slice of a timeline carries the
    identifier of a process of the input. *)
Theorem narrow_ids_reach_output (Sprint : Z -> String.string)
  (w : String.string) (ps : list Process) :
  narrow_ids Sprint ps ->
  handed_over Sprint w (snd (FCFSSchedule ps))
    = Done (snd (FCFSSchedule ps)) /\
  forall fuel ps' rep,
    SJFSchedule fuel ps = Some (ps', rep) \/
    SJFPrioritySchedule fuel ps = Some (ps', rep) \/
    RRSchedule fuel ps = Some (ps', rep) ->
    handed_over Sprint w rep = Done rep.
Proof.
  intros Hn. split.
  - apply (narrow_timeline Sprint w ps); [exact Hn|apply fcfs_pids].
  - intros fuel ps' rep H.
    apply (narrow_timeline Sprint w ps); [exact Hn|].
    now apply (timelines_known_pids ps ps' fuel).
Qed.

(** The identifiers 1, 2, 3 of [staggered] print in one byte; an
    identifier of ten digits on the timeline makes [outputGantt]
    panic. *)
Lemma narrow_ids_reach_output_witness :
  narrow_ids Output.digit staggered /\
  handed_over Output.digit String.EmptyString (snd (FCFSSchedule staggered))
    = Done (snd (FCFSSchedule staggered)) /\
  handed_over (fun _ => Output.copies 10 (Output.digit 1)) String.EmptyString
    (snd (FCFSSchedule staggered)) = Panics.
Proof.
  assert (Hn : narrow_ids Output.digit staggered)
    by (repeat constructor; simpl; lia).
  split; [exact Hn|]. split.
  - apply (narrow_ids_reach_output Output.digit String.EmptyString
             staggered Hn).
  - vm_compute. reflexivity.
Defined.
